(** * fabric-token-sdk: transaction store, audit decomposition, token store
      and reconciliation checks

    A shallow embedding of

    - [token/services/ttxdb/db.go]: [TransactionRecords], [Movements],
      [joinIOEIDs], [deduplicate], [DB.SetStatus], [DB.GetTokenRequest],
      [DB.AppendTransactionRecord], [DB.AppendValidationRecord];
    - the SQL token store: [TokenDB.GetTokens], and on the tables of
      [GetSchema] [StoreToken], [DeleteTokens], [IsMine],
      [ListAuditTokens], [WhoDeletedTokens], [TransactionExists],
      [getLedgerToken], [GetTokenOutputs], [StorePublicParams],
      [PublicParams] and the statements of [TokenTransaction];
    - the views: the status cross-check, the ledger check and the match of
      the unspent tokens of [CheckTTXDBView.Call], and
      [CheckIfExistsInVaultView.Call].

    Go values are rendered as follows: [string] as [string], [[]byte] as
    [list Byte.byte], [int] as [Z], [uint64] as [N], a [*big.Int] as its
    value in [Z] (and as a cell of a heap where [Movements] compares
    pointers), slices as lists, a nil-able pointer as [option], [(T, error)]
    results as a sum [error + T]. *)

From stdpp Require Import base decidable option list numbers strings gmap pretty.
From Stdlib Require Import ZArith Lia.
From Stdlib Require Strings.Byte.

#[local] Set Warnings "-clear-no-such-hyp".

Local Open Scope string_scope.
Local Open Scope list_scope.
Local Open Scope Z_scope.

(** ** Errors *)

(** [errors.Errorf] builds a fresh error from a message; [errors.Wrapf],
    [errors.WithMessagef] and [errors.WithMessage] decorate a cause. *)
Inductive error : Type :=
| Errorf (msg : string)
| Wrapf (cause : error) (msg : string).

#[global] Instance error_eq_dec : EqDecision error.
Proof. solve_decision. Defined.

Fixpoint Cause (e : error) : error :=
  match e with
  | Errorf _ => e
  | Wrapf c _ => Cause c
  end.

Definition bytes := list Byte.byte.

(** [Zsum f l] is the sum of [f x] for [x] in [l]. *)
Definition Zsum {A} (f : A → Z) (l : list A) : Z := foldr (λ x acc, f x + acc) 0 l.

(** ** Audit records ([token.AuditRecord], [token.Input], [token.Output]) *)

Module Audit.

(** [driver.TxStatus] *)
Inductive TxStatus := Unknown | Pending | Confirmed | Deleted.

(** [driver.ActionType] *)
Inductive ActionType := Issue | Transfer | Redeem.

#[global] Instance TxStatus_eq_dec : EqDecision TxStatus.
Proof. solve_decision. Defined.
#[global] Instance ActionType_eq_dec : EqDecision ActionType.
Proof. solve_decision. Defined.

(** Modelled from the spec: the fields of [token.Input] and [token.Output]
    that the decomposition reads (section 4.E: each input/output carries
    action_index, enrollment_id, token_type, amount).  The action index is a
    Go [int]; the quantity is a [token.Quantity], which is non-negative
    (section 4.E, invariants), hence [N]; [ToBigInt] injects it in [Z]. *)
Record Input := mkInput {
  in_ActionIndex : Z;
  in_EnrollmentID : string;
  in_Type : string;
  in_Quantity : N
}.

Record Output := mkOutput {
  out_ActionIndex : Z;
  out_EnrollmentID : string;
  out_Type : string;
  out_Quantity : N
}.

Record AuditRecord := mkAuditRecord {
  Anchor : string;
  Inputs : list Input;
  Outputs : list Output
}.

(** [driver.TransactionRecord] *)
Record TransactionRecord := mkTransactionRecord {
  TxID : string;
  ActionTy : ActionType;
  SenderEID : string;
  RecipientEID : string;
  TokenType : string;
  Amount : Z;
  Timestamp : Z;
  Status : TxStatus
}.

(** *** [deduplicate] (db.go) *)

(** The loop of [deduplicate]: [support] is the Go map, [res] the slice
    built so far. *)
Fixpoint deduplicate_loop (source : list string) (support : gmap string bool)
    (res : list string) : list string :=
  match source with
  | [] => res
  | item :: rest =>
      match support !! item with
      | None => deduplicate_loop rest (<[item := true]> support) (res ++ [item])
      | Some _ => deduplicate_loop rest support res
      end
  end.

Definition deduplicate (source : list string) : list string :=
  deduplicate_loop source ∅ [].

(** *** Streams *)

(** Modelled from the spec: the stream helpers of package [token]
    ([InputStream], [OutputStream]) are not part of the sources at hand.
    Section 4.E fixes what they compute: [Filter] keeps the elements
    satisfying a predicate, [Count] is the length, [EnrollmentIDs] is the
    distinct enrollment ids (an enrollment id is a non-empty string, section
    3, so the empty id is not listed and the decomposition adds it by hand),
    [TokenTypes] the distinct output types, [ByEnrollmentID] and [ByType]
    select by equality and [Sum] adds the amounts up. *)
Definition in_EnrollmentIDs (ins : list Input) : list string :=
  deduplicate (filter (λ e, e ≠ "") (in_EnrollmentID <$> ins)).

Definition out_EnrollmentIDs (ous : list Output) : list string :=
  deduplicate (filter (λ e, e ≠ "") (out_EnrollmentID <$> ous)).

Definition out_TokenTypes (ous : list Output) : list string :=
  deduplicate (out_Type <$> ous).

Definition in_ByEnrollmentID (id : string) (ins : list Input) : list Input :=
  filter (λ i, in_EnrollmentID i = id) ins.

Definition out_ByEnrollmentID (id : string) (ous : list Output) : list Output :=
  filter (λ o, out_EnrollmentID o = id) ous.

Definition in_ByType (t : string) (ins : list Input) : list Input :=
  filter (λ i, in_Type i = t) ins.

Definition out_ByType (t : string) (ous : list Output) : list Output :=
  filter (λ o, out_Type o = t) ous.

Definition in_Sum (ins : list Input) : Z :=
  foldl (λ sum i, sum + Z.of_N (in_Quantity i)) 0 ins.

Definition out_Sum (ous : list Output) : Z :=
  foldl (λ sum o, sum + Z.of_N (out_Quantity o)) 0 ous.

(** *** [TransactionRecords] (db.go) *)

(** [ins] and [ous] of one iteration: the inputs and outputs of the action. *)
Definition action_ins (record : AuditRecord) (actionIndex : Z) : list Input :=
  filter (λ t, in_ActionIndex t = actionIndex) (Inputs record).

Definition action_ous (record : AuditRecord) (actionIndex : Z) : list Output :=
  filter (λ t, out_ActionIndex t = actionIndex) (Outputs record).

(** Go's [%v] of a [[]string]. *)
Definition fmt_strings (l : list string) : string :=
  "[" +:+ String.concat " " l +:+ "]".

Definition errTooManyInputEIDs (inEIDs : list string) : error :=
  Errorf ("expected at most 1 input enrollment id, got "
          +:+ pretty (length inEIDs) +:+ ", [" +:+ fmt_strings inEIDs +:+ "]").

(** The choice of [tt] in the innermost loop body. *)
Definition actionType (inEIDs : list string) (outEID : string) : ActionType :=
  if decide (length inEIDs ≠ 0%nat) then
    if decide (String.length outEID = 0%nat) then Redeem else Transfer
  else Issue.

(** The two nested [for] loops over [outEIDs] and [outTT]: the records that
    one action appends to [txs], in order. *)
Definition action_records (record : AuditRecord) (timestamp : Z)
    (inEIDs : list string) (inEID : string) (ous : list Output)
    : list TransactionRecord :=
  let outEIDs := out_EnrollmentIDs ous ++ [""] in
  let outTT := out_TokenTypes ous in
  outEID ← outEIDs;
  tokenType ← outTT;
  let received := out_Sum (out_ByType tokenType (out_ByEnrollmentID outEID ous)) in
  if decide (received ≤ 0) then []
  else [ {| TxID := Anchor record;
            ActionTy := actionType inEIDs outEID;
            SenderEID := inEID;
            RecipientEID := outEID;
            TokenType := tokenType;
            Amount := received;
            Timestamp := timestamp;
            Status := Pending |} ].

(** The outer [for] loop.  Each iteration that does not stop consumes an
    action that owns at least one input or output, so the loop ends; [fuel]
    bounds the number of iterations and [None] means it ran out. *)
Fixpoint TransactionRecords_loop (fuel : nat) (record : AuditRecord)
    (timestamp : Z) (actionIndex : Z) (txs : list TransactionRecord)
    : option (error + list TransactionRecord) :=
  match fuel with
  | O => None
  | S fuel' =>
      let ins := action_ins record actionIndex in
      let ous := action_ous record actionIndex in
      if decide (length ins = 0%nat ∧ length ous = 0%nat) then Some (inr txs)
      else
        let inEIDs := in_EnrollmentIDs ins in
        if decide (1 < length inEIDs)%nat then Some (inl (errTooManyInputEIDs inEIDs))
        else
          let inEID := match inEIDs with [e] => e | _ => "" end in
          TransactionRecords_loop fuel' record timestamp (actionIndex + 1)
            (txs ++ action_records record timestamp inEIDs inEID ous)
  end.

Definition TransactionRecords (record : AuditRecord) (timestamp : Z)
    : option (error + list TransactionRecord) :=
  TransactionRecords_loop (S (length (Inputs record) + length (Outputs record)))
    record timestamp 0 [].

(** The action that iteration [actionIndex] of the loop works on, and the
    records it appends. *)
Definition action_empty (record : AuditRecord) (actionIndex : Z) : Prop :=
  length (action_ins record actionIndex) = 0%nat ∧
  length (action_ous record actionIndex) = 0%nat.

Definition action_inEIDs (record : AuditRecord) (actionIndex : Z) : list string :=
  in_EnrollmentIDs (action_ins record actionIndex).

Definition records_of_action (record : AuditRecord) (timestamp : Z)
    (actionIndex : Z) : list TransactionRecord :=
  let inEIDs := action_inEIDs record actionIndex in
  action_records record timestamp inEIDs
    (match inEIDs with [e] => e | _ => "" end)
    (action_ous record actionIndex).

(** Action [k] is reached by the loop's scan when no action index from 0
    up to [k - 1] is empty; the loop stops at the first empty one. *)
Definition reached (record : AuditRecord) (k : Z) : Prop :=
  0 ≤ k ∧ Forall (λ j, ¬ action_empty record j) (seqZ 0 k).

#[global] Instance reached_dec record k : Decision (reached record k).
Proof. unfold reached, action_empty. apply _. Defined.

(** The outputs that belong to an action the scan reaches. *)
Definition reached_outputs (record : AuditRecord) : list Output :=
  filter (λ o, reached record (out_ActionIndex o)) (Outputs record).

(** The inputs and outputs that the loop has yet to pass when it is at
    [actionIndex]: the measure that bounds its iterations. *)
Definition remaining (record : AuditRecord) (actionIndex : Z) : nat :=
  Nat.add
    (length (filter (λ t, actionIndex ≤ in_ActionIndex t) (Inputs record)))
    (length (filter (λ t, actionIndex ≤ out_ActionIndex t) (Outputs record))).

(** A scan of [n] actions from [i]: none is empty, none has two input
    enrollment ids. *)
Definition scanned (record : AuditRecord) (i : Z) (n : nat) : Prop :=
  ∀ k, i ≤ k < i + Z.of_nat n →
    ¬ action_empty record k ∧ (length (action_inEIDs record k) ≤ 1)%nat.

Definition sum_Amount (txs : list TransactionRecord) : Z := Zsum Amount txs.

(** The records sent to one recipient in one token type. *)
Definition records_for (eid tokenType : string) (txs : list TransactionRecord)
    : list TransactionRecord :=
  filter (λ tx, RecipientEID tx = eid ∧ TokenType tx = tokenType) txs.

(** *** [big.Int] cells *)

(** [Movements] compares two [*big.Int] with [==], which is pointer
    identity, and subtracts in place; so the cells are modelled: a pointer
    is the index of a cell of the heap, and allocation appends a cell. *)
Abbreviation ptr := nat (only parsing).
Abbreviation heap := (list Z) (only parsing).

Definition value (h : heap) (p : ptr) : Z := default 0 (h !! p).

(** [big.NewInt(v)] *)
Definition NewInt (v : Z) (h : heap) : ptr * heap := (length h, h ++ [v]).

(** [z.Add(x, y)] where [y] holds the value [y]: stores in cell [z], returns [z]. *)
Definition Add (z x : ptr) (y : Z) (h : heap) : ptr * heap :=
  (z, <[z := value h x + y]> h).

(** [z.Sub(x, y)]: stores [x - y] in cell [z] and returns [z]. *)
Definition Sub (z x y : ptr) (h : heap) : ptr * heap :=
  (z, <[z := value h x - value h y]> h).

(** Modelled from the spec: [Sum] of a stream returns a newly allocated
    big integer ([sum := big.NewInt(0)], then [sum = sum.Add(sum, q)] for
    each quantity [q]); section 9 notes that [Movements] then subtracts in
    place and compares pointers. *)
Definition Sum_cells (amounts : list N) (h : heap) : ptr * heap :=
  foldl (λ '(sum, h) q, Add sum sum (Z.of_N q) h) (NewInt 0 h) amounts.

Definition in_Sum_ptr (ins : list Input) : heap → ptr * heap :=
  Sum_cells (in_Quantity <$> ins).

Definition out_Sum_ptr (ous : list Output) : heap → ptr * heap :=
  Sum_cells (out_Quantity <$> ous).

(** *** [Movements] and [joinIOEIDs] (db.go) *)

(** [driver.MovementRecord]; [mv_Amount] is a [*big.Int]. *)
Record MovementRecord := mkMovementRecord {
  mv_TxID : string;
  mv_EnrollmentID : string;
  mv_TokenType : string;
  mv_Amount : ptr;
  mv_Timestamp : Z;
  mv_Status : TxStatus
}.

Definition joinIOEIDs (record : AuditRecord) : list string :=
  let iEIDs := in_EnrollmentIDs (Inputs record) in
  let oEIDs := out_EnrollmentIDs (Outputs record) in
  deduplicate (iEIDs ++ oEIDs).

(** The body of the inner loop of [Movements] for one [(eID, tokenType)]. *)
Definition Movements_body (record : AuditRecord) (created : Z)
    (eID tokenType : string) (st : list MovementRecord * heap)
    : list MovementRecord * heap :=
  let '(mv, h) := st in
  let '(received, h) :=
    out_Sum_ptr (out_ByType tokenType (out_ByEnrollmentID eID (Outputs record))) h in
  let '(sent, h) :=
    in_Sum_ptr (in_ByType tokenType (in_ByEnrollmentID eID (Inputs record))) h in
  let '(diff, h) := Sub received received sent h in
  if decide (sent = received) then (mv, h)
  else (mv ++ [ {| mv_TxID := Anchor record;
                   mv_EnrollmentID := eID;
                   mv_Amount := diff;
                   mv_TokenType := tokenType;
                   mv_Timestamp := created;
                   mv_Status := Pending |} ], h).

(** [Movements] returns the records and leaves the cells they point to in
    the heap; its error result is always [nil]. *)
Definition Movements (record : AuditRecord) (created : Z) (h : heap)
    : list MovementRecord * heap :=
  let eIDs := joinIOEIDs record in
  let tokenTypes := out_TokenTypes (Outputs record) in
  foldl (λ st eID,
           foldl (λ st tokenType, Movements_body record created eID tokenType st)
                 st tokenTypes)
        ([], h) eIDs.

(** What the claim asks of [Movements]: a pair is skipped exactly when the
    amounts received and sent are equal. *)
Definition movement_diff (record : AuditRecord) (eID tokenType : string) : Z :=
  out_Sum (out_ByType tokenType (out_ByEnrollmentID eID (Outputs record)))
  - in_Sum (in_ByType tokenType (in_ByEnrollmentID eID (Inputs record))).

(** The pairs that [Movements] goes through, in order. *)
Definition movement_pairs (record : AuditRecord) : list (string * string) :=
  eID ← joinIOEIDs record;
  tokenType ← out_TokenTypes (Outputs record);
  [(eID, tokenType)].

(** A movement record whose amount cell lies in the heap and holds the
    difference for its pair, with status pending. *)
Definition movement_ok (record : AuditRecord) (h : heap) (r : MovementRecord) : Prop :=
  (mv_Amount r < length h)%nat ∧
  value h (mv_Amount r) = movement_diff record (mv_EnrollmentID r) (mv_TokenType r) ∧
  mv_Status r = Pending.

End Audit.

Import Audit.

(** ** The transaction store front ([ttxdb.DB]) *)

Module TTXDB.

(** [db.StatusEvent] (the context field carries no data). *)
Record StatusEvent := mkStatusEvent {
  ev_TxID : string;
  ev_ValidationCode : TxStatus
}.

(** Modelled from the spec: [db.StatusSupport] and its [Notify] are not
    part of the sources at hand.  Section 4.D: a process-local
    multi-subscriber notifier; [Notify(event)] delivers the event to all
    currently registered listeners, synchronously and in publication order.
    A listener is represented by the queue of events delivered to it. *)
Record StatusSupport := mkStatusSupport {
  listeners : list (list StatusEvent)
}.

Definition deliver (event : StatusEvent) (s : StatusSupport) : StatusSupport :=
  {| listeners := (λ queue, queue ++ [event]) <$> listeners s |}.

(** The [Cache] interface of db.go.  [Get] may touch the cache's
    bookkeeping (the reference bit of a second-chance cache), so it returns
    the cache as well.  The one law the store relies on: an entry just added
    is found. *)
Class Cache (C : Type) := {
  Get : string → C → option bytes * C;
  Add : string → bytes → C → C;
  Delete : string → C → C;
  Get_Add : ∀ key value c, (Get key (Add key value c)).1 = Some value
}.

(** *** The backend ([driver.TokenTransactionDB]) *)

(** Modelled from the spec: the storage backend behind the
    [driver.TokenTransactionDB] interface is not part of the sources at
    hand.  Sections 4.C and 5: writes go through an atomic write handle
    whose statements take effect on [Commit] and are disposed of by
    [Rollback]; there is at most one token request per tx-id and a duplicate
    key is a conflict; every call may fail with a backend error.  Failures
    are scripted: each call that can return an error consumes the head of
    [faults], and fails with it when it is [Some]. *)
Record Backend := mkBackend {
  requests : gmap string bytes;
  transactions : list TransactionRecord;
  validations : list (string * list (string * bytes));
  status_messages : gmap string string;
  faults : list (option error)
}.

Record AtomicWrite := mkAtomicWrite {
  w_requests : list (string * bytes);
  w_transactions : list TransactionRecord;
  w_validations : list (string * list (string * bytes))
}.

Definition fault (b : Backend) : option error * Backend :=
  match faults b with
  | [] => (None, b)
  | f :: rest =>
      (f, mkBackend (requests b) (transactions b) (validations b)
            (status_messages b) rest)
  end.

Definition errConflict (txID : string) : error :=
  Errorf ("conflict: a token request for [" +:+ txID +:+ "] exists").

Definition backend_BeginAtomicWrite (b : Backend) : (error + AtomicWrite) * Backend :=
  match fault b with
  | (Some e, b) => (inl e, b)
  | (None, b) => (inr (mkAtomicWrite [] [] []), b)
  end.

Definition backend_AddTokenRequest (w : AtomicWrite) (txID : string) (raw : bytes)
    (b : Backend) : option error * AtomicWrite * Backend :=
  match fault b with
  | (Some e, b) => (Some e, w, b)
  | (None, b) =>
      if decide (is_Some (requests b !! txID) ∨ txID ∈ (w_requests w).*1)
      then (Some (errConflict txID), w, b)
      else (None, mkAtomicWrite (w_requests w ++ [(txID, raw)])
                    (w_transactions w) (w_validations w), b)
  end.

Definition backend_AddTransaction (w : AtomicWrite) (tx : TransactionRecord)
    (b : Backend) : option error * AtomicWrite * Backend :=
  match fault b with
  | (Some e, b) => (Some e, w, b)
  | (None, b) =>
      (None, mkAtomicWrite (w_requests w) (w_transactions w ++ [tx])
               (w_validations w), b)
  end.

Definition backend_AddValidationRecord (w : AtomicWrite) (txID : string)
    (meta : list (string * bytes)) (b : Backend)
    : option error * AtomicWrite * Backend :=
  match fault b with
  | (Some e, b) => (Some e, w, b)
  | (None, b) =>
      (None, mkAtomicWrite (w_requests w) (w_transactions w)
               (w_validations w ++ [(txID, meta)]), b)
  end.

Definition backend_Commit (w : AtomicWrite) (b : Backend) : option error * Backend :=
  match fault b with
  | (Some e, b) => (Some e, b)
  | (None, b) =>
      (None, mkBackend
               (foldl (λ m kv, <[kv.1 := kv.2]> m) (requests b) (w_requests w))
               (transactions b ++ w_transactions w)
               (validations b ++ w_validations w)
               (status_messages b) (faults b))
  end.

(** [Rollback] reports nothing to the caller and drops the handle. *)
Definition backend_Rollback (w : AtomicWrite) (b : Backend) : Backend := b.

Definition set_Status (status : TxStatus) (tx : TransactionRecord) : TransactionRecord :=
  mkTransactionRecord (TxID tx) (ActionTy tx) (SenderEID tx) (RecipientEID tx)
    (TokenType tx) (Amount tx) (Timestamp tx) status.

Definition backend_SetStatus (txID : string) (status : TxStatus) (message : string)
    (b : Backend) : option error * Backend :=
  match fault b with
  | (Some e, b) => (Some e, b)
  | (None, b) =>
      (None, mkBackend (requests b)
               ((λ tx, if decide (TxID tx = txID) then set_Status status tx else tx)
                  <$> transactions b)
               (validations b)
               (<[txID := message]> (status_messages b)) (faults b))
  end.


(** A tx-id without a row is answered by nil bytes and no error. *)
Definition backend_GetTokenRequest (txID : string) (b : Backend)
    : (error + bytes) * Backend :=
  match fault b with
  | (Some e, b) => (inl e, b)
  | (None, b) => (inr (default [] (requests b !! txID)), b)
  end.

(** Two backends hold the same rows (the fault script aside). *)
Definition same_rows (b b' : Backend) : Prop :=
  requests b = requests b' ∧ transactions b = transactions b' ∧
  validations b = validations b' ∧ status_messages b = status_messages b'.

(** *** Calls on the collaborators *)

(** The calls a [DB] method makes on its cache, its backend and its
    notifier, in the order it makes them. *)
Inductive Call :=
| CacheGet (key : string)
| CacheAdd (key : string) (value : bytes)
| BeginAtomicWrite
| AddTokenRequest (txID : string) (raw : bytes)
| AddTransaction (tx : TransactionRecord)
| AddValidationRecord (txID : string)
| Commit
| Rollback
| BackendSetStatus (txID : string) (status : TxStatus) (message : string)
| BackendGetTokenRequest (txID : string)
| QueryTransactions
| Notify (event : StatusEvent).

#[global] Instance StatusEvent_eq_dec : EqDecision StatusEvent.
Proof. solve_decision. Defined.

(** [token.Request], as far as [AppendTransactionRecord] looks at it: the
    anchor and the results of its methods. *)
Record Request := mkRequest {
  req_Anchor : string;
  req_InputsAndOutputs : error + (list Input * list Output);
  req_Bytes : error + bytes;
  req_Application : list (string * bytes);
  req_PublicParamsHash : bytes
}.

(** The calls of a run of [AppendTransactionRecord] that got the write
    handle: the request goes to the cache and to the handle, then the first
    [m] records, then [last] ([Commit] or [Rollback]). *)
Definition append_calls (anchor : string) (raw : bytes)
    (txs : list TransactionRecord) (m : nat) (last : Call) : list Call :=
  [BeginAtomicWrite; CacheAdd anchor raw; AddTokenRequest anchor raw]
  ++ (AddTransaction <$> take m txs) ++ [last].

(** The calls of the runs of [AppendValidationRecord], by where they end. *)
Definition validation_calls (txID : string) (tokenRequest : bytes) : list (list Call) :=
  [ [BeginAtomicWrite];
    [BeginAtomicWrite; CacheAdd txID tokenRequest;
     AddTokenRequest txID tokenRequest; Rollback];
    [BeginAtomicWrite; CacheAdd txID tokenRequest;
     AddTokenRequest txID tokenRequest; AddValidationRecord txID; Rollback];
    [BeginAtomicWrite; CacheAdd txID tokenRequest;
     AddTokenRequest txID tokenRequest; AddValidationRecord txID; Commit] ].

(** The event that a call of [SetStatus] publishes, if it returns [r]. *)
Definition published (r : option error) (txID : string) (status : TxStatus)
    : list StatusEvent :=
  match r with
  | None => [mkStatusEvent txID status]
  | Some _ => []
  end.

(** The audit record that [AppendTransactionRecord] builds from a request. *)
Definition request_record (req : Request) : option AuditRecord :=
  match req_InputsAndOutputs req with
  | inl _ => None
  | inr (ins, outs) =>
      Some {| Anchor := req_Anchor req; Inputs := ins; Outputs := outs |}
  end.

Section DB.

Context {C : Type} `{Cache C}.

(** [driver.TxStatusMessage], the table of status names, is declared
    outside the sources at hand. *)
Variable TxStatusMessage : TxStatus → string.

(** [DB]: the embedded [StatusSupport], the backend and the cache, with the
    log of calls made so far. *)
Record DB := mkDB {
  support : StatusSupport;
  db : Backend;
  cache : C;
  calls : list Call
}.

(** A method runs on the [DB] and returns a result and the [DB] after it;
    [None] stands for a call that does not return. *)
Definition M (A : Type) : Type := DB → option (A * DB).

Definition ret {A} (a : A) : M A := λ d, Some (a, d).
Definition bind {A B} (m : M A) (k : A → M B) : M B :=
  λ d, match m d with
       | Some (a, d) => k a d
       | None => None
       end.

Notation "x ⇐ m ; k" := (bind m (λ x, k))
  (at level 100, m at next level, k at level 200, right associativity).
Notation "m ;; k" := (bind m (λ _, k))
  (at level 100, k at level 200, right associativity).

(** Runs a backend call: [f] maps the backend to a result and the backend
    after the call. *)
Definition on_backend {A} (c : Call) (f : Backend → A * Backend) : M A :=
  λ d, let '(a, b) := f (db d) in
       Some (a, mkDB (support d) b (cache d) (calls d ++ [c])).

Definition cache_Get (key : string) : M (option bytes) :=
  λ d, let '(r, c) := Get key (cache d) in
       Some (r, mkDB (support d) (db d) c (calls d ++ [CacheGet key])).

Definition cache_Add (key : string) (value : bytes) : M unit :=
  λ d, Some (tt, mkDB (support d) (db d) (Add key value (cache d))
                   (calls d ++ [CacheAdd key value])).

Definition d_Notify (event : StatusEvent) : M unit :=
  λ d, Some (tt, mkDB (deliver event (support d)) (db d) (cache d)
                   (calls d ++ [Notify event])).

(** [DB.SetStatus] *)
Definition SetStatus (txID : string) (status : TxStatus) (message : string)
    : M (option error) :=
  r ⇐ on_backend (BackendSetStatus txID status message)
        (backend_SetStatus txID status message);
  match r with
  | Some err =>
      ret (Some (Wrapf err ("failed setting status [" +:+ txID +:+ "]["
                              +:+ TxStatusMessage status +:+ "]")))
  | None =>
      d_Notify {| ev_TxID := txID; ev_ValidationCode := status |};;
      ret None
  end.

(** [DB.GetTokenRequest] *)
Definition GetTokenRequest (txID : string) : M (error + bytes) :=
  r ⇐ cache_Get txID;
  match r with
  | Some res => ret (inr res)
  | None => on_backend (BackendGetTokenRequest txID) (backend_GetTokenRequest txID)
  end.

(** The [for _, tx := range txs] loop of [AppendTransactionRecord]: the
    first failing [AddTransaction] stops it. *)
Fixpoint add_transactions (w : AtomicWrite) (txs : list TransactionRecord)
    : M (option error * AtomicWrite) :=
  match txs with
  | [] => ret (None, w)
  | tx :: rest =>
      r ⇐ on_backend (AddTransaction tx)
            (λ b, let '(e, w, b) := backend_AddTransaction w tx b in ((e, w), b));
      match r with
      | (Some err, w) => ret (Some err, w)
      | (None, w) => add_transactions w rest
      end
  end.

(** [DB.AppendTransactionRecord]; [now] is [time.Now().UTC()]. *)
Definition AppendTransactionRecord (req : Request) (now : Z) : M (option error) :=
  match req_InputsAndOutputs req with
  | inl err =>
      ret (Some (Wrapf err ("failed getting inputs and outputs for request ["
                              +:+ req_Anchor req +:+ "]")))
  | inr (ins, outs) =>
  let record := {| Anchor := req_Anchor req; Inputs := ins; Outputs := outs |} in
  match req_Bytes req with
  | inl err =>
      ret (Some (Wrapf err ("failed to marshal token request ["
                              +:+ req_Anchor req +:+ "]")))
  | inr raw =>
  match TransactionRecords record now with
  | None => λ _, None
  | Some (inl err) =>
      ret (Some (Wrapf err "failed parsing transactions from audit record"))
  | Some (inr txs) =>
  w ⇐ on_backend BeginAtomicWrite backend_BeginAtomicWrite;
  match w with
  | inl err =>
      ret (Some (Wrapf err ("begin update for txid [" +:+ Anchor record
                              +:+ "] failed")))
  | inr w =>
  cache_Add (Anchor record) raw;;
  r ⇐ on_backend (AddTokenRequest (Anchor record) raw)
        (λ b, let '(e, w, b) := backend_AddTokenRequest w (Anchor record) raw b
              in ((e, w), b));
  match r with
  | (Some err, w) =>
      on_backend Rollback (λ b, (tt, backend_Rollback w b));;
      ret (Some (Wrapf err ("append token request for txid [" +:+ Anchor record
                              +:+ "] failed")))
  | (None, w) =>
  r ⇐ add_transactions w txs;
  match r with
  | (Some err, w) =>
      on_backend Rollback (λ b, (tt, backend_Rollback w b));;
      ret (Some (Wrapf err ("append transactions for txid [" +:+ Anchor record
                              +:+ "] failed")))
  | (None, w) =>
  r ⇐ on_backend Commit (backend_Commit w);
  match r with
  | Some err =>
      ret (Some (Wrapf err ("committing tx for txid [" +:+ Anchor record
                              +:+ "] failed")))
  | None => ret None
  end end end end end end end.

(** [DB.AppendValidationRecord] *)
Definition AppendValidationRecord (txID : string) (tokenRequest : bytes)
    (meta : list (string * bytes)) (ppHash : bytes) : M (option error) :=
  w ⇐ on_backend BeginAtomicWrite backend_BeginAtomicWrite;
  match w with
  | inl err =>
      ret (Some (Wrapf err ("begin update for txid [" +:+ txID +:+ "] failed")))
  | inr w =>
  cache_Add txID tokenRequest;;
  r ⇐ on_backend (AddTokenRequest txID tokenRequest)
        (λ b, let '(e, w, b) := backend_AddTokenRequest w txID tokenRequest b
              in ((e, w), b));
  match r with
  | (Some err, w) =>
      on_backend Rollback (λ b, (tt, backend_Rollback w b));;
      ret (Some (Wrapf err ("append token request for txid [" +:+ txID
                              +:+ "] failed")))
  | (None, w) =>
  r ⇐ on_backend (AddValidationRecord txID)
        (λ b, let '(e, w, b) := backend_AddValidationRecord w txID meta b
              in ((e, w), b));
  match r with
  | (Some err, w) =>
      on_backend Rollback (λ b, (tt, backend_Rollback w b));;
      ret (Some (Wrapf err ("append validation record for txid [" +:+ txID
                              +:+ "] failed")))
  | (None, w) =>
  r ⇐ on_backend Commit (backend_Commit w);
  match r with
  | Some err =>
      ret (Some (Wrapf err ("append validation record commit for txid ["
                              +:+ txID +:+ "] failed")))
  | None => ret None
  end end end end.

End DB.

Arguments DB C : clear implicits.
Arguments mkDB {C} _ _ _ _.

(** A cache to run the store on: the entries in insertion order, at most
    [capacity] of them; adding to a full cache evicts the oldest entry. *)
Record BoundedCache := mkBoundedCache {
  entries : list (string * bytes)
}.

Definition capacity : nat := 1000.

Definition bc_Get (key : string) (c : BoundedCache) : option bytes * BoundedCache :=
  ((λ r, r.2.2) <$> list_find (λ kv, kv.1 = key) (entries c), c).

Definition bc_Delete (key : string) (c : BoundedCache) : BoundedCache :=
  {| entries := filter (λ kv, kv.1 ≠ key) (entries c) |}.

Definition bc_Add (key : string) (value : bytes) (c : BoundedCache) : BoundedCache :=
  let kept := filter (λ kv, kv.1 ≠ key) (entries c) in
  {| entries := (key, value) :: take (capacity - 1) kept |}.

#[global, refine] Instance BoundedCache_Cache : Cache BoundedCache :=
  {| Get := bc_Get; Add := bc_Add; Delete := bc_Delete |}.
Proof.
  intros key value c. unfold bc_Get, bc_Add. simpl.
  rewrite decide_True by done. done.
Defined.

End TTXDB.

(** ** The SQL token store: [TokenDB.GetTokens] *)

Module TokenStore.

(** [token.ID]; [Index] is a [uint64]. *)
Record ID := mkID { TxId : string; Index : N }.

#[global] Instance ID_eq_dec : EqDecision ID.
Proof. solve_decision. Defined.

(** [token.Token]; [Owner] is the raw owner of [token.Owner]. *)
Record Token := mkToken { Owner : bytes; Type_ : string; Quantity : string }.

(** A row of the TOKENS table, with the columns [GetTokens] reads or
    filters on; (tx_id, idx) is the primary key. *)
Record TokenRow := mkTokenRow {
  tx_id : string;
  idx : N;
  owner_raw : bytes;
  token_type : string;
  quantity : string;
  is_deleted : bool;
  owner : bool
}.

Definition row_ID (r : TokenRow) : ID := mkID (tx_id r) (idx r).

Definition primary_key (table : list TokenRow) : Prop := NoDup (row_ID <$> table).

(** The token scanned from a row. *)
Definition row_Token (r : TokenRow) : Token :=
  {| Owner := owner_raw r; Type_ := token_type r; Quantity := quantity r |}.

(** The row filter of the query. *)
Definition owned (inputs : list ID) (r : TokenRow) : Prop :=
  row_ID r ∈ inputs ∧ is_deleted r = false ∧ owner r = true.

#[global] Instance owned_dec inputs r : Decision (owned inputs r).
Proof. unfold owned. apply _. Defined.

(** Modelled from the spec: the condition builder ([HasTokens], [And],
    [ConstCondition], [Where]) is not part of the sources at hand; by
    section 4.A the condition reads
    (tx_id, idx) IN inputs AND is_deleted = false AND owner = true.
    The database is an in-memory table, the statement always succeeds, and
    its rows come in the table's order, which is any order. *)
Definition Query (table : list TokenRow) (inputs : list ID) : list TokenRow :=
  filter (owned inputs) table.

Inductive result :=
| Ok (tokens : list (option Token))
| Err (e : error)
| Panic (msg : string).

Definition fmt_key (id : ID) : string :=
  "[" +:+ TxId id +:+ ":" +:+ pretty (Index id) +:+ "]".

Definition errNotFound (id : ID) : error :=
  Errorf ("token not found for key " +:+ fmt_key id).

Definition errWrongToken (id : ID) : error :=
  Errorf ("retrieved wrong token [{" +:+ TxId id +:+ " " +:+ pretty (Index id) +:+ "}]").

(** The [for rows.Next()] loop: each row goes to the first slot [j] with
    [inputs[j].Equal(tokID)]. *)
Fixpoint scan_rows (inputs : list ID) (rows : list TokenRow)
    (tokens : list (option Token)) (counter : nat)
    : error + (list (option Token) * nat) :=
  match rows with
  | [] => inr (tokens, counter)
  | r :: rest =>
      let tokID := row_ID r in
      let tok := row_Token r in
      match list_find (λ i, i = tokID) inputs with
      | Some (j, _) => scan_rows inputs rest (<[j := Some tok]> tokens) (S counter)
      | None => inl (errWrongToken tokID)
      end
  end.

(** [TokenDB.GetTokens] *)
Definition GetTokens (table : list TokenRow) (inputs : list ID) : result :=
  if decide (length inputs = 0%nat) then Ok []
  else
    let rows := Query table inputs in
    match scan_rows inputs rows (replicate (length inputs) None) 0 with
    | inl err => Err err
    | inr (tokens, counter) =>
        if decide (counter = 0%nat) then
          match inputs !! 0%nat with
          | Some i => Err (errNotFound i)
          | None => Panic "index out of range"
          end
        else if decide (counter ≠ length inputs) then
          match list_find (λ t, t = None) tokens with
          | Some (j, _) =>
              match inputs !! j with
              | Some i => Err (errNotFound i)
              | None => Panic "index out of range"
              end
          | None => Panic "programming error: should not reach this point"
          end
        else Ok tokens
    end.

(** The row that answers an id: the one with that key, owned and not deleted. *)
Definition lookup_owned (table : list TokenRow) (id : ID) : option TokenRow :=
  snd <$> list_find (λ r, row_ID r = id ∧ is_deleted r = false ∧ owner r = true) table.

(** The number of slots that hold a token. *)
Definition filled (tokens : list (option Token)) : nat :=
  length (filter is_Some tokens).

(** What [GetTokens] should hand back for [inputs]: for each id, in order,
    the token of the row that answers it, or nil. *)
Definition answers (table : list TokenRow) (inputs : list ID) : list (option Token) :=
  (λ id, row_Token <$> lookup_owned table id) <$> inputs.

End TokenStore.

(** ** The reconciliation view: the first loop of [CheckTTXDBView.Call] *)

Module Reconcile.

Import TTXDB.

(** [network.ValidationCode] *)
Inductive ValidationCode := Valid | Invalid | Busy | Unknown.

#[global] Instance ValidationCode_eq_dec : EqDecision ValidationCode.
Proof. solve_decision. Defined.

(** [err.Error()] of a wrapped error: the message, a colon, the cause. *)
Fixpoint Error (e : error) : string :=
  match e with
  | Errorf msg => msg
  | Wrapf cause msg => msg +:+ ": " +:+ Error cause
  end.



Section Check.

Context {C : Type} `{Cache C}.

(** The status probes of the vault and of the ledger, the table of status
    names and the number [%d] prints for a validation code: all declared
    outside the sources at hand. *)
Variable vault_Status : string → error + ValidationCode.
Variable ledger_Status : string → error + ValidationCode.
Variable TxStatusMessage : TxStatus → string.
Variable code : ValidationCode → Z.

Definition is_for (tr : TransactionRecord) (what : string) : string :=
  "transaction record [" +:+ TxID tr +:+ "] is " +:+ what.

(** The first [switch]: vault status against the status of the record. *)
Definition cross_check (vc : ValidationCode) (tr : TransactionRecord) : list string :=
  if decide (vc = Unknown) then
    [is_for tr ("unknown for vault but not for the db ["
                +:+ TxStatusMessage (Status tr) +:+ "]")]
  else if decide (vc = Valid ∧ Status tr = Pending) then
    [is_for tr "valid for vault but pending for the db"]
  else if decide (vc = Valid ∧ Status tr = Deleted) then
    [is_for tr "valid for vault but deleted for the db"]
  else if decide (vc = Invalid ∧ Status tr = Confirmed) then
    [is_for tr "invalid for vault but confirmed for the db"]
  else if decide (vc = Invalid ∧ Status tr = Pending) then
    [is_for tr "invalid for vault but pending for the db"]
  else if decide (vc = Busy ∧ Status tr = Confirmed) then
    [is_for tr "busy for vault but confirmed for the db"]
  else if decide (vc = Busy ∧ Status tr = Deleted) then
    [is_for tr "busy for vault but deleted for the db"]
  else [].

Definition ledger_failed (tr : TransactionRecord) (err : option error) : list string :=
  match err with
  | Some e => ["failed to get ledger transaction status for [" +:+ TxID tr
               +:+ "]: [" +:+ Error e +:+ "]"]
  | None => []
  end.

Definition not_for_ledger (tr : TransactionRecord) (what : string)
    (lVC : ValidationCode) : string :=
  is_for tr (what +:+ " for vault but not for the ledger ["
             +:+ pretty (code lVC) +:+ "]").

(** The second [switch]: vault status against ledger status. *)
Definition ledger_check (vc lVC : ValidationCode) (err : option error)
    (tr : TransactionRecord) : list string :=
  if decide (vc = Valid ∧ lVC ≠ Valid) then
    ledger_failed tr err ++ [not_for_ledger tr "valid" lVC]
  else if decide (vc = Invalid ∧ lVC ≠ Invalid) then
    if decide (lVC ≠ Unknown ∨ Status tr ≠ Deleted) then
      ledger_failed tr err ++ [not_for_ledger tr "invalid" lVC]
    else []
  else if decide (vc = Unknown ∧ lVC ≠ Unknown) then
    ledger_failed tr err ++ [not_for_ledger tr "unknown" lVC]
  else if decide (vc = Busy ∧ lVC = Busy) then []
  else if decide (vc = Busy ∧ lVC ≠ Unknown) then
    ledger_failed tr err ++ [not_for_ledger tr "busy" lVC]
  else [].

Notation "x ⇐ m ; k" := (bind m (λ x, k))
  (at level 100, m at next level, k at level 200, right associativity).






End Check.

End Reconcile.

(** ** The SQL token store: the tables behind [TokenDB] *)

Module TokenTable.

Import TokenStore.

(** [bytes.Equal] compares byte by byte. *)
#[global] Instance byte_eq_dec : EqDecision Byte.byte := Strings.Byte.byte_eq_dec.

(** [tokenTables]: the names of the tables. *)
Record tokenTables := mkTokenTables {
  table_Tokens : string;
  table_Ownership : string;
  table_PublicParams : string;
  table_Certifications : string
}.

(** A row of the TOKENS table, with the columns of [GetSchema];
    (tx_id, idx) is the primary key.  [idx] and [amount] hold the [uint64]
    of the record, a BYTEA column holds a slice, where nil is the empty
    slice, and [spent_at] is [None] for NULL. *)
Record Row := mkRow {
  tx_id : string;
  idx : N;
  amount : N;
  token_type : string;
  quantity : string;
  issuer_raw : bytes;
  owner_raw : bytes;
  owner_type : string;
  owner_identity : bytes;
  owner_wallet_id : string;
  ledger : bytes;
  ledger_metadata : bytes;
  stored_at : Z;
  is_deleted : bool;
  spent_by : string;
  spent_at : option Z;
  owner : bool;
  auditor : bool;
  issuer : bool
}.

Definition key (r : Row) : ID := mkID (tx_id r) (idx r).

(** The columns [GetTokens] reads or filters on. *)
Definition narrow (r : Row) : TokenRow :=
  mkTokenRow (tx_id r) (idx r) (owner_raw r) (token_type r) (quantity r)
             (is_deleted r) (owner r).

(** The database behind a [TokenDB]: the TOKENS table, the OWNERSHIP table
    (tx_id, idx, wallet_id) and the PUBLIC PARAMETERS table
    (raw, stored_at), each in the order its rows come back in. *)
Record TokenDB := mkTokenDB {
  table : tokenTables;
  tokens : list Row;
  ownership : list (ID * string);
  public_params : list (bytes * Z)
}.

(** Modelled from the spec: the condition builder ([HasTokens], [And],
    [ConstCondition], [Where]) is not part of the sources at hand.
    [HasTokens("tx_id", "idx", ids...)] reads (tx_id, idx) IN ids, the way
    [TokenStore.Query] reads it, and [And] conjoins it with a condition
    on a column. *)
Abbreviation HasTokens ids r := (key r ∈ ids) (only parsing).

Definition set_tokens (f : list Row → list Row) (db : TokenDB) : TokenDB :=
  mkTokenDB (table db) (f (tokens db)) (ownership db) (public_params db).

Definition set_ownership (f : list (ID * string) → list (ID * string))
    (db : TokenDB) : TokenDB :=
  mkTokenDB (table db) (tokens db) (f (ownership db)) (public_params db).

Definition set_public_params (f : list (bytes * Z) → list (bytes * Z))
    (db : TokenDB) : TokenDB :=
  mkTokenDB (table db) (tokens db) (ownership db) (f (public_params db)).

(** The constraints of [GetSchema]: the primary keys of the three tables and
    the foreign key of OWNERSHIP into TOKENS. *)
Definition constraints (db : TokenDB) : Prop :=
  NoDup (key <$> tokens db) ∧
  NoDup (ownership db) ∧
  (∀ id eid, (id, eid) ∈ ownership db → id ∈ key <$> tokens db) ∧
  NoDup (snd <$> public_params db).

(** The errors of the database engine, which is not part of the sources at
    hand: an INSERT that repeats a primary key and one that misses its
    foreign key are refused.  The statements and queries are run on
    in-memory tables and fail for no other reason; NOT NULL is not
    enforced. *)
Definition errUnique : error := Errorf "UNIQUE constraint failed".
Definition errForeignKey : error := Errorf "FOREIGN KEY constraint failed".

(** INSERT INTO tokens *)
Definition insert_token (r : Row) (db : TokenDB) : error + TokenDB :=
  if decide (key r ∈ key <$> tokens db) then inl errUnique
  else inr (set_tokens (λ rows, rows ++ [r]) db).

(** INSERT INTO ownership *)
Definition insert_ownership (id : ID) (eid : string) (db : TokenDB) : error + TokenDB :=
  if decide ((id, eid) ∈ ownership db) then inl errUnique
  else if decide (id ∈ key <$> tokens db) then
    inr (set_ownership (λ rows, rows ++ [(id, eid)]) db)
  else inl errForeignKey.

(** UPDATE tokens SET is_deleted = true, spent_by = $1, spent_at = $2 *)
Definition deleted (deletedBy : string) (now : Z) (r : Row) : Row :=
  mkRow (tx_id r) (idx r) (amount r) (token_type r) (quantity r) (issuer_raw r)
        (owner_raw r) (owner_type r) (owner_identity r) (owner_wallet_id r)
        (ledger r) (ledger_metadata r) (stored_at r)
        true deletedBy (Some now)
        (owner r) (auditor r) (issuer r).

Definition update_deleted (deletedBy : string) (now : Z) (P : Row → Prop)
    `{∀ r, Decision (P r)} (rows : list Row) : list Row :=
  (λ r, if decide (P r) then deleted deletedBy now r else r) <$> rows.

(** [driver.TokenRecord], with the fields [StoreToken] stores. *)
Record TokenRecord := mkTokenRecord {
  tr_TxID : string;
  tr_Index : N;
  tr_IssuerRaw : bytes;
  tr_OwnerRaw : bytes;
  tr_OwnerType : string;
  tr_OwnerIdentity : bytes;
  tr_OwnerWalletID : string;
  tr_Ledger : bytes;
  tr_LedgerMetadata : bytes;
  tr_Type : string;
  tr_Quantity : string;
  tr_Amount : N;
  tr_Owner : bool;
  tr_Auditor : bool;
  tr_Issuer : bool
}.

Definition tr_ID (tr : TokenRecord) : ID := mkID (tr_TxID tr) (tr_Index tr).

(** The row the INSERT of [StoreToken] writes at time [now]; the columns it
    does not name take their defaults. *)
Definition record_row (tr : TokenRecord) (now : Z) : Row :=
  mkRow (tr_TxID tr) (tr_Index tr) (tr_Amount tr) (tr_Type tr) (tr_Quantity tr)
        (tr_IssuerRaw tr) (tr_OwnerRaw tr) (tr_OwnerType tr) (tr_OwnerIdentity tr)
        (tr_OwnerWalletID tr) (tr_Ledger tr) (tr_LedgerMetadata tr) now
        false "" None
        (tr_Owner tr) (tr_Auditor tr) (tr_Issuer tr).

(** A result, an error or a panic. *)
Inductive outcome (A : Type) :=
| Done (a : A)
| Failed (e : error)
| Panicked (msg : string).

Arguments Done {A} a.
Arguments Failed {A} e.
Arguments Panicked {A} msg.

Section TokenDB.

(** [debug.Stack()], the text of the stack trace, and [token.ID.String]:
    both declared outside the sources at hand. *)
Variable Stack : string.
Variable String_ : ID → string.

(** *** [TokenTransaction]: the statements of one [sql.Tx] work on a copy of
    the tables, which [Commit] publishes and [Rollback] drops. *)

Record TokenTransaction := mkTokenTransaction { tx : TokenDB }.

(** [TokenDB.NewTokenDBTransaction] *)
Definition NewTokenDBTransaction (db : TokenDB) : TokenTransaction :=
  mkTokenTransaction db.

(** [TokenTransaction.Commit] *)
Definition Commit (db : TokenDB) (t : TokenTransaction) : TokenDB := tx t.

(** [TokenTransaction.Rollback] *)
Definition Rollback (db : TokenDB) (t : TokenTransaction) : TokenDB := db.

(** The loop of [TokenTransaction.StoreToken] over the owners. *)
Fixpoint store_ownerships (tr : TokenRecord) (owners : list string)
    (t : TokenTransaction) : option error * TokenTransaction :=
  match owners with
  | [] => (None, t)
  | eid :: rest =>
      match insert_ownership (tr_ID tr) eid (tx t) with
      | inl err =>
          (Some (Wrapf err ("error storing token ownership [" +:+ tr_TxID tr +:+ "]")), t)
      | inr work => store_ownerships tr rest (mkTokenTransaction work)
      end
  end.

(** [TokenTransaction.StoreToken] *)
Definition TokenTransaction_StoreToken (tr : TokenRecord) (owners : list string)
    (now : Z) (t : TokenTransaction) : option error * TokenTransaction :=
  if decide (String.length (tr_OwnerWalletID tr) = 0%nat ∧ length owners = 0%nat
             ∧ tr_Owner tr = true) then
    (Some (Errorf ("no owners specified [" +:+ Stack +:+ "]")), t)
  else
    match insert_token (record_row tr now) (tx t) with
    | inl err =>
        (Some (Wrapf err ("error storing token [" +:+ tr_TxID tr +:+ "] in table ["
                          +:+ table_Tokens (table (tx t)) +:+ "]")), t)
    | inr work => store_ownerships tr owners (mkTokenTransaction work)
    end.


(** [TokenDB.StoreToken] *)
Definition StoreToken (tr : TokenRecord) (owners : list string) (now : Z)
    (db : TokenDB) : option error * TokenDB :=
  let t := NewTokenDBTransaction db in
  match TokenTransaction_StoreToken tr owners now t with
  | (Some err, t) => (Some err, Rollback db t)
  | (None, t) => (None, Commit db t)
  end.

(** [TokenDB.DeleteTokens] *)
Definition DeleteTokens (deletedBy : string) (now : Z) (ids : list ID)
    (db : TokenDB) : option error * TokenDB :=
  if decide (length ids = 0%nat) then (None, db)
  else (None, set_tokens (update_deleted deletedBy now (λ r, HasTokens ids r)) db).

(** [TokenDB.IsMine] *)
Definition IsMine (txID : string) (index : N) (db : TokenDB) : error + bool :=
  match list_find (λ r, tx_id r = txID ∧ idx r = index ∧ is_deleted r = false
                        ∧ owner r = true) (tokens db) with
  | Some (_, r) => inr (bool_decide (tx_id r = txID))
  | None => inr false
  end.

(** [TokenDB.TransactionExists] *)
Definition TransactionExists (id : string) (db : TokenDB) : error + bool :=
  match list_find (λ r, tx_id r = id) (tokens db) with
  | Some _ => inr true
  | None => inr false
  end.

(** [TokenDB.GetTokens], on the columns it reads. *)
Definition GetTokens (db : TokenDB) (inputs : list ID) : result :=
  TokenStore.GetTokens (narrow <$> tokens db) inputs.

(** *** [TokenDB.ListAuditTokens] *)

(** The inner [for] loop: every slot [i] with [ids[i].Equal(id)] takes the
    token, and each one counts. *)
Fixpoint place (ids : list ID) (i : nat) (id : ID) (tok : Token)
    (st : list (option Token) * nat * bool) : list (option Token) * nat * bool :=
  match ids with
  | [] => st
  | x :: rest =>
      place rest (S i) id tok
        (if decide (x = id)
         then let '(tokens, counter, _) := st in (<[i := Some tok]> tokens, S counter, true)
         else st)
  end.

(** The [for rows.Next()] loop. *)
Fixpoint audit_rows (ids : list ID) (rows : list Row)
    (tokens : list (option Token)) (counter : nat)
    : error + (list (option Token) * nat) :=
  match rows with
  | [] => inr (tokens, counter)
  | r :: rest =>
      let id := key r in
      let tok := row_Token (narrow r) in
      let '(tokens, counter, found) := place ids 0 id tok (tokens, counter, false) in
      if found then audit_rows ids rest tokens counter
      else inl (errWrongToken id)
  end.

Definition ListAuditTokens (db : TokenDB) (ids : list ID) : result :=
  if decide (length ids = 0%nat) then Ok []
  else
    let rows := filter (λ r, HasTokens ids r ∧ auditor r = true) (tokens db) in
    match audit_rows ids rows (replicate (length ids) None) 0 with
    | inl err => Err err
    | inr (tokens, counter) =>
        if decide (counter = 0%nat) then
          match ids !! 0%nat with
          | Some i => Err (errNotFound i)
          | None => Panic "index out of range"
          end
        else if decide (counter ≠ length ids) then
          match list_find (λ t, t = None) tokens with
          | Some (j, _) =>
              match ids !! j with
              | Some i => Err (errNotFound i)
              | None => Panic "index out of range"
              end
          | None => Panic "programming error: should not reach this point"
          end
        else Ok tokens
    end.

(** *** [TokenDB.WhoDeletedTokens] *)

(** The [for rows.Next()] loop: a row goes to the first slot with its key,
    and counts whether or not it finds one. *)
Fixpoint who_rows (inputs : list ID) (rows : list Row)
    (spentBy : list string) (isSpent found : list bool) (counter : nat)
    : list string * list bool * list bool * nat :=
  match rows with
  | [] => (spentBy, isSpent, found, counter)
  | r :: rest =>
      match list_find (λ inp, TxId inp = tx_id r ∧ Index inp = idx r) inputs with
      | Some (i, _) =>
          who_rows inputs rest (<[i := spent_by r]> spentBy)
                   (<[i := is_deleted r]> isSpent) (<[i := true]> found) (S counter)
      | None => who_rows inputs rest spentBy isSpent found (S counter)
      end
  end.

Definition WhoDeletedTokens (db : TokenDB) (inputs : list ID)
    : outcome (list string * list bool) :=
  if decide (length inputs = 0%nat) then Done ([], [])
  else
    let rows := filter (λ r, HasTokens inputs r) (tokens db) in
    let n := length inputs in
    let '(spentBy, isSpent, found, counter) :=
      who_rows inputs rows (replicate n "") (replicate n false) (replicate n false) 0 in
    if decide (counter = 0%nat) then
      match inputs !! 0%nat with
      | Some i => Failed (errNotFound i)
      | None => Panicked "index out of range"
      end
    else if decide (counter ≠ length inputs) then
      match list_find (λ f, f = false) found with
      | Some (j, _) =>
          match inputs !! j with
          | Some i => Failed (errNotFound i)
          | None => Panicked "index out of range"
          end
      | None => Panicked "programming error: should not reach this point"
      end
    else Done (spentBy, isSpent).

(** *** [TokenDB.getLedgerToken] and [TokenDB.GetTokenOutputs] *)

(** The first loop: the map from [id.String()] to the ledger bytes. *)
Definition token_map (rows : list Row) : gmap string bytes :=
  foldl (λ tokenMap r, <[String_ (key r) := ledger r]> tokenMap) ∅ rows.

(** The second loop; [ledger] is NOT NULL, so a token of the map is never nil. *)
Fixpoint collect_tokens (tokenMap : gmap string bytes) (ids : list ID)
    : error + list bytes :=
  match ids with
  | [] => inr []
  | id :: rest =>
      match tokenMap !! String_ id with
      | None => inl (Errorf ("token not found for key [" +:+ String_ id +:+ "]"))
      | Some tok =>
          if decide (length tok = 0%nat) then
            inl (Errorf ("empty token found for key [" +:+ String_ id +:+ "]"))
          else
            match collect_tokens tokenMap rest with
            | inl err => inl err
            | inr tokens => inr (tok :: tokens)
            end
      end
  end.

Definition getLedgerToken (db : TokenDB) (ids : list ID) : error + list bytes :=
  if decide (length ids = 0%nat) then inr []
  else collect_tokens (token_map (filter (λ r, HasTokens ids r) (tokens db))) ids.

(** The loop of [GetTokenOutputs]: the callback works on a state [S] and may
    fail, which ends the loop. *)
Fixpoint each_output {S : Type} (callback : ID → bytes → S → option error * S)
    (outputs : list (ID * bytes)) (s : S) : option error * S :=
  match outputs with
  | [] => (None, s)
  | (id, tok) :: rest =>
      match callback id tok s with
      | (Some err, s) => (Some err, s)
      | (None, s) => each_output callback rest s
      end
  end.

Definition GetTokenOutputs {S : Type} (db : TokenDB) (ids : list ID)
    (callback : ID → bytes → S → option error * S) (s : S) : option error * S :=
  match getLedgerToken db ids with
  | inl err => (Some err, s)
  | inr tokens => each_output callback (zip ids tokens) s
  end.

(** *** [TokenDB.StorePublicParams] and [TokenDB.PublicParams] *)

Definition StorePublicParams (raw : bytes) (now : Z) (db : TokenDB)
    : option error * TokenDB :=
  if decide (now ∈ snd <$> public_params db) then (Some errUnique, db)
  else (None, set_public_params (λ rows, rows ++ [(raw, now)]) db).

(** ORDER BY stored_at DESC LIMIT 1 *)
Definition latest (rows : list (bytes * Z)) : option (bytes * Z) :=
  foldl (λ best row,
           match best with
           | Some b => if decide (snd b < snd row) then Some row else Some b
           | None => Some row
           end) None rows.

(** [PublicParams]; [None] is the nil slice. *)
Definition PublicParams (db : TokenDB) : error + option bytes :=
  inr (fst <$> latest (public_params db)).

End TokenDB.

(** *** The views on the vault ([CheckIfExistsInVaultView.Call] and the last
    part of [CheckTTXDBView.Call]) *)

Section Views.

Variable String_ : ID → string.

(** [hash.Hashable(tokenRaw)] printed with [%s]: declared outside the
    sources at hand. *)
Variable Hashable : bytes → string.

(** The callback of [CheckIfExistsInVaultView.Call], on [IDs] and [count]. *)
Definition exists_callback (id : ID) (tokenRaw : bytes) (s : list ID * nat)
    : option error * (list ID * nat) :=
  if decide (length tokenRaw = 0%nat) then
    (Some (Errorf ("token id [" +:+ String_ id +:+ "] is nil")), s)
  else (None, (fst s ++ [id], S (snd s))).

(** [CheckIfExistsInVaultView.Call] with the SQL token store as the query
    engine: [inl] is the message of a failed assertion. *)
Definition CheckIfExistsInVault (db : TokenDB) (IDs : list ID) : string + list ID :=
  match GetTokenOutputs String_ db IDs exists_callback ([], 0%nat) with
  | (Some _, _) => inl "failed to match tokens"
  | (None, (found, count)) =>
      if decide (length IDs = count) then inr found
      else inl ("got a mismatch; count is [" +:+ pretty count +:+ "] while there are ["
                +:+ pretty (length IDs) +:+ "] ids")
  end.

(** The loop inside the callback of [CheckTTXDBView.Call]. *)
Fixpoint on_ledger (ledgerTokenContent : list bytes) (tokenRaw : bytes) : bool :=
  match ledgerTokenContent with
  | [] => false
  | content :: rest =>
      if decide (content = tokenRaw) then true else on_ledger rest tokenRaw
  end.

Definition mismatch (id : ID) (index : nat) (tokenRaw : bytes) : string :=
  "token content does not match at [" +:+ String_ id +:+ "][" +:+ pretty index
  +:+ "], [" +:+ Hashable tokenRaw +:+ "]".

(** The callback of [CheckTTXDBView.Call], on [errorMessages] and [index]. *)
Definition match_callback (ledgerTokenContent : list bytes) (id : ID)
    (tokenRaw : bytes) (s : list string * nat) : option error * (list string * nat) :=
  if on_ledger ledgerTokenContent tokenRaw then (None, s)
  else (None, (fst s ++ [mismatch id (snd s) tokenRaw], S (snd s))).

End Views.

(** *** What the lookups should hand back *)

(** The row with key [id]. *)
Definition find_row (db : TokenDB) (id : ID) : option Row :=
  snd <$> list_find (λ r, key r = id) (tokens db).



End TokenTable.

(** ** Sample data *)

(** A transfer: alice pays 70 to bob and keeps 30. *)
Definition transfer_record : AuditRecord :=
  {| Anchor := "T1";
     Inputs := [mkInput 0 "alice" "USD" 100];
     Outputs := [mkOutput 0 "bob" "USD" 70; mkOutput 0 "alice" "USD" 30] |}.

(** A record whose only action has index 1: bob receives 5 from alice and
    carol. *)
Definition gap_record : AuditRecord :=
  {| Anchor := "T2";
     Inputs := [mkInput 1 "alice" "USD" 3; mkInput 1 "carol" "USD" 2];
     Outputs := [mkOutput 1 "bob" "USD" 5] |}.

(** An action with two senders. *)
Definition two_senders_record : AuditRecord :=
  {| Anchor := "T3";
     Inputs := [mkInput 0 "alice" "USD" 3; mkInput 0 "carol" "USD" 2];
     Outputs := [mkOutput 0 "bob" "USD" 5] |}.

(** A redeem whose burnt output is listed, with the empty enrollment id. *)
Definition redeem_record : AuditRecord :=
  {| Anchor := "T5";
     Inputs := [mkInput 0 "alice" "USD" 50];
     Outputs := [mkOutput 0 "" "USD" 50] |}.

(** A redeem without outputs. *)
Definition bare_redeem_record : AuditRecord :=
  {| Anchor := "T6";
     Inputs := [mkInput 0 "alice" "USD" 50];
     Outputs := [] |}.

(** alice sends 10 to herself. *)
Definition self_record : AuditRecord :=
  {| Anchor := "T4";
     Inputs := [mkInput 0 "alice" "USD" 10];
     Outputs := [mkOutput 0 "alice" "USD" 10] |}.

(** A store with two listeners, no rows, an empty cache and the given
    fault script. *)
Definition sample_db (faults : list (option error)) : TTXDB.DB TTXDB.BoundedCache :=
  TTXDB.mkDB (TTXDB.mkStatusSupport [[]; []])
    (TTXDB.mkBackend ∅ [] [] ∅ faults) (TTXDB.mkBoundedCache []) [].

Definition sample_names (s : TxStatus) : string :=
  match s with
  | Unknown => "Unknown"
  | Pending => "Pending"
  | Confirmed => "Confirmed"
  | Deleted => "Deleted"
  end.

Definition disk_full : error := Errorf "disk full".

(** A token table: three live owned tokens, a spent one and a foreign one,
    stored in an order that is not the order of any query below. *)
Definition sample_table : list TokenStore.TokenRow :=
  [ TokenStore.mkTokenRow "T1" 1 [Byte.x0b] "USD" "0x02" false true;
    TokenStore.mkTokenRow "T2" 0 [Byte.x0c] "EUR" "0x03" false true;
    TokenStore.mkTokenRow "T1" 0 [Byte.x0a] "USD" "0x01" false true;
    TokenStore.mkTokenRow "T3" 0 [Byte.x0d] "USD" "0x04" true true;
    TokenStore.mkTokenRow "T3" 1 [Byte.x0e] "USD" "0x05" false false ].

(** The record of T1, pending in the store. *)
Definition pending_T1 : TransactionRecord :=
  mkTransactionRecord "T1" Transfer "alice" "bob" "USD" 70 7 Pending.



Definition sample_code (vc : Reconcile.ValidationCode) : Z :=
  match vc with
  | Reconcile.Valid => 1
  | Reconcile.Invalid => 2
  | Reconcile.Busy => 3
  | Reconcile.Unknown => 4
  end.

(** A store whose backend holds the request of T1 and whose cache is empty. *)
Definition stored_db : TTXDB.DB TTXDB.BoundedCache :=
  TTXDB.mkDB (TTXDB.mkStatusSupport [[]; []])
    (TTXDB.mkBackend {["T1" := [Byte.x01; Byte.x02]]} [] [] ∅ [])
    (TTXDB.mkBoundedCache []) [].

(** The request of [two_senders_record]. *)
Definition two_senders_request : TTXDB.Request :=
  TTXDB.mkRequest "T3"
    (inr (Inputs two_senders_record, Outputs two_senders_record))
    (inr [Byte.x03]) [] [].

(** The request of the transfer [transfer_record], serialised as two bytes. *)
Definition sample_request : TTXDB.Request :=
  TTXDB.mkRequest "T1"
    (inr (Inputs transfer_record, Outputs transfer_record))
    (inr [Byte.x01; Byte.x02]) [] [].

(** A row of the TOKENS table, with the columns the samples vary: a token
    in USD of the wallet alice, stored at time 5. *)
Definition stored_row (tx_id : string) (idx : N) (owner_raw : bytes)
    (quantity : string) (ledger : bytes) (is_deleted : bool) (spent_by : string)
    (owner auditor : bool) : TokenTable.Row :=
  TokenTable.mkRow tx_id idx 1 "USD" quantity [] owner_raw "" owner_raw "alice"
    ledger [] 5 is_deleted spent_by (if is_deleted then Some 7 else None)
    owner auditor false.

(** A token database: the tokens of [sample_table], all but the first
    marked for the auditor, T3:0 spent by T9, and T3:1 with empty ledger
    bytes; parameters stored at the times 10 and 20. *)
Definition sample_tokens : TokenTable.TokenDB :=
  TokenTable.mkTokenDB
    (TokenTable.mkTokenTables "tokens" "ownership" "public_params" "certifications")
    [ stored_row "T1" 1 [Byte.x0b] "0x02" [Byte.x1b] false "" true false;
      stored_row "T2" 0 [Byte.x0c] "0x03" [Byte.x1c] false "" true true;
      stored_row "T1" 0 [Byte.x0a] "0x01" [Byte.x1a] false "" true true;
      stored_row "T3" 0 [Byte.x0d] "0x04" [Byte.x1d] true "T9" true true;
      stored_row "T3" 1 [Byte.x0e] "0x05" [] false "" false true ]
    [ (TokenStore.mkID "T1" 0, "alice"); (TokenStore.mkID "T1" 1, "alice");
      (TokenStore.mkID "T2" 0, "alice") ]
    [ ([Byte.x01], 10); ([Byte.x02], 20) ].

(** The record of a new token T4:0, owned by the wallet carol. *)
Definition new_record : TokenTable.TokenRecord :=
  TokenTable.mkTokenRecord "T4" 0 [] [Byte.x0f] "" [Byte.x0f] "carol" [Byte.x2a] []
    "USD" "0x06" 6 true false false.


(** * Facts *)

(** ** Sums *)

Section Zsum.

Context {A : Type}.

Lemma Zsum_app (f : A → Z) l1 l2 : Zsum f (l1 ++ l2) = Zsum f l1 + Zsum f l2.
Proof. induction l1 as [|x l1 IH]; simpl; [done|]. rewrite IH. lia. Qed.

Lemma Zsum_ext (f g : A → Z) l : (∀ x, x ∈ l → f x = g x) → Zsum f l = Zsum g l.
Proof.
  induction l as [|x l IH]; intros Hfg; simpl; [done|].
  rewrite Hfg by left. rewrite IH; [done|]. intros y Hy. apply Hfg. by right.
Qed.

Lemma Zsum_zero (f : A → Z) l : (∀ x, x ∈ l → f x = 0) → Zsum f l = 0.
Proof.
  induction l as [|x l IH]; intros Hf; simpl; [done|].
  rewrite Hf by left. rewrite IH; [done|]. intros y Hy. apply Hf. by right.
Qed.

Lemma Zsum_nonneg (f : A → Z) l : (∀ x, 0 ≤ f x) → 0 ≤ Zsum f l.
Proof. intros Hf. induction l as [|x l IH]; simpl; [done|]. specialize (Hf x). lia. Qed.

Lemma foldl_Zsum (f : A → Z) a l : foldl (λ sum x, sum + f x) a l = a + Zsum f l.
Proof.
  revert a. induction l as [|x l IH]; intros a; simpl; [lia|]. rewrite IH. lia.
Qed.

(** Exactly one element of a duplicate-free list is equal to [a]. *)
Lemma Zsum_indicator `{EqDecision A} (v : A → Z) a l :
  NoDup l →
  Zsum (λ x, if decide (x = a) then v x else 0) l = if decide (a ∈ l) then v a else 0.
Proof.
  induction 1 as [|x l Hx Hnd IH]; simpl.
  - done.
  - rewrite IH. rewrite (decide_ext (a ∈ x :: l) (x = a ∨ a ∈ l)).
    2:{ rewrite elem_of_cons. split; (intros [?|?]; [left|right]); done. }
    repeat case_decide; subst; try lia; try tauto.
Qed.

End Zsum.

Lemma Zsum_bind {A B} (g : B → Z) (f : A → list B) (l : list A) :
  Zsum g (l ≫= f) = Zsum (λ x, Zsum g (f x)) l.
Proof.
  induction l as [|x l IH]; [done|].
  rewrite bind_cons, Zsum_app, IH. done.
Qed.

Lemma filter_bind {A B} (P : B → Prop) `{∀ y, Decision (P y)} (f : A → list B) (l : list A) :
  filter P (l ≫= f) = l ≫= (λ x, filter P (f x)).
Proof.
  induction l as [|x l IH]; [done|].
  rewrite !bind_cons, filter_app, IH. done.
Qed.

(** Splitting a list by a key: the parts add up to the whole. *)
Lemma Zsum_by_key {A K} `{EqDecision K} (g : A → Z) (key : A → K) (ks : list K) (l : list A) :
  NoDup ks → (∀ x, x ∈ l → key x ∈ ks) →
  Zsum (λ k, Zsum g (filter (λ x, key x = k) l)) ks = Zsum g l.
Proof.
  intros Hnd. induction l as [|x l IH]; intros Hin.
  - apply Zsum_zero. done.
  - simpl. rewrite <- IH by (intros y Hy; apply Hin; by right).
    transitivity (Zsum (λ k, (if decide (k = key x) then g x else 0)
                             + Zsum g (filter (λ y, key y = k) l)) ks).
    + apply Zsum_ext. intros k _. rewrite filter_cons.
      destruct (decide (key x = k)) as [<-|Hne].
      * by rewrite decide_True.
      * rewrite decide_False by done. lia.
    + assert (∀ (u v : K → Z), Zsum (λ k, u k + v k) ks = Zsum u ks + Zsum v ks) as Hsplit.
      { intros u v. clear. induction ks as [|k ks IHks]; simpl; [done|]. rewrite IHks. lia. }
      rewrite Hsplit. f_equal.
      rewrite (Zsum_indicator (λ _, g x) (key x) ks Hnd).
      rewrite decide_True; [done|]. apply Hin. by left.
Qed.

(** ** Audit decomposition *)

Section AuditFacts.

(** *** [deduplicate] *)

Lemma deduplicate_loop_spec source support res :
  (∀ x, is_Some (support !! x) ↔ x ∈ res) → NoDup res →
  NoDup (deduplicate_loop source support res) ∧
  ∀ x, x ∈ deduplicate_loop source support res ↔ x ∈ res ∨ x ∈ source.
Proof.
  revert support res.
  induction source as [|item rest IH]; intros support res Hs Hnd; simpl.
  - split; [done|]. intros x. rewrite elem_of_nil. tauto.
  - destruct (support !! item) as [b|] eqn:E.
    + destruct (IH support res Hs Hnd) as [Hnd' Hx]. split; [done|].
      intros x. rewrite Hx, elem_of_cons.
      assert (item ∈ res) by (apply Hs; eauto). naive_solver.
    + assert (item ∉ res) as Hni.
      { intros Hin. apply Hs in Hin. rewrite E in Hin. by destruct Hin. }
      destruct (IH (<[item := true]> support) (res ++ [item])) as [Hnd' Hx].
      * intros x. rewrite lookup_insert_is_Some, elem_of_app, list_elem_of_singleton, <- Hs.
        destruct (decide (item = x)); naive_solver.
      * apply NoDup_app. split_and!; [done| |apply NoDup_singleton].
        intros x Hx ->%list_elem_of_singleton. done.
      * split; [done|]. intros x.
        rewrite Hx, elem_of_app, list_elem_of_singleton, elem_of_cons. tauto.
Qed.

Lemma NoDup_deduplicate source : NoDup (deduplicate source).
Proof.
  apply (deduplicate_loop_spec source ∅ []); [|apply NoDup_nil_2].
  intros x. rewrite lookup_empty, elem_of_nil. split; [by intros []|done].
Qed.

Lemma elem_of_deduplicate source x : x ∈ deduplicate source ↔ x ∈ source.
Proof.
  destruct (deduplicate_loop_spec source ∅ []) as [_ Hx]; [|apply NoDup_nil_2|].
  - intros y. rewrite lookup_empty, elem_of_nil. split; [by intros []|done].
  - unfold deduplicate. rewrite Hx, elem_of_nil. tauto.
Qed.

(** *** Sums of streams *)

Lemma filter_none {A} (P : A → Prop) `{∀ x, Decision (P x)} (l : list A) :
  (∀ x, x ∈ l → ¬ P x) → filter P l = [].
Proof.
  induction l as [|x l IH]; intros Hl; [done|].
  rewrite filter_cons_False by (apply Hl; left).
  apply IH. intros y Hy. apply Hl. by right.
Qed.

Lemma out_Sum_Zsum ous : out_Sum ous = Zsum (λ o, Z.of_N (out_Quantity o)) ous.
Proof. unfold out_Sum. rewrite foldl_Zsum. lia. Qed.

Lemma in_Sum_Zsum ins : in_Sum ins = Zsum (λ i, Z.of_N (in_Quantity i)) ins.
Proof. unfold in_Sum. rewrite foldl_Zsum. lia. Qed.

Lemma out_Sum_nonneg ous : 0 ≤ out_Sum ous.
Proof. rewrite out_Sum_Zsum. apply Zsum_nonneg. intros o. lia. Qed.

Lemma NoDup_outEIDs ous : NoDup (out_EnrollmentIDs ous ++ [""]).
Proof.
  apply NoDup_app. split_and!.
  - apply NoDup_deduplicate.
  - intros x Hx ->%list_elem_of_singleton. unfold out_EnrollmentIDs in Hx.
    apply elem_of_deduplicate, list_elem_of_filter in Hx. by destruct Hx.
  - apply NoDup_singleton.
Qed.

Lemma elem_of_outEIDs ous o : o ∈ ous → out_EnrollmentID o ∈ out_EnrollmentIDs ous ++ [""].
Proof.
  intros Ho. apply elem_of_app. destruct (decide (out_EnrollmentID o = "")) as [->|Hne].
  - right. by apply list_elem_of_singleton.
  - left. unfold out_EnrollmentIDs. apply elem_of_deduplicate, list_elem_of_filter.
    split; [done|]. by apply list_elem_of_fmap_2.
Qed.

Lemma elem_of_outTT ous o : o ∈ ous → out_Type o ∈ out_TokenTypes ous.
Proof.
  intros Ho. unfold out_TokenTypes. apply elem_of_deduplicate. by apply list_elem_of_fmap_2.
Qed.

(** The amount received by a pair that the loops do not visit is zero. *)
Lemma received_unvisited ous eid tt :
  eid ∉ out_EnrollmentIDs ous ++ [""] ∨ tt ∉ out_TokenTypes ous →
  out_Sum (out_ByType tt (out_ByEnrollmentID eid ous)) = 0.
Proof.
  intros Hnot. unfold out_ByType, out_ByEnrollmentID.
  rewrite list_filter_filter, filter_none; [done|].
  intros o Ho [Ht He]. destruct Hnot as [Hn|Hn]; apply Hn; subst.
  - by apply elem_of_outEIDs.
  - by apply elem_of_outTT.
Qed.

(** *** One action *)

(** The record that the inner loop body emits for [(outEID, tokenType)]. *)
Lemma elem_of_action_records record ts inEIDs inEID ous tx :
  tx ∈ action_records record ts inEIDs inEID ous ↔
  ∃ outEID tokenType,
    outEID ∈ out_EnrollmentIDs ous ++ [""] ∧ tokenType ∈ out_TokenTypes ous ∧
    0 < out_Sum (out_ByType tokenType (out_ByEnrollmentID outEID ous)) ∧
    tx = {| TxID := Anchor record;
            ActionTy := actionType inEIDs outEID;
            SenderEID := inEID;
            RecipientEID := outEID;
            TokenType := tokenType;
            Amount := out_Sum (out_ByType tokenType (out_ByEnrollmentID outEID ous));
            Timestamp := ts;
            Status := Pending |}.
Proof.
  unfold action_records. rewrite list_elem_of_bind. split.
  - intros (outEID & Htx & HoutEID). apply list_elem_of_bind in Htx.
    destruct Htx as (tokenType & Htx & HtokenType).
    exists outEID, tokenType. case_decide as Hle.
    + by apply elem_of_nil in Htx.
    + apply list_elem_of_singleton in Htx. split_and!; [done|done|lia|done].
  - intros (outEID & tokenType & HoutEID & HtokenType & Hpos & ->).
    exists outEID. split; [|done]. apply list_elem_of_bind.
    exists tokenType. split; [|done].
    rewrite decide_False by lia. by apply list_elem_of_singleton.
Qed.

(** Within an action, the amounts emitted for a recipient and a type add up
    to what that recipient receives in that type. *)
Lemma action_records_sum_pair record ts inEIDs inEID ous eid tt :
  sum_Amount (records_for eid tt (action_records record ts inEIDs inEID ous))
  = out_Sum (out_ByType tt (out_ByEnrollmentID eid ous)).
Proof.
  unfold sum_Amount, records_for, action_records.
  rewrite filter_bind, Zsum_bind.
  set (R := λ e t, out_Sum (out_ByType t (out_ByEnrollmentID e ous))).
  transitivity (Zsum (λ e, if decide (e = eid) then R e tt else 0)
                  (out_EnrollmentIDs ous ++ [""])).
  - apply Zsum_ext. intros e _. rewrite filter_bind, Zsum_bind.
    transitivity (Zsum (λ t, if decide (t = tt)
                             then (if decide (e = eid) then R e t else 0) else 0)
                    (out_TokenTypes ous)).
    + apply Zsum_ext. intros t _. fold (R e t).
      pose proof (out_Sum_nonneg (out_ByType t (out_ByEnrollmentID e ous))) as Hnn.
      fold (R e t) in Hnn.
      destruct (decide (R e t ≤ 0)) as [Hle|Hgt].
      * rewrite filter_nil. simpl. repeat case_decide; lia.
      * rewrite filter_cons, filter_nil. simpl.
        repeat case_decide; simpl; try lia; naive_solver.
    + rewrite (Zsum_indicator (λ t, if decide (e = eid) then R e t else 0) tt
                 (out_TokenTypes ous) (NoDup_deduplicate _)).
      repeat case_decide; try done. subst e.
      unfold R. symmetry. apply received_unvisited. by right.
  - rewrite (Zsum_indicator (λ e, R e tt) eid _ (NoDup_outEIDs ous)).
    case_decide as Hin; [done|]. symmetry. apply received_unvisited. by left.
Qed.

(** Within an action, the emitted amounts add up to the total output value. *)
Lemma action_records_sum record ts inEIDs inEID ous :
  sum_Amount (action_records record ts inEIDs inEID ous) = out_Sum ous.
Proof.
  unfold sum_Amount, action_records. rewrite Zsum_bind.
  set (g := λ o, Z.of_N (out_Quantity o)).
  transitivity (Zsum (λ e, Zsum g (filter (λ o, out_EnrollmentID o = e) ous))
                  (out_EnrollmentIDs ous ++ [""])).
  - apply Zsum_ext. intros e _. rewrite Zsum_bind.
    rewrite <- (Zsum_by_key g out_Type (out_TokenTypes ous)
                  (filter (λ o, out_EnrollmentID o = e) ous) (NoDup_deduplicate _)).
    + apply Zsum_ext. intros t _.
      pose proof (out_Sum_nonneg (out_ByType t (out_ByEnrollmentID e ous))) as Hnn.
      case_decide as Hle; simpl.
      * rewrite out_Sum_Zsum in Hle, Hnn. unfold out_ByType, out_ByEnrollmentID in *.
        fold g in Hle, Hnn. lia.
      * rewrite out_Sum_Zsum. unfold out_ByType, out_ByEnrollmentID. fold g. lia.
    + intros o [_ Ho]%list_elem_of_filter. by apply elem_of_outTT.
  - rewrite (Zsum_by_key g out_EnrollmentID _ ous (NoDup_outEIDs ous)).
    + by rewrite out_Sum_Zsum.
    + intros o Ho. by apply elem_of_outEIDs.
Qed.

(** *** The loop over the actions *)

Lemma length_filter_split {A} (f : A → Z) (i : Z) (l : list A) :
  length (filter (λ x, i ≤ f x) l)
  = Nat.add (length (filter (λ x, f x = i) l)) (length (filter (λ x, i + 1 ≤ f x) l)).
Proof.
  induction l as [|x l IH]; [done|].
  rewrite !filter_cons. repeat case_decide; simpl; lia.
Qed.

Lemma remaining_step record i :
  ¬ action_empty record i → (remaining record (i + 1) < remaining record i)%nat.
Proof.
  unfold action_empty, action_ins, action_ous, remaining. intros Hne.
  rewrite (length_filter_split in_ActionIndex i), (length_filter_split out_ActionIndex i).
  lia.
Qed.

Lemma remaining_bound record i :
  (remaining record i ≤ length (Inputs record) + length (Outputs record))%nat.
Proof.
  unfold remaining.
  pose proof (length_filter (λ t, i ≤ in_ActionIndex t) (Inputs record)).
  pose proof (length_filter (λ t, i ≤ out_ActionIndex t) (Outputs record)). lia.
Qed.

(** With fuel above the measure the loop returns. *)
Lemma TransactionRecords_loop_total fuel record ts i txs :
  (remaining record i < fuel)%nat →
  is_Some (TransactionRecords_loop fuel record ts i txs).
Proof.
  revert i txs. induction fuel as [|fuel IH]; intros i txs Hfuel; [lia|].
  simpl. case_decide as Hempty; [by eexists|].
  case_decide as Hmany; [by eexists|].
  apply IH. pose proof (remaining_step record i Hempty). lia.
Qed.

Lemma TransactionRecords_total record ts : is_Some (TransactionRecords record ts).
Proof.
  apply TransactionRecords_loop_total. pose proof (remaining_bound record 0). lia.
Qed.

Lemma TransactionRecords_loop_inr fuel record ts i txs out :
  TransactionRecords_loop fuel record ts i txs = Some (inr out) →
  ∃ n : nat,
    out = txs ++ (seqZ i (Z.of_nat n) ≫= records_of_action record ts) ∧
    scanned record i n ∧ action_empty record (i + Z.of_nat n).
Proof.
  revert i txs. induction fuel as [|fuel IH]; intros i txs Hloop; [done|].
  simpl in Hloop. case_decide as Hempty.
  - exists 0%nat. simplify_eq. split_and!.
    + by rewrite seqZ_nil, app_nil_r.
    + intros k Hk. lia.
    + by rewrite Z.add_0_r.
  - case_decide as Hmany; [done|].
    apply IH in Hloop as (n & -> & Hscan & Hend). exists (S n). split_and!.
    + rewrite (seqZ_cons i) by lia. rewrite bind_cons, app_assoc.
      replace (Z.pred (Z.of_nat (S n))) with (Z.of_nat n) by lia. done.
    + intros k Hk. destruct (decide (k = i)) as [->|Hne].
      * split; [done|]. unfold action_inEIDs. lia.
      * apply Hscan. lia.
    + replace (i + Z.of_nat (S n)) with (i + 1 + Z.of_nat n) by lia. done.
Qed.

Lemma TransactionRecords_loop_inl fuel record ts i txs e :
  TransactionRecords_loop fuel record ts i txs = Some (inl e) →
  ∃ n : nat,
    scanned record i n ∧ ¬ action_empty record (i + Z.of_nat n) ∧
    (1 < length (action_inEIDs record (i + Z.of_nat n)))%nat ∧
    e = errTooManyInputEIDs (action_inEIDs record (i + Z.of_nat n)).
Proof.
  revert i txs. induction fuel as [|fuel IH]; intros i txs Hloop; [done|].
  simpl in Hloop. case_decide as Hempty; [done|].
  case_decide as Hmany.
  - exists 0%nat. simplify_eq. rewrite Z.add_0_r. split_and!; try done.
    intros k Hk. lia.
  - apply IH in Hloop as (n & Hscan & Hne & Hlen & ->). exists (S n).
    replace (i + Z.of_nat (S n)) with (i + 1 + Z.of_nat n) by lia. split_and!; try done.
    intros k Hk. destruct (decide (k = i)) as [->|Hki].
    + split; [done|]. unfold action_inEIDs. lia.
    + apply Hscan. lia.
Qed.

(** The actions reached by a scan from 0 are those up to its end. *)
Lemma reached_iff record n k :
  scanned record 0 n → action_empty record (Z.of_nat n) →
  reached record k ↔ 0 ≤ k ≤ Z.of_nat n.
Proof.
  intros Hscan Hend. unfold reached. rewrite Forall_seqZ. split.
  - intros [Hk Hall]. split; [done|].
    destruct (decide (k ≤ Z.of_nat n)) as [|Hgt]; [done|].
    exfalso. apply (Hall (Z.of_nat n)); [lia|done].
  - intros Hk. split; [lia|]. intros j Hj. apply Hscan. lia.
Qed.

Lemma action_empty_inEIDs record k :
  action_empty record k → action_inEIDs record k = [].
Proof.
  intros [Hins _]. unfold action_inEIDs.
  apply nil_length_inv in Hins. by rewrite Hins.
Qed.

Lemma action_ous_elem record o :
  o ∈ Outputs record → ¬ action_empty record (out_ActionIndex o).
Proof.
  intros Ho [_ Hous]. apply nil_length_inv in Hous.
  assert (o ∈ action_ous record (out_ActionIndex o)) as Hin.
  { apply list_elem_of_filter. done. }
  rewrite Hous in Hin. by apply elem_of_nil in Hin.
Qed.

Lemma String_length_0 (s : string) : String.length s = 0%nat ↔ s = "".
Proof. destruct s; simpl; split; intros; done. Qed.

(** The emitted amounts for a pair, over a scan of [n] actions. *)
Lemma scan_sum_pair record ts n eid tt :
  scanned record 0 n → action_empty record (Z.of_nat n) →
  sum_Amount (records_for eid tt (seqZ 0 (Z.of_nat n) ≫= records_of_action record ts))
  = out_Sum (out_ByType tt (out_ByEnrollmentID eid (reached_outputs record))).
Proof.
  intros Hscan Hend. unfold sum_Amount, records_for.
  rewrite filter_bind, Zsum_bind.
  set (g := λ o, Z.of_N (out_Quantity o)).
  set (L := out_ByType tt (out_ByEnrollmentID eid (reached_outputs record))).
  rewrite out_Sum_Zsum. fold g.
  rewrite <- (Zsum_by_key g out_ActionIndex (seqZ 0 (Z.of_nat n)) L (NoDup_seqZ _ _)).
  - apply Zsum_ext. intros k Hk%elem_of_seqZ.
    pose proof (action_records_sum_pair record ts (action_inEIDs record k)
                  (match action_inEIDs record k with [e] => e | _ => "" end)
                  (action_ous record k) eid tt) as Hpair.
    unfold sum_Amount, records_for, records_of_action in *. rewrite Hpair.
    rewrite out_Sum_Zsum. fold g. f_equal.
    unfold L, out_ByType, out_ByEnrollmentID, reached_outputs, action_ous.
    rewrite !list_filter_filter. apply list_filter_iff. intros o.
    rewrite (reached_iff record n (out_ActionIndex o) Hscan Hend).
    intuition lia.
  - intros o Ho. unfold L, out_ByType, out_ByEnrollmentID, reached_outputs in Ho.
    apply list_elem_of_filter in Ho as [_ Ho].
    apply list_elem_of_filter in Ho as [_ Ho].
    apply list_elem_of_filter in Ho as [Hreach Ho].
    apply (reached_iff record n _ Hscan Hend) in Hreach.
    apply elem_of_seqZ.
    assert (out_ActionIndex o ≠ Z.of_nat n); [|lia].
    intros Heq. apply (action_ous_elem record o Ho). by rewrite Heq.
Qed.

End AuditFacts.

(** *** The claims on [TransactionRecords] *)

(** C1 (as amended).  When [TransactionRecords] returns records, then for
    every (enrollment id, token type) pair the amounts of the emitted records
    with that recipient and type add up to the amounts of the record's
    outputs tagged with that pair that belong to an action reached by the
    scan; the emitted records are those of the scanned actions, in order;
    and within every action the emitted amounts add up to the action's total
    output value. *)
Theorem TransactionRecords_sums record ts txs :
  TransactionRecords record ts = Some (inr txs) →
  (∀ eid tt,
     sum_Amount (records_for eid tt txs)
     = out_Sum (out_ByType tt (out_ByEnrollmentID eid (reached_outputs record)))) ∧
  (∃ n, 0 ≤ n ∧ txs = seqZ 0 n ≫= records_of_action record ts) ∧
  (∀ k, sum_Amount (records_of_action record ts k) = out_Sum (action_ous record k)).
Proof.
  intros Hrun. apply TransactionRecords_loop_inr in Hrun as (n & -> & Hscan & Hend).
  rewrite app_nil_l. rewrite Z.add_0_l in Hend. split_and!.
  - intros eid tt. by apply scan_sum_pair.
  - exists (Z.of_nat n). split; [lia|done].
  - intros k. apply action_records_sum.
Qed.

(** C1, witness: the transfer of 100 by alice, for the pair (bob, USD). *)
Lemma TransactionRecords_sums_witness :
  ∃ txs, TransactionRecords transfer_record 7 = Some (inr txs) ∧
    sum_Amount (records_for "bob" "USD" txs)
    = out_Sum (out_ByType "USD" (out_ByEnrollmentID "bob" (reached_outputs transfer_record))).
Proof.
  eexists. split; [vm_compute; reflexivity|].
  refine (proj1 (TransactionRecords_sums transfer_record 7 _ _) "bob" "USD").
  vm_compute. reflexivity.
Defined.

(** C1, counterexample.  In [gap_record] bob receives 5 USD, in action 1;
    action 0 is empty, the scan stops there and nothing is emitted.  In
    [two_senders_record] bob receives 5 USD and the decomposition fails, so
    nothing is emitted either. *)
Lemma TransactionRecords_sums_counterexample :
  (∃ txs, TransactionRecords gap_record 7 = Some (inr txs) ∧
     sum_Amount (records_for "bob" "USD" txs)
     ≠ out_Sum (out_ByType "USD" (out_ByEnrollmentID "bob" (Outputs gap_record)))) ∧
  (∃ e, TransactionRecords two_senders_record 7 = Some (inl e) ∧
     out_Sum (out_ByType "USD" (out_ByEnrollmentID "bob" (Outputs two_senders_record))) = 5).
Proof.
  split.
  - exists []. split; [vm_compute; reflexivity|]. vm_compute. discriminate.
  - eexists. split; vm_compute; reflexivity.
Qed.

(** C2.  Every record that [TransactionRecords] emits comes from an action
    reached by the scan and is classified by it: issue when the action has
    no input enrollment id, redeem when it has one and the recipient is
    empty, transfer otherwise; its status is pending; its amount is what the
    recipient receives in that type in that action, and is positive (a pair
    that receives nothing is skipped). *)
Theorem TransactionRecords_classification record ts txs tx :
  TransactionRecords record ts = Some (inr txs) → tx ∈ txs →
  ∃ k, reached record k ∧ tx ∈ records_of_action record ts k ∧
    ActionTy tx =
      match action_inEIDs record k with
      | [] => Issue
      | _ => if decide (RecipientEID tx = "") then Redeem else Transfer
      end ∧
    Status tx = Pending ∧
    0 < Amount tx ∧
    Amount tx = out_Sum (out_ByType (TokenType tx)
                  (out_ByEnrollmentID (RecipientEID tx) (action_ous record k))) ∧
    SenderEID tx = match action_inEIDs record k with [e] => e | _ => "" end ∧
    TxID tx = Anchor record.
Proof.
  intros Hrun Htx.
  apply TransactionRecords_loop_inr in Hrun as (n & -> & Hscan & Hend).
  rewrite app_nil_l in Htx. rewrite Z.add_0_l in Hend.
  apply list_elem_of_bind in Htx as (k & Htx & Hk%elem_of_seqZ).
  exists k. split; [apply (reached_iff record n k Hscan Hend); lia|].
  split; [done|].
  unfold records_of_action in Htx.
  apply elem_of_action_records in Htx as (outEID & tokenType & _ & _ & Hpos & ->).
  simpl. split_and!; try done.
  unfold actionType. destruct (action_inEIDs record k) as [|e l]; simpl; [done|].
  repeat case_decide; try done; exfalso.
  - destruct outEID; done.
  - subst outEID. done.
Qed.

(** C2, witness: the record for bob in the transfer. *)
Lemma TransactionRecords_classification_witness :
  ∃ k, reached transfer_record k ∧
    ActionTy (mkTransactionRecord "T1" Transfer "alice" "bob" "USD" 70 7 Pending)
    = match action_inEIDs transfer_record k with
      | [] => Issue
      | _ => Transfer
      end.
Proof.
  destruct (TransactionRecords_classification transfer_record 7
              [mkTransactionRecord "T1" Transfer "alice" "bob" "USD" 70 7 Pending;
               mkTransactionRecord "T1" Transfer "alice" "alice" "USD" 30 7 Pending]
              (mkTransactionRecord "T1" Transfer "alice" "bob" "USD" 70 7 Pending))
    as (k & Hk & _ & Hty & _).
  - vm_compute. reflexivity.
  - left.
  - exists k. split; [done|]. exact Hty.
Defined.

(** A redeem is recorded through its burnt output; a record with inputs
    and no outputs has no token type to go through and yields no record. *)
Example TransactionRecords_redeem :
  TransactionRecords redeem_record 7
  = Some (inr [mkTransactionRecord "T5" Redeem "alice" "" "USD" 50 7 Pending]) ∧
  TransactionRecords bare_redeem_record 7 = Some (inr []).
Proof. split; vm_compute; reflexivity. Qed.

(** C8 (as amended).  [TransactionRecords] fails with the error on input
    enrollment ids exactly for the records in which an action reached by the
    scan has inputs with more than one distinct enrollment id; when every
    reached action has at most one, it returns records. *)
Theorem TransactionRecords_InvalidAudit record ts :
  ((∃ k, reached record k ∧ (1 < length (action_inEIDs record k))%nat) →
   ∃ k, reached record k ∧
     TransactionRecords record ts
     = Some (inl (errTooManyInputEIDs (action_inEIDs record k)))) ∧
  ((∀ k, reached record k → (length (action_inEIDs record k) ≤ 1)%nat) →
   ∃ txs, TransactionRecords record ts = Some (inr txs)).
Proof.
  destruct (TransactionRecords_total record ts) as [[e|txs] Hrun].
  - pose proof Hrun as Hinl.
    apply TransactionRecords_loop_inl in Hinl as (n & Hscan & Hne & Hlen & ->).
    rewrite Z.add_0_l in *.
    assert (reached record (Z.of_nat n)) as Hreach.
    { split; [lia|]. apply Forall_seqZ. intros j Hj. apply Hscan. lia. }
    split.
    + intros _. by exists (Z.of_nat n).
    + intros Hall. specialize (Hall _ Hreach). lia.
  - pose proof Hrun as Hinr.
    apply TransactionRecords_loop_inr in Hinr as (n & _ & Hscan & Hend).
    rewrite Z.add_0_l in Hend. split.
    + intros (k & Hreach & Hlen). exfalso.
      apply (reached_iff record n k Hscan Hend) in Hreach.
      destruct (decide (k = Z.of_nat n)) as [->|Hne].
      * rewrite (action_empty_inEIDs _ _ Hend) in Hlen. simpl in Hlen. lia.
      * destruct (Hscan k) as [_ Hle]; lia.
    + intros _. by exists txs.
Qed.

(** C8, witness: the action with two senders fails; the transfer does not. *)
Lemma TransactionRecords_InvalidAudit_witness :
  (∃ k, reached two_senders_record k ∧
     TransactionRecords two_senders_record 7
     = Some (inl (errTooManyInputEIDs (action_inEIDs two_senders_record k)))) ∧
  (∃ txs, TransactionRecords transfer_record 7 = Some (inr txs)).
Proof.
  split.
  - apply (proj1 (TransactionRecords_InvalidAudit two_senders_record 7)).
    exists 0. split; [|vm_compute; lia].
    split; [lia|]. rewrite seqZ_nil by lia. constructor.
  - apply (proj2 (TransactionRecords_InvalidAudit transfer_record 7)).
    intros k [Hk Hall]. rewrite Forall_seqZ in Hall.
    destruct (decide (k = 0)) as [->|Hk0]; [vm_compute; lia|].
    destruct (decide (k = 1)) as [->|Hk1]; [vm_compute; lia|].
    exfalso. apply (Hall 1); [lia|]. vm_compute. done.
Defined.

(** C8, counterexample.  In [gap_record] the inputs of action 1 carry two
    distinct enrollment ids, and [TransactionRecords] returns no error: the
    scan stops at action 0, which is empty. *)
Lemma TransactionRecords_InvalidAudit_counterexample :
  (1 < length (action_inEIDs gap_record 1))%nat ∧
  TransactionRecords gap_record 7 = Some (inr []).
Proof. split; [vm_compute; lia|vm_compute; reflexivity]. Qed.

(** *** [Movements] *)

Section MovementsFacts.

Lemma value_app_l (h h' : heap) p : (p < length h)%nat → value (h ++ h') p = value h p.
Proof. intros Hp. unfold value. by rewrite lookup_app_l. Qed.

Lemma Sum_cells_loop amounts h v :
  foldl (λ '(sum, h) q, Add sum sum (Z.of_N q) h) (length h, h ++ [v]) amounts
  = (length h, h ++ [v + Zsum Z.of_N amounts]).
Proof.
  revert v. induction amounts as [|q amounts IH]; intros v; simpl.
  - by rewrite Z.add_0_r.
  - unfold Add at 2. unfold value.
    rewrite list_lookup_middle by done. simpl.
    rewrite insert_app_r_alt by done. rewrite Nat.sub_diag. simpl.
    rewrite IH. do 3 f_equal. lia.
Qed.

(** [Sum] returns a new cell, after all the cells of the heap. *)
Lemma Sum_cells_spec amounts h :
  Sum_cells amounts h = (length h, h ++ [Zsum Z.of_N amounts]).
Proof. unfold Sum_cells, NewInt. by rewrite Sum_cells_loop. Qed.

Lemma Zsum_fmap {A B} (f : A → B) (g : B → Z) (l : list A) :
  Zsum g (f <$> l) = Zsum (λ x, g (f x)) l.
Proof. induction l as [|x l IH]; csimpl; [done|]. by rewrite IH. Qed.

(** The pointers [sent] and [received] are never the same, so the body
    never takes the [continue]. *)
Lemma Movements_body_eq record created eID tokenType mv h :
  Movements_body record created eID tokenType (mv, h)
  = (mv ++ [ {| mv_TxID := Anchor record;
                mv_EnrollmentID := eID;
                mv_Amount := length h;
                mv_TokenType := tokenType;
                mv_Timestamp := created;
                mv_Status := Pending |} ],
     h ++ [movement_diff record eID tokenType;
           in_Sum (in_ByType tokenType (in_ByEnrollmentID eID (Inputs record)))]).
Proof.
  unfold Movements_body, out_Sum_ptr, in_Sum_ptr.
  rewrite !Sum_cells_spec. rewrite !Zsum_fmap.
  rewrite <- out_Sum_Zsum, <- in_Sum_Zsum. unfold Sub. rewrite length_app. simpl.
  rewrite decide_False by lia. f_equal.
  unfold value. rewrite <- app_assoc. simpl.
  rewrite list_lookup_middle by done.
  rewrite (lookup_app_r h) by lia.
  replace (length h + 1 - length h)%nat with 1%nat by lia. simpl.
  rewrite insert_app_r_alt by done. rewrite Nat.sub_diag. done.
Qed.

Lemma movement_ok_grow record h h' r :
  movement_ok record h r → movement_ok record (h ++ h') r.
Proof.
  intros (Hlt & Hval & Hst). split_and!; [rewrite length_app; lia| |done].
  by rewrite value_app_l.
Qed.

Lemma Movements_inner record created eID tts mv h :
  Forall (movement_ok record h) mv →
  ∃ mv' h',
    foldl (λ st tokenType, Movements_body record created eID tokenType st) (mv, h) tts
    = (mv ++ mv', h') ∧
    Forall (movement_ok record h') (mv ++ mv') ∧
    (λ r, (mv_EnrollmentID r, mv_TokenType r)) <$> mv' = (λ t, (eID, t)) <$> tts.
Proof.
  revert mv h. induction tts as [|t tts IH]; intros mv h Hok.
  - exists [], h. by rewrite app_nil_r.
  - cbn [foldl]. rewrite Movements_body_eq.
    edestruct (IH (mv ++ [mkMovementRecord (Anchor record) eID t (length h) created Pending]))
      as (mv' & h' & -> & Hok' & Hkeys).
    + apply Forall_app. split.
      * eapply Forall_impl; [exact Hok|]. intros r. apply movement_ok_grow.
      * apply Forall_singleton. split_and!; simpl; [rewrite length_app; simpl; lia| |done].
        unfold value. by rewrite list_lookup_middle.
    + eexists (_ :: mv'), h'. rewrite <- app_assoc in *. simpl in Hok'.
      split_and!; try done. rewrite fmap_cons, Hkeys. done.
Qed.

Lemma Movements_outer record created eIDs mv h :
  Forall (movement_ok record h) mv →
  ∃ mv' h',
    foldl (λ st eID,
             foldl (λ st tokenType, Movements_body record created eID tokenType st)
                   st (out_TokenTypes (Outputs record)))
          (mv, h) eIDs
    = (mv ++ mv', h') ∧
    Forall (movement_ok record h') (mv ++ mv') ∧
    (λ r, (mv_EnrollmentID r, mv_TokenType r)) <$> mv'
    = (eID ← eIDs; tokenType ← out_TokenTypes (Outputs record); [(eID, tokenType)]).
Proof.
  revert mv h. induction eIDs as [|e eIDs IH]; intros mv h Hok.
  - exists [], h. by rewrite app_nil_r.
  - cbn [foldl].
    destruct (Movements_inner record created e (out_TokenTypes (Outputs record)) mv h Hok)
      as (mv1 & h1 & -> & Hok1 & Hkeys1).
    destruct (IH _ _ Hok1) as (mv2 & h2 & -> & Hok2 & Hkeys2).
    exists (mv1 ++ mv2), h2. rewrite <- app_assoc in *. split_and!; try done.
    rewrite fmap_app, Hkeys1, Hkeys2, bind_cons. f_equal.
Qed.

(** What [Movements] computes: one record for every pair, none skipped,
    each pending and pointing to a cell that holds the pair's difference. *)
Lemma Movements_spec record created h :
  (λ r, (mv_EnrollmentID r, mv_TokenType r)) <$> (Movements record created h).1
  = movement_pairs record ∧
  Forall (movement_ok record (Movements record created h).2) (Movements record created h).1.
Proof.
  unfold Movements, movement_pairs.
  destruct (Movements_outer record created (joinIOEIDs record) [] h)
    as (mv & h' & -> & Hok & Hkeys); [constructor|].
  simpl in *. done.
Qed.

End MovementsFacts.

(** C3, the code at the failing input.  alice sends 10 USD to herself:
    received and sent are equal, the difference is 0, and [Movements] emits
    a record for the pair all the same, with amount 0.  It does so for every
    pair of every record: the comparison that guards the skip is between
    two distinct cells. *)
Theorem Movements_emits_zero_movement :
  movement_diff self_record "alice" "USD" = 0 ∧
  Movements self_record 7 []
  = ([mkMovementRecord "T4" "alice" "USD" 0%nat 7 Pending], [0; 10]) ∧
  value [0; 10] 0%nat = 0 ∧
  ∀ record created h,
    length (Movements record created h).1 = length (movement_pairs record).
Proof.
  split_and!; try (vm_compute; reflexivity).
  intros record created h.
  destruct (Movements_spec record created h) as [Hkeys _].
  by rewrite <- Hkeys, length_fmap.
Qed.

(** ** The transaction store front *)

Module TTXDBFacts.

Import TTXDB.

#[global] Instance same_rows_refl : Reflexive same_rows.
Proof. by intros b. Qed.

#[global] Instance same_rows_trans : Transitive same_rows.
Proof.
  intros b1 b2 b3 (? & ? & ? & ?) (? & ? & ? & ?).
  split_and!; etrans; eauto.
Qed.

Section Facts.

Context {C : Type} `{Cache C}.

Variable TxStatusMessage : TxStatus → string.

Lemma fault_rows b : same_rows b (fault b).2.
Proof. unfold fault. by destruct (faults b). Qed.

(** What [SetStatus] does, by the outcome of the backend call. *)
Lemma SetStatus_run txID status message (d : DB C) :
  SetStatus TxStatusMessage txID status message d =
  match backend_SetStatus txID status message (db d) with
  | (Some err, b) =>
      Some (Some (Wrapf err ("failed setting status [" +:+ txID +:+ "]["
                               +:+ TxStatusMessage status +:+ "]")),
            mkDB (support d) b (cache d)
              (calls d ++ [BackendSetStatus txID status message]))
  | (None, b) =>
      Some (None,
            mkDB (deliver (mkStatusEvent txID status) (support d)) b (cache d)
              ((calls d ++ [BackendSetStatus txID status message])
               ++ [Notify (mkStatusEvent txID status)]))
  end.
Proof.
  unfold SetStatus, bind, on_backend, d_Notify, ret.
  destruct (backend_SetStatus txID status message (db d)) as [[err|] b]; done.
Qed.

(** What [GetTokenRequest] does, by the outcome of the cache lookup. *)
Lemma GetTokenRequest_run txID (d : DB C) :
  GetTokenRequest txID d =
  match Get txID (cache d) with
  | (Some res, c) =>
      Some (inr res, mkDB (support d) (db d) c (calls d ++ [CacheGet txID]))
  | (None, c) =>
      Some ((backend_GetTokenRequest txID (db d)).1,
            mkDB (support d) (backend_GetTokenRequest txID (db d)).2 c
              (calls d ++ [CacheGet txID; BackendGetTokenRequest txID]))
  end.
Proof.
  unfold GetTokenRequest, bind, cache_Get, on_backend, ret.
  destruct (Get txID (cache d)) as [[res|] c]; simpl; [done|].
  destruct (backend_GetTokenRequest txID (db d)) as [r b]. simpl.
  by rewrite <- app_assoc.
Qed.

Lemma backend_BeginAtomicWrite_rows b : same_rows b (backend_BeginAtomicWrite b).2.
Proof.
  unfold backend_BeginAtomicWrite. pose proof (fault_rows b) as Hf.
  destruct (fault b) as [[e|] b']; done.
Qed.

Lemma backend_AddTokenRequest_rows w txID raw b :
  same_rows b (backend_AddTokenRequest w txID raw b).2.
Proof.
  unfold backend_AddTokenRequest. pose proof (fault_rows b) as Hf.
  destruct (fault b) as [[e|] b']; [done|]. by case_decide.
Qed.

Lemma backend_AddTransaction_rows w tx b :
  same_rows b (backend_AddTransaction w tx b).2.
Proof.
  unfold backend_AddTransaction. pose proof (fault_rows b) as Hf.
  destruct (fault b) as [[e|] b']; done.
Qed.

Lemma backend_AddValidationRecord_rows w txID meta b :
  same_rows b (backend_AddValidationRecord w txID meta b).2.
Proof.
  unfold backend_AddValidationRecord. pose proof (fault_rows b) as Hf.
  destruct (fault b) as [[e|] b']; done.
Qed.


(** A [Commit] that fails leaves the rows as they were; one that succeeds
    stores the requests of the handle. *)
Lemma backend_Commit_rows w b :
  match backend_Commit w b with
  | (Some _, b') => same_rows b b'
  | (None, b') =>
      requests b' = foldl (λ m kv, <[kv.1 := kv.2]> m) (requests b) (w_requests w)
  end.
Proof.
  unfold backend_Commit. pose proof (fault_rows b) as (Hr & _).
  pose proof (fault_rows b) as Hf.
  destruct (fault b) as [[e|] b']; simpl in *; [done|]. by rewrite Hr.
Qed.

Lemma backend_AddTokenRequest_handle txID raw b w' b' :
  backend_AddTokenRequest (mkAtomicWrite [] [] []) txID raw b = (None, w', b') →
  w_requests w' = [(txID, raw)].
Proof.
  unfold backend_AddTokenRequest. destruct (fault b) as [[e|] b0]; [done|].
  case_decide; [done|]. by intros [= <- <-].
Qed.

Lemma backend_AddTransaction_handle w tx b w' b' :
  backend_AddTransaction w tx b = (None, w', b') → w_requests w' = w_requests w.
Proof.
  unfold backend_AddTransaction. destruct (fault b) as [[e|] b0]; [done|].
  by intros [= <- <-].
Qed.

Lemma backend_AddValidationRecord_handle w txID meta b w' b' :
  backend_AddValidationRecord w txID meta b = (None, w', b') →
  w_requests w' = w_requests w.
Proof.
  unfold backend_AddValidationRecord. destruct (fault b) as [[e|] b0]; [done|].
  by intros [= <- <-].
Qed.

(** The loop of [AddTransaction] calls touches neither the cache nor the
    rows nor the requests of the handle. *)
Lemma add_transactions_run txs w (d : DB C) :
  ∃ r w' d' evs,
    add_transactions w txs d = Some ((r, w'), d') ∧
    support d' = support d ∧ cache d' = cache d ∧ same_rows (db d) (db d') ∧
    calls d' = calls d ++ evs ∧ (Rollback ∉ evs) ∧
    (r = None → w_requests w' = w_requests w).
Proof.
  revert w d. induction txs as [|tx txs IH]; intros w d; simpl.
  - exists None, w, d, []. unfold ret. rewrite app_nil_r.
    split_and!; try done. apply not_elem_of_nil.
  - unfold bind at 1. unfold on_backend.
    pose proof (backend_AddTransaction_rows w tx (db d)) as Hrows.
    pose proof (backend_AddTransaction_handle w tx (db d)) as Hhandle.
    destruct (backend_AddTransaction w tx (db d)) as [[[e|] w1] b1]; simpl in *.
    + eexists _, _, _, [_]. unfold ret. split_and!; try done.
      intros Hin%list_elem_of_singleton. done.
    + destruct (IH w1 (mkDB (support d) b1 (cache d) (calls d ++ [AddTransaction tx])))
        as (r & w' & d' & evs & -> & Hsup & Hcache & Hrows' & Hcalls & Hnr & Hw).
      simpl in *. exists r, w', d', (AddTransaction tx :: evs).
      split_and!; try done.
      * by etrans.
      * by rewrite Hcalls, <- app_assoc.
      * intros [Heq|Hin]%elem_of_cons; done.
      * intros ->. rewrite Hw by done. by eapply Hhandle.
Qed.

(** The shape of a run of [AppendTransactionRecord]: either it stops before
    the cache is touched, or it has added the request to the cache, right
    after [BeginAtomicWrite] and before [AddTokenRequest]. *)
Lemma AppendTransactionRecord_run req now (d : DB C) r d' :
  AppendTransactionRecord req now d = Some (r, d') →
  support d' = support d ∧
  ((is_Some r ∧ cache d' = cache d ∧ same_rows (db d) (db d') ∧
    (calls d' = calls d ∨ calls d' = calls d ++ [BeginAtomicWrite])) ∨
   (∃ raw evs,
      req_Bytes req = inr raw ∧
      cache d' = Add (req_Anchor req) raw (cache d) ∧
      calls d' = calls d ++ BeginAtomicWrite :: CacheAdd (req_Anchor req) raw
                   :: AddTokenRequest (req_Anchor req) raw :: evs ∧
      (is_Some r → same_rows (db d) (db d')) ∧
      (r = None → requests (db d') !! req_Anchor req = Some raw))).
Proof.
  unfold AppendTransactionRecord.
  destruct (req_InputsAndOutputs req) as [err|[ins outs]].
  { unfold ret. intros [= <- <-]. split; [done|]. left. split_and!; eauto; reflexivity. }
  destruct (req_Bytes req) as [err|raw] eqn:Hbytes.
  { unfold ret. intros [= <- <-]. split; [done|]. left. split_and!; eauto; reflexivity. }
  destruct (TransactionRecords _ now) as [[err|txs]|]; [| |done].
  { unfold ret. intros [= <- <-]. split; [done|]. left. split_and!; eauto; reflexivity. }
  simpl. unfold bind at 1. unfold on_backend at 1.
  pose proof (backend_BeginAtomicWrite_rows (db d)) as Hbegin.
  assert (∀ w b, backend_BeginAtomicWrite (db d) = (inr w, b) → w = mkAtomicWrite [] [] [])
    as Hfresh.
  { unfold backend_BeginAtomicWrite. destruct (fault (db d)) as [[e|] b0]; [done|].
    by intros w b [= <- <-]. }
  destruct (backend_BeginAtomicWrite (db d)) as [[err|w] b0]; simpl in Hbegin.
  { unfold ret. intros [= <- <-]. split; [done|]. left. split_and!; eauto; reflexivity. }
  rewrite (Hfresh w b0 eq_refl). clear Hfresh w.
  unfold bind at 1, cache_Add at 1. unfold bind at 1, on_backend at 1. simpl.
  pose proof (backend_AddTokenRequest_rows (mkAtomicWrite [] [] []) (req_Anchor req) raw b0)
    as Hreq.
  pose proof (backend_AddTokenRequest_handle (req_Anchor req) raw b0) as Hhandle.
  destruct (backend_AddTokenRequest _ _ raw b0) as [[[err|] w1] b1]; simpl in Hreq.
  { unfold bind, on_backend, backend_Rollback, ret. simpl.
    intros [= <- <-]. split; [done|]. right. exists raw, [Rollback]. simpl.
    split_and!; try done.
    - by rewrite <- !app_assoc.
    - intros _. by etrans. }
  specialize (Hhandle _ _ eq_refl).
  unfold bind at 1.
  destruct (add_transactions_run txs w1
              (mkDB (support d) b1 (Add (req_Anchor req) raw (cache d))
                 (((calls d ++ [BeginAtomicWrite]) ++ [CacheAdd (req_Anchor req) raw])
                  ++ [AddTokenRequest (req_Anchor req) raw])))
    as (r1 & w2 & d2 & evs & -> & Hsup & Hcache & Hrows & Hcalls & _ & Hw).
  simpl in *. destruct r1 as [err|].
  { unfold bind, on_backend, backend_Rollback, ret. simpl.
    intros [= <- <-]. split; [done|]. right. exists raw, (evs ++ [Rollback]). simpl.
    split_and!; try done.
    - rewrite Hcalls, <- !app_assoc. done.
    - intros _. etrans; [exact Hbegin|]. etrans; [exact Hreq|]. exact Hrows. }
  specialize (Hw eq_refl). unfold bind, on_backend, ret.
  pose proof (backend_Commit_rows w2 (db d2)) as Hcommit.
  destruct (backend_Commit w2 (db d2)) as [[err|] b3].
  - intros [= <- <-]. split; [done|]. right. exists raw, (evs ++ [Commit]). simpl.
    split_and!; try done.
    + rewrite Hcalls, <- !app_assoc. done.
    + intros _. etrans; [exact Hbegin|]. etrans; [exact Hreq|]. by etrans.
  - intros [= <- <-]. split; [done|]. right. exists raw, (evs ++ [Commit]). simpl.
    split_and!; try done.
    + rewrite Hcalls, <- !app_assoc. done.
    + intros _. rewrite Hcommit, Hw, Hhandle. simpl. apply lookup_insert_eq.
Qed.

(** The same for [AppendValidationRecord]. *)
Lemma AppendValidationRecord_run txID tokenRequest meta ppHash (d : DB C) r d' :
  AppendValidationRecord txID tokenRequest meta ppHash d = Some (r, d') →
  support d' = support d ∧
  ((is_Some r ∧ cache d' = cache d ∧ same_rows (db d) (db d') ∧
    calls d' = calls d ++ [BeginAtomicWrite]) ∨
   (∃ evs,
      cache d' = Add txID tokenRequest (cache d) ∧
      calls d' = calls d ++ BeginAtomicWrite :: CacheAdd txID tokenRequest
                   :: AddTokenRequest txID tokenRequest :: evs ∧
      (is_Some r → same_rows (db d) (db d')) ∧
      (r = None → requests (db d') !! txID = Some tokenRequest))).
Proof.
  unfold AppendValidationRecord.
  unfold bind at 1. unfold on_backend at 1.
  pose proof (backend_BeginAtomicWrite_rows (db d)) as Hbegin.
  assert (∀ w b, backend_BeginAtomicWrite (db d) = (inr w, b) → w = mkAtomicWrite [] [] [])
    as Hfresh.
  { unfold backend_BeginAtomicWrite. destruct (fault (db d)) as [[e|] b0]; [done|].
    by intros w b [= <- <-]. }
  destruct (backend_BeginAtomicWrite (db d)) as [[err|w] b0]; simpl in Hbegin.
  { unfold ret. intros [= <- <-]. split; [done|]. left. split_and!; eauto; reflexivity. }
  rewrite (Hfresh w b0 eq_refl). clear Hfresh w.
  unfold bind at 1, cache_Add at 1. unfold bind at 1, on_backend at 1. simpl.
  pose proof (backend_AddTokenRequest_rows (mkAtomicWrite [] [] []) txID tokenRequest b0)
    as Hreq.
  pose proof (backend_AddTokenRequest_handle txID tokenRequest b0) as Hhandle.
  destruct (backend_AddTokenRequest _ _ tokenRequest b0) as [[[err|] w1] b1]; simpl in Hreq.
  { unfold bind, on_backend, backend_Rollback, ret. simpl.
    intros [= <- <-]. split; [done|]. right. exists [Rollback]. simpl.
    split_and!; try done.
    - by rewrite <- !app_assoc.
    - intros _. by etrans. }
  specialize (Hhandle _ _ eq_refl).
  unfold bind at 1, on_backend at 1. simpl.
  pose proof (backend_AddValidationRecord_rows w1 txID meta b1) as Hval.
  pose proof (backend_AddValidationRecord_handle w1 txID meta b1) as Hw.
  destruct (backend_AddValidationRecord w1 txID meta b1) as [[[err|] w2] b2]; simpl in Hval.
  { unfold bind, on_backend, backend_Rollback, ret. simpl.
    intros [= <- <-]. split; [done|]. right.
    exists [AddValidationRecord txID; Rollback]. simpl.
    split_and!; try done.
    - by rewrite <- !app_assoc.
    - intros _. etrans; [exact Hbegin|]. by etrans. }
  specialize (Hw _ _ eq_refl). unfold bind, on_backend, ret. simpl.
  pose proof (backend_Commit_rows w2 b2) as Hcommit.
  destruct (backend_Commit w2 b2) as [[err|] b3].
  - intros [= <- <-]. split; [done|]. right.
    exists [AddValidationRecord txID; Commit]. simpl.
    split_and!; try done.
    + by rewrite <- !app_assoc.
    + intros _. etrans; [exact Hbegin|]. etrans; [exact Hreq|]. by etrans.
  - intros [= <- <-]. split; [done|]. right.
    exists [AddValidationRecord txID; Commit]. simpl.
    split_and!; try done.
    + by rewrite <- !app_assoc.
    + intros _. rewrite Hcommit, Hw, Hhandle. simpl.
      destruct Hval as (<- & _). destruct Hreq as (<- & _).
      apply lookup_insert_eq.
Qed.

End Facts.

(** C5.  If the backend status update fails, [SetStatus] returns an error
    that wraps the backend's, and no listener receives an event: the
    notifier is not called.  If it succeeds, [SetStatus] returns nil, every
    listener receives exactly one more event, carrying the tx-id and the
    status, and the notification is made after the backend call. *)
Theorem SetStatus_notifies_after_commit {C : Type} `{Cache C}
    (TxStatusMessage : TxStatus → string) txID status message (d : DB C) :
  (∀ err b,
     backend_SetStatus txID status message (db d) = (Some err, b) →
     ∃ e d', SetStatus TxStatusMessage txID status message d = Some (Some e, d') ∧
       e = Wrapf err ("failed setting status [" +:+ txID +:+ "]["
                      +:+ TxStatusMessage status +:+ "]") ∧
       Cause e = Cause err ∧
       support d' = support d ∧ db d' = b ∧
       calls d' = calls d ++ [BackendSetStatus txID status message]) ∧
  (∀ b,
     backend_SetStatus txID status message (db d) = (None, b) →
     ∃ d', SetStatus TxStatusMessage txID status message d = Some (None, d') ∧
       listeners (support d')
       = (λ queue, queue ++ [mkStatusEvent txID status]) <$> listeners (support d) ∧
       db d' = b ∧
       calls d' = calls d ++ [BackendSetStatus txID status message;
                              Notify (mkStatusEvent txID status)]).
Proof.
  split.
  - intros err b Hb. rewrite SetStatus_run, Hb. eexists _, _. split; [done|]. done.
  - intros b Hb. rewrite SetStatus_run, Hb. eexists. split; [done|].
    simpl. rewrite <- app_assoc. done.
Qed.

(** C5, witness: a backend that fails with [disk_full], and one that answers. *)
Lemma SetStatus_notifies_after_commit_witness :
  (∃ d', SetStatus sample_names "T1" Confirmed "ok" (sample_db [Some disk_full])
         = Some (Some (Wrapf disk_full "failed setting status [T1][Confirmed]"), d') ∧
     support d' = support (sample_db [Some disk_full])) ∧
  (∃ d', SetStatus sample_names "T1" Confirmed "ok" (sample_db []) = Some (None, d') ∧
     listeners (support d')
     = [[mkStatusEvent "T1" Confirmed]; [mkStatusEvent "T1" Confirmed]]).
Proof.
  split.
  - destruct (proj1 (SetStatus_notifies_after_commit sample_names "T1" Confirmed "ok"
                       (sample_db [Some disk_full])) disk_full
                (mkBackend ∅ [] [] ∅ []) eq_refl)
      as (e & d' & Hrun & -> & _ & Hsup & _).
    exists d'. split; [exact Hrun|exact Hsup].
  - destruct (proj2 (SetStatus_notifies_after_commit sample_names "T1" Confirmed "ok"
                       (sample_db []))
                (mkBackend ∅ [] [] (<["T1" := "ok"]> ∅) []) eq_refl)
      as (d' & Hrun & Hls & _).
    exists d'. split; [exact Hrun|exact Hls].
Defined.

(** C6 (as amended).  [GetTokenRequest] consults the cache first.  On a
    hit it returns the cached bytes and makes no call on the backend.  On a
    miss it returns the backend's answer and leaves the cache as the lookup
    left it: nothing is added.  The cache is filled by
    [AppendTransactionRecord] and [AppendValidationRecord]: a successful
    call has added the request to the cache right after [BeginAtomicWrite]
    and before [AddTokenRequest], and the backend holds it as well. *)
Theorem GetTokenRequest_cache_first {C : Type} `{Cache C} txID (d : DB C) :
  (∀ res c, Get txID (cache d) = (Some res, c) →
     GetTokenRequest txID d
     = Some (inr res, mkDB (support d) (db d) c (calls d ++ [CacheGet txID]))) ∧
  (∀ c, Get txID (cache d) = (None, c) →
     ∃ r b, backend_GetTokenRequest txID (db d) = (r, b) ∧
       GetTokenRequest txID d
       = Some (r, mkDB (support d) b c
                    (calls d ++ [CacheGet txID; BackendGetTokenRequest txID]))) ∧
  (∀ req now d', AppendTransactionRecord req now d = Some (None, d') →
     ∃ raw evs, req_Bytes req = inr raw ∧
       (Get (req_Anchor req) (cache d')).1 = Some raw ∧
       requests (db d') !! req_Anchor req = Some raw ∧
       calls d' = calls d ++ BeginAtomicWrite :: CacheAdd (req_Anchor req) raw
                    :: AddTokenRequest (req_Anchor req) raw :: evs) ∧
  (∀ tokenRequest meta ppHash d',
     AppendValidationRecord txID tokenRequest meta ppHash d = Some (None, d') →
     ∃ evs,
       (Get txID (cache d')).1 = Some tokenRequest ∧
       requests (db d') !! txID = Some tokenRequest ∧
       calls d' = calls d ++ BeginAtomicWrite :: CacheAdd txID tokenRequest
                    :: AddTokenRequest txID tokenRequest :: evs).
Proof.
  split_and!.
  - intros res c Hget. by rewrite GetTokenRequest_run, Hget.
  - intros c Hget. rewrite GetTokenRequest_run, Hget.
    destruct (backend_GetTokenRequest txID (db d)) as [r b]. by exists r, b.
  - intros req now d' Hrun.
    apply AppendTransactionRecord_run in Hrun as [_ [([e He] & _)|Hrun]]; [done|].
    destruct Hrun as (raw & evs & Hbytes & Hcache & Hcalls & _ & Hrow).
    exists raw, evs. rewrite Hcache, Get_Add. auto.
  - intros tokenRequest meta ppHash d' Hrun.
    apply AppendValidationRecord_run in Hrun as [_ [([e He] & _)|Hrun]]; [done|].
    destruct Hrun as (evs & Hcache & Hcalls & _ & Hrow).
    exists evs. rewrite Hcache, Get_Add. auto.
Qed.

(** C6, witness: a miss answered by the backend, and an append that fills
    the cache. *)
Lemma GetTokenRequest_cache_first_witness :
  (∃ r b, backend_GetTokenRequest "T1" (db stored_db) = (r, b) ∧
     GetTokenRequest "T1" stored_db
     = Some (r, mkDB (support stored_db) b (mkBoundedCache [])
                  [CacheGet "T1"; BackendGetTokenRequest "T1"])) ∧
  (∃ d', AppendTransactionRecord sample_request 7 (sample_db []) = Some (None, d') ∧
     (Get "T1" (cache d')).1 = Some [Byte.x01; Byte.x02]).
Proof.
  split.
  - apply (proj1 (proj2 (GetTokenRequest_cache_first "T1" stored_db)) (mkBoundedCache [])).
    vm_compute. reflexivity.
  - eexists. split; [vm_compute; reflexivity|].
    edestruct (proj1 (proj2 (proj2 (GetTokenRequest_cache_first "T1" (sample_db []))))
                 sample_request 7) as (raw & evs & Hbytes & Hget & _).
    + vm_compute. reflexivity.
    + vm_compute. reflexivity.
Defined.

(** C6, counterexample.  The backend holds the request of T1 and the cache
    is empty: [GetTokenRequest] returns the backend's bytes, adds nothing to
    the cache, and the cache still misses T1 afterwards. *)
Lemma GetTokenRequest_cache_first_counterexample :
  ∃ d', GetTokenRequest "T1" stored_db = Some (inr [Byte.x01; Byte.x02], d') ∧
    (Get "T1" (cache d')).1 = None ∧
    calls d' = [CacheGet "T1"; BackendGetTokenRequest "T1"].
Proof. eexists. split_and!; vm_compute; reflexivity. Qed.



End TTXDBFacts.

(** ** The token store *)

Module TokenStoreFacts.

Import TokenStore.

Section Facts.

Implicit Types (table rows : list TokenRow) (inputs : list ID).
Implicit Types (tokens : list (option Token)).

Lemma Query_in table inputs r : r ∈ Query table inputs → row_ID r ∈ inputs.
Proof. intros [(Hin & _) _]%list_elem_of_filter. done. Qed.

Lemma NoDup_Query table inputs :
  primary_key table → NoDup (row_ID <$> Query table inputs).
Proof.
  intros Hpk. eapply sublist_NoDup; [exact Hpk|].
  apply fmap_sublist, sublist_filter.
Qed.

Lemma list_find_filter {A} (P Q : A → Prop)
    `{∀ x, Decision (P x)} `{∀ x, Decision (Q x)} (l : list A) :
  snd <$> list_find P (filter Q l) = snd <$> list_find (λ x, P x ∧ Q x) l.
Proof.
  induction l as [|x l IH]; [done|].
  rewrite filter_cons. cbn [list_find].
  destruct (decide (Q x)) as [HQ|HQ].
  - cbn [list_find]. destruct (decide (P x)) as [HP|HP].
    + rewrite decide_True by done. done.
    + rewrite decide_False by tauto.
      destruct (list_find P (filter Q l)) as [[]|],
               (list_find (λ x, P x ∧ Q x) l) as [[]|]; simpl in *; done.
  - rewrite decide_False by tauto.
    destruct (list_find P (filter Q l)) as [[]|],
             (list_find (λ x, P x ∧ Q x) l) as [[]|]; simpl in *; done.
Qed.

(** In the rows of the query, an id of [inputs] finds the row that answers it. *)
Lemma find_in_Query table inputs id :
  id ∈ inputs →
  snd <$> list_find (λ r, row_ID r = id) (Query table inputs) = lookup_owned table id.
Proof.
  intros Hin. unfold Query, lookup_owned. rewrite list_find_filter.
  f_equal. apply list_find_ext. intros r. unfold owned. split.
  - intros (? & _ & ? & ?). done.
  - intros (<- & ? & ?). done.
Qed.

Lemma lookup_owned_Some table id r :
  lookup_owned table id = Some r →
  r ∈ table ∧ row_ID r = id ∧ is_deleted r = false ∧ owner r = true.
Proof.
  unfold lookup_owned. intros ([i r'] & Hfind & ->)%fmap_Some.
  apply list_find_Some in Hfind as (Hl & HP & _). simpl.
  split; [by eapply list_elem_of_lookup_2|done].
Qed.

Lemma lookup_owned_None table id :
  lookup_owned table id = None →
  ∀ r, r ∈ table → ¬ (row_ID r = id ∧ is_deleted r = false ∧ owner r = true).
Proof.
  unfold lookup_owned. intros Hnone%fmap_None r Hr.
  apply list_find_None in Hnone. rewrite Forall_forall in Hnone. by apply Hnone.
Qed.

(** *** The loop over the rows *)

Lemma filled_insert tokens j t : (filled (<[j := Some t]> tokens) ≤ S (filled tokens))%nat.
Proof.
  unfold filled. revert j. induction tokens as [|o tokens IH]; intros j; [simpl; lia|].
  destruct j as [|j]; simpl.
  - rewrite filter_cons. case_decide; simpl; lia.
  - rewrite !filter_cons. specialize (IH j). case_decide; simpl; lia.
Qed.

(** Every row of the query finds a slot, so the loop ends with the counter
    at the number of rows, and fills at most that many slots. *)
Lemma scan_rows_ok inputs rows tokens counter :
  (∀ r, r ∈ rows → row_ID r ∈ inputs) →
  ∃ tokens',
    scan_rows inputs rows tokens counter = inr (tokens', (counter + length rows)%nat) ∧
    length tokens' = length tokens ∧
    (filled tokens' ≤ filled tokens + length rows)%nat.
Proof.
  revert tokens counter. induction rows as [|r rows IH]; intros tokens counter Hin.
  - exists tokens. simpl. rewrite Nat.add_0_r. split_and!; [done|done|lia].
  - simpl. destruct (list_find_elem_of (λ i, i = row_ID r) inputs (row_ID r))
      as [[j i] Hfind]; [apply Hin; left|done|].
    rewrite Hfind.
    destruct (IH (<[j := Some (row_Token r)]> tokens) (S counter))
      as (tokens' & -> & Hlen & Hfilled).
    { intros r' Hr'. apply Hin. by right. }
    exists tokens'. rewrite length_insert in Hlen.
    pose proof (filled_insert tokens j (row_Token r)).
    split_and!; [f_equal; f_equal; lia|done|lia].
Qed.

(** With distinct ids and distinct row keys, slot [j] ends up with the row
    whose key is [inputs[j]], if there is one. *)
Lemma scan_rows_slots inputs rows tokens counter tokens' n :
  NoDup inputs → NoDup (row_ID <$> rows) → length tokens = length inputs →
  scan_rows inputs rows tokens counter = inr (tokens', n) →
  ∀ j id, inputs !! j = Some id →
    tokens' !! j = match list_find (λ r, row_ID r = id) rows with
                   | Some (_, r) => Some (Some (row_Token r))
                   | None => tokens !! j
                   end.
Proof.
  intros Hnd. revert tokens counter.
  induction rows as [|r rows IH]; intros tokens counter Hrows Hlen Hscan j id Hj.
  - simpl in *. by simplify_eq.
  - simpl in Hscan. rewrite fmap_cons in Hrows. apply NoDup_cons in Hrows as [Hr Hrows].
    destruct (list_find (λ i, i = row_ID r) inputs) as [[j0 i0]|] eqn:Hfind; [|done].
    apply list_find_Some in Hfind as (Hj0 & -> & _).
    pose proof (IH _ _ Hrows ltac:(by rewrite length_insert) Hscan j id Hj) as Hslot.
    rewrite Hslot. cbn [list_find]. destruct (decide (row_ID r = id)) as [<-|Hne].
    + assert (j = j0) as -> by (by apply (NoDup_lookup inputs j j0 (row_ID r))).
      destruct (list_find (λ r0, row_ID r0 = row_ID r) rows) as [[k r']|] eqn:Hfind'.
      * exfalso. apply list_find_Some in Hfind' as (Hk & Heq & _).
        apply Hr. rewrite <- Heq. apply list_elem_of_fmap_2.
        by eapply list_elem_of_lookup_2.
      * simpl. apply list_lookup_insert_eq. rewrite Hlen.
        by eapply lookup_lt_Some.
    + destruct (list_find (λ r0, row_ID r0 = id) rows) as [[k r']|]; simpl; [done|].
      apply list_lookup_insert_ne. intros ->. congruence.
Qed.

(** Distinct keys taken from a list that has one element more, or a
    repetition, are fewer than its elements. *)
Lemma length_lt_of_NoDup {A} (k l : list A) :
  NoDup k → (∀ x, x ∈ k → x ∈ l) → ¬ (∀ x, x ∈ l → x ∈ k) ∨ ¬ NoDup l →
  (length k < length l)%nat.
Proof.
  intros Hk Hsub Hstrict.
  pose proof (NoDup_submseteq k l Hk Hsub) as Hmset.
  pose proof (submseteq_length _ _ Hmset) as Hle.
  destruct (decide (length l ≤ length k)%nat) as [Hge|]; [|lia].
  exfalso. pose proof (submseteq_length_Permutation _ _ Hmset Hge) as Hperm.
  destruct Hstrict as [Hnot|Hnot]; apply Hnot.
  - intros x Hx. by rewrite Hperm.
  - by rewrite <- Hperm.
Qed.



(** With distinct ids the slots are the answers, whatever the order of the rows. *)
Lemma scan_rows_answers table inputs :
  primary_key table → NoDup inputs →
  scan_rows inputs (Query table inputs) (replicate (length inputs) None) 0
  = inr (answers table inputs, length (Query table inputs)).
Proof.
  intros Hpk Hnd.
  destruct (scan_rows_ok inputs (Query table inputs) (replicate (length inputs) None) 0)
    as (tokens' & Hscan & Hlen & _); [apply Query_in|].
  rewrite Hscan. simpl. do 2 f_equal. rewrite length_replicate in Hlen.
  apply list_eq. intros j. unfold answers. rewrite list_lookup_fmap.
  destruct (inputs !! j) as [id|] eqn:Hj; simpl.
  - rewrite (scan_rows_slots inputs (Query table inputs)
               (replicate (length inputs) None) 0 tokens' _ Hnd (NoDup_Query _ _ Hpk)
               (length_replicate _ _) Hscan j id Hj).
    rewrite <- (find_in_Query table inputs id) by (by eapply list_elem_of_lookup_2).
    destruct (list_find _ (Query table inputs)) as [[k r]|]; simpl; [done|].
    apply lookup_replicate_2. by eapply lookup_lt_Some.
  - apply lookup_ge_None. rewrite Hlen. by apply lookup_ge_None.
Qed.

Lemma Query_lookup_owned table inputs r :
  r ∈ Query table inputs → is_Some (lookup_owned table (row_ID r)).
Proof.
  intros Hr. rewrite <- (find_in_Query table inputs) by (by eapply Query_in).
  destruct (list_find_elem_of (λ r0, row_ID r0 = row_ID r) (Query table inputs) r)
    as [[k r'] ->]; [done|done|]. by eexists.
Qed.

Lemma lookup_owned_Query table inputs id r :
  id ∈ inputs → lookup_owned table id = Some r →
  r ∈ Query table inputs ∧ row_ID r = id.
Proof.
  intros Hid Hlook. rewrite <- (find_in_Query table inputs id Hid) in Hlook.
  apply fmap_Some in Hlook as ([k r'] & Hfind & ->).
  apply list_find_Some in Hfind as (Hk & Heq & _). simpl.
  split; [by eapply list_elem_of_lookup_2|done].
Qed.

(** [GetTokens] on distinct ids: the answers in the order of the ids, or
    not found for the first id without an answer. *)
Lemma GetTokens_spec table inputs :
  primary_key table → NoDup inputs → inputs ≠ [] →
  GetTokens table inputs =
  match list_find (λ t, t = None) (answers table inputs) with
  | Some (j, _) =>
      match inputs !! j with
      | Some i => Err (errNotFound i)
      | None => Panic "index out of range"
      end
  | None => Ok (answers table inputs)
  end.
Proof.
  intros Hpk Hnd Hne. unfold GetTokens.
  rewrite decide_False by (by destruct inputs).
  rewrite (scan_rows_answers _ _ Hpk Hnd).
  set (rows := Query table inputs).
  assert (length (row_ID <$> rows) = length rows) as Hlenrows by apply length_fmap.
  pose proof (NoDup_Query table inputs Hpk) as Hndrows. fold rows in Hndrows.
  assert (∀ x, x ∈ row_ID <$> rows → x ∈ inputs) as Hsub.
  { intros x (r & -> & Hr)%list_elem_of_fmap. by eapply Query_in. }
  destruct (list_find (λ t, t = None) (answers table inputs)) as [[j t]|] eqn:Hfind.
  - apply list_find_Some in Hfind as (Hj & -> & Hfirst).
    unfold answers in Hj. rewrite list_lookup_fmap in Hj.
    destruct (inputs !! j) as [id|] eqn:Hid; [|done]. simpl in Hj.
    injection Hj as Hj. apply fmap_None in Hj.
    assert (length rows < length inputs)%nat as Hlt.
    { rewrite <- Hlenrows. apply length_lt_of_NoDup; [done|done|]. left.
      intros Hall. specialize (Hall id ltac:(by eapply list_elem_of_lookup_2)).
      apply list_elem_of_fmap in Hall as (r & -> & Hr).
      apply Query_lookup_owned in Hr as [r' Hr']. congruence. }
    case_decide as Hzero.
    + assert (j = 0%nat) as ->; [|by rewrite Hid].
      destruct j as [|j]; [done|]. exfalso.
      destruct inputs as [|i0 inputs']; [done|].
      apply (Hfirst 0%nat (row_Token <$> lookup_owned table i0)); [done|lia|].
      apply fmap_None. destruct (lookup_owned table i0) as [r|] eqn:Hlook; [|done].
      apply (lookup_owned_Query table (i0 :: inputs')) in Hlook as [Hr _]; [|left].
      fold rows in Hr. apply nil_length_inv in Hzero. rewrite Hzero in Hr.
      by apply elem_of_nil in Hr.
    + rewrite decide_True by lia. done.
  - apply list_find_None in Hfind. rewrite Forall_forall in Hfind.
    assert (length rows = length inputs) as Hlen.
    { rewrite <- Hlenrows. apply Permutation_length.
      apply NoDup_Permutation; [done|done|]. intros x. split; [apply Hsub|].
      intros Hx. destruct (lookup_owned table x) as [r|] eqn:Hlook.
      - apply (lookup_owned_Query table inputs) in Hlook as [Hr <-]; [|done].
        by apply list_elem_of_fmap_2.
      - exfalso. apply (Hfind None); [|done]. unfold answers.
        apply list_elem_of_fmap. exists x. by rewrite Hlook. }
    rewrite decide_False by (destruct inputs; simpl in *; [done|lia]).
    rewrite decide_False by lia. done.
Qed.

End Facts.






End TokenStoreFacts.

(** ** The reconciliation status check *)

Module ReconcileFacts.

Import TTXDB Reconcile TTXDBFacts.

Section Facts.

Context {C : Type} `{Cache C}.

Variable vault_Status : string → error + ValidationCode.
Variable ledger_Status : string → error + ValidationCode.
Variable TxStatusMessage : TxStatus → string.
Variable code : ValidationCode → Z.



End Facts.




End ReconcileFacts.

(** * Further properties *)

(** ** Audit decomposition *)

Section AuditMore.

Lemma filter_all {A} (P : A → Prop) `{∀ x, Decision (P x)} (l : list A) :
  (∀ x, x ∈ l → P x) → filter P l = l.
Proof.
  induction l as [|x l IH]; intros Hl; [done|].
  rewrite filter_cons_True by (apply Hl; left).
  f_equal. apply IH. intros y Hy. apply Hl. by right.
Qed.

(** The loop of [deduplicate], started with some items already seen,
    appends the items of the source not seen yet, once each. *)
Lemma deduplicate_loop_filter source support res :
  (∀ x, is_Some (support !! x) ↔ x ∈ res) →
  deduplicate_loop source support res
  = res ++ filter (λ y, y ∉ res) (deduplicate source).
Proof.
  revert support res. induction source as [|item rest IH]; intros support res Hs.
  - simpl. by rewrite app_nil_r.
  - assert (deduplicate (item :: rest)
            = [item] ++ filter (λ y, y ∉ [item]) (deduplicate rest)) as ->.
    { unfold deduplicate at 1. simpl. rewrite lookup_empty. apply IH.
      intros x. rewrite lookup_insert_is_Some, lookup_empty, list_elem_of_singleton.
      split; [intros [?|[_ []]]; done|intros ->; by left]. }
    simpl. destruct (support !! item) as [b|] eqn:E.
    + assert (item ∈ res) as Hin by (apply Hs; eauto).
      rewrite (IH _ _ Hs). f_equal.
      rewrite filter_cons_False by (intros Hni; by apply Hni).
      rewrite list_filter_filter. apply list_filter_iff. intros y.
      rewrite list_elem_of_singleton. split; [|tauto].
      intros Hy. split; [done|]. by intros ->.
    + assert (item ∉ res) as Hni.
      { intros Hin. apply Hs in Hin. rewrite E in Hin. by destruct Hin. }
      rewrite (IH (<[item := true]> support) (res ++ [item])).
      * rewrite filter_cons_True by done. rewrite <- app_assoc. simpl. do 2 f_equal.
        rewrite list_filter_filter. apply list_filter_iff. intros y.
        rewrite elem_of_app, !list_elem_of_singleton. tauto.
      * intros x. rewrite lookup_insert_is_Some, elem_of_app, list_elem_of_singleton, <- Hs.
        destruct (decide (item = x)); naive_solver.
Qed.

Lemma deduplicate_cons x l :
  deduplicate (x :: l) = x :: filter (λ y, y ≠ x) (deduplicate l).
Proof.
  unfold deduplicate at 1. simpl. rewrite lookup_empty.
  rewrite (deduplicate_loop_filter l (<[x := true]> ∅) [x]).
  - simpl. f_equal. apply list_filter_iff. intros y.
    by rewrite list_elem_of_singleton.
  - intros y. rewrite lookup_insert_is_Some, lookup_empty, list_elem_of_singleton.
    split; [intros [?|[_ []]]; done|intros ->; by left].
Qed.

Lemma deduplicate_NoDup_id l : NoDup l → deduplicate l = l.
Proof.
  induction 1 as [|x l Hx Hnd IH]; [done|].
  rewrite deduplicate_cons, IH. f_equal. apply filter_all. by intros y Hy ->.
Qed.

Lemma scanned_bound record i n : scanned record i n → (n ≤ remaining record i)%nat.
Proof.
  revert i. induction n as [|n IH]; intros i Hscan; [lia|].
  assert (¬ action_empty record i) as Hne by (apply Hscan; lia).
  assert (scanned record (i + 1) n) as Hscan'.
  { intros k Hk. apply Hscan. lia. }
  pose proof (IH _ Hscan'). pose proof (remaining_step record i Hne). lia.
Qed.

Lemma out_Sum_elem ous o : o ∈ ous → Z.of_N (out_Quantity o) ≤ out_Sum ous.
Proof.
  rewrite out_Sum_Zsum. induction 1 as [o ous|o o' ous Ho IH]; simpl.
  - pose proof (Zsum_nonneg (λ o, Z.of_N (out_Quantity o)) ous
                  ltac:(intros; simpl; lia)). lia.
  - lia.
Qed.

Lemma in_EnrollmentIDs_nonempty ins e : e ∈ in_EnrollmentIDs ins → e ≠ "".
Proof.
  unfold in_EnrollmentIDs. rewrite elem_of_deduplicate, list_elem_of_filter. tauto.
Qed.

End AuditMore.

(** X1.  [deduplicate] keeps the first occurrence of every item, in order:
    the head stays and is removed from what follows.  So its result has no
    duplicates, holds the items of the source and no others, and a slice
    without duplicates comes back as it is; deduplicating twice changes
    nothing. *)
Theorem deduplicate_first_occurrences (x : string) (l : list string) :
  deduplicate [] = [] ∧
  deduplicate (x :: l) = x :: filter (λ y, y ≠ x) (deduplicate l) ∧
  NoDup (deduplicate l) ∧
  (∀ y, y ∈ deduplicate l ↔ y ∈ l) ∧
  deduplicate (deduplicate l) = deduplicate l.
Proof.
  split_and!.
  - done.
  - apply deduplicate_cons.
  - apply NoDup_deduplicate.
  - apply elem_of_deduplicate.
  - apply deduplicate_NoDup_id, NoDup_deduplicate.
Qed.

(** X2.  [TransactionRecords] returns on every audit record: every
    iteration that goes on has used up an input or an output, so the loop
    passes at most as many actions as there are inputs and outputs.  When it
    returns records, they are those of that many actions from 0. *)
Theorem TransactionRecords_terminates record ts :
  ∃ r, TransactionRecords record ts = Some r ∧
    ∀ txs, r = inr txs →
      ∃ n : nat, (n ≤ length (Inputs record) + length (Outputs record))%nat ∧
        txs = seqZ 0 (Z.of_nat n) ≫= records_of_action record ts.
Proof.
  destruct (TransactionRecords_total record ts) as [r Hrun]. exists r.
  split; [done|]. intros txs ->.
  apply TransactionRecords_loop_inr in Hrun as (n & -> & Hscan & _).
  exists n. split; [|done].
  pose proof (scanned_bound _ _ _ Hscan). pose proof (remaining_bound record 0). lia.
Qed.

(** X3.  No output of a scanned action is lost: when [TransactionRecords]
    returns records, every output with a positive quantity that belongs to
    an action reached by the scan is covered by a record for its recipient
    and token type, whose amount is at least the output's quantity. *)
Theorem TransactionRecords_covers_outputs record ts txs o :
  TransactionRecords record ts = Some (inr txs) →
  o ∈ Outputs record → reached record (out_ActionIndex o) →
  (0 < out_Quantity o)%N →
  ∃ tx, tx ∈ txs ∧ RecipientEID tx = out_EnrollmentID o ∧
    TokenType tx = out_Type o ∧ Z.of_N (out_Quantity o) ≤ Amount tx.
Proof.
  intros Hrun Ho Hreach Hpos.
  apply TransactionRecords_loop_inr in Hrun as (n & -> & Hscan & Hend).
  rewrite Z.add_0_l in Hend. rewrite app_nil_l.
  apply (reached_iff record n _ Hscan Hend) in Hreach.
  set (k := out_ActionIndex o) in *.
  assert (k ≠ Z.of_nat n) as Hne.
  { intros Heq. apply (action_ous_elem record o Ho). fold k. by rewrite Heq. }
  assert (o ∈ action_ous record k) as Hok by (by apply list_elem_of_filter).
  set (received := out_Sum (out_ByType (out_Type o)
                     (out_ByEnrollmentID (out_EnrollmentID o) (action_ous record k)))).
  assert (Z.of_N (out_Quantity o) ≤ received) as Hle.
  { apply out_Sum_elem. unfold out_ByType, out_ByEnrollmentID.
    apply list_elem_of_filter. split; [done|]. by apply list_elem_of_filter. }
  eexists. split.
  - apply list_elem_of_bind. exists k. split; [|apply elem_of_seqZ; lia].
    unfold records_of_action. apply elem_of_action_records.
    exists (out_EnrollmentID o), (out_Type o). split_and!; [| | |done].
    + by apply elem_of_outEIDs.
    + by apply elem_of_outTT.
    + fold received. lia.
  - simpl. done.
Qed.

(** X3, witness: the 70 USD that bob receives in the transfer. *)
Lemma TransactionRecords_covers_outputs_witness :
  ∃ tx, tx ∈ [mkTransactionRecord "T1" Transfer "alice" "bob" "USD" 70 7 Pending;
              mkTransactionRecord "T1" Transfer "alice" "alice" "USD" 30 7 Pending] ∧
    RecipientEID tx = "bob" ∧ TokenType tx = "USD" ∧ 70 ≤ Amount tx.
Proof.
  apply (TransactionRecords_covers_outputs transfer_record 7 _
           (mkOutput 0 "bob" "USD" 70)).
  - vm_compute. reflexivity.
  - left.
  - split; [simpl; lia|]. rewrite seqZ_nil by (simpl; lia). constructor.
  - reflexivity.
Defined.

(** X4.  The action type of an emitted record is a function of which of
    its two enrollment ids are empty: issue when the sender is empty,
    redeem when only the recipient is, transfer when neither is. *)
Theorem TransactionRecords_type_by_emptiness record ts txs tx :
  TransactionRecords record ts = Some (inr txs) → tx ∈ txs →
  ActionTy tx =
    if decide (SenderEID tx = "") then Issue
    else if decide (RecipientEID tx = "") then Redeem else Transfer.
Proof.
  intros Hrun Htx.
  apply TransactionRecords_loop_inr in Hrun as (n & -> & Hscan & _).
  rewrite app_nil_l in Htx.
  apply list_elem_of_bind in Htx as (k & Htx & Hk%elem_of_seqZ).
  destruct (Hscan k Hk) as [_ Hlen].
  unfold records_of_action in Htx.
  apply elem_of_action_records in Htx as (outEID & tokenType & _ & _ & _ & ->).
  simpl. unfold actionType.
  pose proof (in_EnrollmentIDs_nonempty (action_ins record k)) as Hnonempty.
  fold (action_inEIDs record k) in Hnonempty.
  destruct (action_inEIDs record k) as [|e [|e' l]] eqn:Heq; simpl in *.
  - done.
  - assert (e ≠ "") by (apply Hnonempty; left).
    repeat case_decide; try done; destruct outEID; done.
  - lia.
Qed.

(** X4, witness: the record for bob in the transfer. *)
Lemma TransactionRecords_type_by_emptiness_witness :
  ActionTy (mkTransactionRecord "T1" Transfer "alice" "bob" "USD" 70 7 Pending)
  = Transfer.
Proof.
  apply (TransactionRecords_type_by_emptiness transfer_record 7
           [mkTransactionRecord "T1" Transfer "alice" "bob" "USD" 70 7 Pending;
            mkTransactionRecord "T1" Transfer "alice" "alice" "USD" 30 7 Pending]).
  - vm_compute. reflexivity.
  - left.
Defined.

(** X5.  [Movements] returns one record for every enrollment id of
    [joinIOEIDs] and every token type of the outputs, in that order; each
    record is pending and its amount cell holds what the enrollment id
    received in that type minus what it sent. *)
Theorem Movements_one_record_per_pair record created h :
  (λ r, (mv_EnrollmentID r, mv_TokenType r)) <$> (Movements record created h).1
  = (eID ← joinIOEIDs record;
     tokenType ← out_TokenTypes (Outputs record); [(eID, tokenType)]) ∧
  Forall (λ r,
            value (Movements record created h).2 (mv_Amount r)
            = out_Sum (out_ByType (mv_TokenType r)
                         (out_ByEnrollmentID (mv_EnrollmentID r) (Outputs record)))
              - in_Sum (in_ByType (mv_TokenType r)
                          (in_ByEnrollmentID (mv_EnrollmentID r) (Inputs record))) ∧
            mv_Status r = Pending)
         (Movements record created h).1.
Proof.
  destruct (Movements_spec record created h) as [Hkeys Hok]. split; [done|].
  eapply Forall_impl; [exact Hok|]. intros r (_ & Hval & Hst). done.
Qed.

(** X6.  [Movements] goes through the token types of the outputs only: a
    record of it never carries a type that no output has, nor the empty
    enrollment id; and an audit record without outputs yields no movement,
    whatever its inputs. *)
Theorem Movements_output_types_only record created h :
  (∀ r, r ∈ (Movements record created h).1 →
     mv_TokenType r ∈ out_Type <$> Outputs record ∧ mv_EnrollmentID r ≠ "") ∧
  (Outputs record = [] → (Movements record created h).1 = []).
Proof.
  destruct (Movements_spec record created h) as [Hkeys _].
  assert (∀ r, r ∈ (Movements record created h).1 →
            (mv_EnrollmentID r, mv_TokenType r) ∈ movement_pairs record) as Hin.
  { intros r Hr. rewrite <- Hkeys.
    apply (list_elem_of_fmap_2 (λ r, (mv_EnrollmentID r, mv_TokenType r))). done. }
  split.
  - intros r Hr. apply Hin in Hr. unfold movement_pairs in Hr.
    apply list_elem_of_bind in Hr as (e & Hr & He).
    apply list_elem_of_bind in Hr as (t & Hr & Ht).
    apply list_elem_of_singleton in Hr. injection Hr as -> ->. split.
    + unfold out_TokenTypes in Ht. by rewrite elem_of_deduplicate in Ht.
    + unfold joinIOEIDs in He. rewrite elem_of_deduplicate, elem_of_app in He.
      unfold in_EnrollmentIDs, out_EnrollmentIDs in He.
      rewrite !elem_of_deduplicate, !list_elem_of_filter in He. tauto.
  - intros Hnil. destruct ((Movements record created h).1) as [|r mv] eqn:Hmv; [done|].
    exfalso. specialize (Hin r ltac:(left)). unfold movement_pairs in Hin.
    rewrite Hnil in Hin. simpl in Hin.
    apply list_elem_of_bind in Hin as (e & Hin & _). by apply elem_of_nil in Hin.
Qed.

(** X6, witness: alice redeems 50 USD, no output is listed, no movement. *)
Lemma Movements_output_types_only_witness :
  (Movements bare_redeem_record 7 []).1 = [].
Proof.
  apply (proj2 (Movements_output_types_only bare_redeem_record 7 [])). reflexivity.
Defined.

(** X7.  [joinIOEIDs] lists every non-empty enrollment id found among the
    inputs or the outputs, once. *)
Theorem joinIOEIDs_spec record :
  NoDup (joinIOEIDs record) ∧
  ∀ x, x ∈ joinIOEIDs record ↔
       x ≠ "" ∧ (x ∈ in_EnrollmentID <$> Inputs record ∨
                 x ∈ out_EnrollmentID <$> Outputs record).
Proof.
  split; [apply NoDup_deduplicate|]. intros x. unfold joinIOEIDs.
  rewrite elem_of_deduplicate, elem_of_app.
  unfold in_EnrollmentIDs, out_EnrollmentIDs.
  rewrite !elem_of_deduplicate, !list_elem_of_filter. tauto.
Qed.

(** ** The transaction store front *)

Module TTXDBMore.

Import TTXDB TTXDBFacts.

Section Facts.

Context {C : Type} `{Cache C}.

Lemma backend_Commit_success w b b' :
  backend_Commit w b = (None, b') →
  requests b' = foldl (λ m kv, <[kv.1 := kv.2]> m) (requests b) (w_requests w) ∧
  transactions b' = transactions b ++ w_transactions w ∧
  validations b' = validations b ++ w_validations w ∧
  status_messages b' = status_messages b.
Proof.
  unfold backend_Commit. pose proof (fault_rows b) as (Hr & Ht & Hv & Hs).
  destruct (fault b) as [[e|] b0]; [done|]. simpl in *.
  intros [= <-]. simpl. by rewrite Hr, Ht, Hv, Hs.
Qed.

(** The records go to the handle one by one, in order, up to the first
    that the backend refuses. *)
Lemma add_transactions_trace txs w (d : DB C) :
  ∃ r w' d' m,
    add_transactions w txs d = Some ((r, w'), d') ∧
    support d' = support d ∧ cache d' = cache d ∧ same_rows (db d) (db d') ∧
    calls d' = calls d ++ (AddTransaction <$> take m txs) ∧
    (m ≤ length txs)%nat ∧
    (r = None →
       m = length txs ∧
       w' = mkAtomicWrite (w_requests w) (w_transactions w ++ txs) (w_validations w)).
Proof.
  revert w d. induction txs as [|tx txs IH]; intros w d; simpl.
  - exists None, w, d, 0%nat. unfold ret. simpl. rewrite !app_nil_r.
    split_and!; try done. intros _. split; [done|]. by destruct w.
  - unfold bind at 1. unfold on_backend.
    pose proof (backend_AddTransaction_rows w tx (db d)) as Hrows.
    assert (∀ w1 b1, backend_AddTransaction w tx (db d) = (None, w1, b1) →
              w1 = mkAtomicWrite (w_requests w) (w_transactions w ++ [tx])
                     (w_validations w)) as Hhandle.
    { unfold backend_AddTransaction. destruct (fault (db d)) as [[e|] b0]; [done|].
      by intros w1 b1 [= <- <-]. }
    destruct (backend_AddTransaction w tx (db d)) as [[[e|] w1] b1]; simpl in *.
    + eexists _, _, _, 1%nat. unfold ret. simpl.
      split_and!; try done. lia.
    + rewrite (Hhandle w1 b1 eq_refl).
      destruct (IH (mkAtomicWrite (w_requests w) (w_transactions w ++ [tx])
                      (w_validations w))
                  (mkDB (support d) b1 (cache d) (calls d ++ [AddTransaction tx])))
        as (r & w' & d' & m & -> & Hsup & Hcache & Hrows' & Hcalls & Hm & Hw).
      simpl in *. exists r, w', d', (S m). simpl.
      split_and!; try done.
      * by etrans.
      * by rewrite Hcalls, <- app_assoc.
      * lia.
      * intros Hr. destruct (Hw Hr) as [-> ->]. by rewrite <- app_assoc.
Qed.

(** A run of [AppendTransactionRecord], by where it ends. *)
Lemma AppendTransactionRecord_trace req now (d : DB C) r d' :
  AppendTransactionRecord req now d = Some (r, d') →
  support d' = support d ∧
  ((is_Some r ∧ d' = d) ∨
   (is_Some r ∧ same_rows (db d) (db d') ∧ calls d' = calls d ++ [BeginAtomicWrite]) ∨
   (∃ record raw txs,
      request_record req = Some record ∧ req_Bytes req = inr raw ∧
      TransactionRecords record now = Some (inr txs) ∧
      ((is_Some r ∧ same_rows (db d) (db d') ∧
        ∃ m, (m ≤ length txs)%nat ∧
          calls d' = calls d ++ append_calls (req_Anchor req) raw txs m Rollback) ∨
       (is_Some r ∧ same_rows (db d) (db d') ∧
        calls d' = calls d ++ append_calls (req_Anchor req) raw txs (length txs) Commit) ∨
       (r = None ∧
        calls d' = calls d ++ append_calls (req_Anchor req) raw txs (length txs) Commit ∧
        requests (db d') = <[req_Anchor req := raw]> (requests (db d)) ∧
        transactions (db d') = transactions (db d) ++ txs ∧
        validations (db d') = validations (db d) ∧
        status_messages (db d') = status_messages (db d))))).
Proof.
  unfold AppendTransactionRecord, request_record.
  destruct (req_InputsAndOutputs req) as [err|[ins outs]].
  { unfold ret. intros [= <- <-]. split; [done|]. left. eauto. }
  destruct (req_Bytes req) as [err|raw] eqn:Hbytes.
  { unfold ret. intros [= <- <-]. split; [done|]. left. eauto. }
  destruct (TransactionRecords _ now) as [[err|txs]|] eqn:Htxs; [| |done].
  { unfold ret. intros [= <- <-]. split; [done|]. left. eauto. }
  simpl. unfold bind at 1. unfold on_backend at 1.
  pose proof (backend_BeginAtomicWrite_rows (db d)) as Hbegin.
  assert (∀ w b, backend_BeginAtomicWrite (db d) = (inr w, b) → w = mkAtomicWrite [] [] [])
    as Hfresh.
  { unfold backend_BeginAtomicWrite. destruct (fault (db d)) as [[e|] b0]; [done|].
    by intros w b [= <- <-]. }
  destruct (backend_BeginAtomicWrite (db d)) as [[err|w] b0]; simpl in Hbegin.
  { unfold ret. intros [= <- <-]. split; [done|]. right. left. eauto. }
  rewrite (Hfresh w b0 eq_refl). clear Hfresh w.
  unfold bind at 1, cache_Add at 1. unfold bind at 1, on_backend at 1. simpl.
  pose proof (backend_AddTokenRequest_rows (mkAtomicWrite [] [] []) (req_Anchor req) raw b0)
    as Hreq.
  assert (∀ w1 b1, backend_AddTokenRequest (mkAtomicWrite [] [] []) (req_Anchor req) raw b0
                   = (None, w1, b1) →
            w1 = mkAtomicWrite [(req_Anchor req, raw)] [] []) as Hhandle.
  { unfold backend_AddTokenRequest. destruct (fault b0) as [[e|] b]; [done|].
    case_decide; [done|]. by intros w1 b1 [= <- <-]. }
  destruct (backend_AddTokenRequest _ _ raw b0) as [[[err|] w1] b1]; simpl in Hreq.
  { unfold bind, on_backend, backend_Rollback, ret. simpl.
    intros [= <- <-]. split; [done|]. right. right.
    eexists _, raw, txs. split_and!; [done|done|done|]. left. simpl.
    split_and!; [eauto|by etrans|]. exists 0%nat. split; [lia|].
    unfold append_calls. rewrite take_0. simpl. by rewrite <- !app_assoc. }
  rewrite (Hhandle w1 b1 eq_refl). clear Hhandle w1.
  unfold bind at 1.
  destruct (add_transactions_trace txs (mkAtomicWrite [(req_Anchor req, raw)] [] [])
              (mkDB (support d) b1 (Add (req_Anchor req) raw (cache d))
                 (((calls d ++ [BeginAtomicWrite]) ++ [CacheAdd (req_Anchor req) raw])
                  ++ [AddTokenRequest (req_Anchor req) raw])))
    as (r1 & w2 & d2 & m & -> & Hsup & Hcache & Hrows & Hcalls & Hm & Hw).
  simpl in *.
  assert (same_rows (db d) (db d2)) as Hrows2.
  { etrans; [exact Hbegin|]. etrans; [exact Hreq|]. exact Hrows. }
  destruct r1 as [err|].
  { unfold bind, on_backend, backend_Rollback, ret. simpl.
    intros [= <- <-]. split; [done|]. right. right.
    eexists _, raw, txs. split_and!; [done|done|done|]. left. simpl.
    split_and!; [eauto|done|]. exists m. split; [done|].
    unfold append_calls. rewrite Hcalls, <- !app_assoc. done. }
  destruct (Hw eq_refl) as [-> ->]. unfold bind, on_backend, ret.
  pose proof (backend_Commit_rows (mkAtomicWrite [(req_Anchor req, raw)] ([] ++ txs) [])
                (db d2)) as Hcommit.
  pose proof (backend_Commit_success (mkAtomicWrite [(req_Anchor req, raw)] ([] ++ txs) [])
                (db d2)) as Hsuccess.
  destruct (backend_Commit _ (db d2)) as [[err|] b3].
  - intros [= <- <-]. split; [done|]. right. right.
    eexists _, raw, txs. split_and!; [done|done|done|]. right. left. simpl.
    split_and!; [eauto|by etrans|].
    unfold append_calls. rewrite Hcalls, firstn_all, <- !app_assoc. done.
  - intros [= <- <-]. split; [done|]. right. right.
    eexists _, raw, txs. split_and!; [done|done|done|]. right. right. simpl.
    destruct (Hsuccess b3 eq_refl) as (Hr & Ht & Hv & Hs). simpl in *.
    destruct Hrows2 as (Hr2 & Ht2 & Hv2 & Hs2).
    split_and!; [done| | | | |].
    + unfold append_calls. rewrite Hcalls, firstn_all, <- !app_assoc. done.
    + by rewrite Hr, Hr2.
    + by rewrite Ht, Ht2.
    + by rewrite Hv, Hv2, app_nil_r.
    + by rewrite Hs, Hs2.
Qed.

End Facts.

(** X8.  The calls of [AppendTransactionRecord], in order.  A run makes no
    call at all, or only [BeginAtomicWrite], or it adds the request to the
    cache and to the write handle and then sends the records of
    [TransactionRecords] one by one, in their order; it ends with [Commit],
    sent only after every record, or with [Rollback], sent after the first
    statement that fails.  A run that returns nil ended with [Commit]. *)
Theorem AppendTransactionRecord_statement_order {C : Type} `{Cache C}
    req now (d : DB C) r d' :
  AppendTransactionRecord req now d = Some (r, d') →
  ∃ evs, calls d' = calls d ++ evs ∧
    (is_Some r ∧ (evs = [] ∨ evs = [BeginAtomicWrite]) ∨
     ∃ record raw txs m last,
       request_record req = Some record ∧ req_Bytes req = inr raw ∧
       TransactionRecords record now = Some (inr txs) ∧
       evs = append_calls (req_Anchor req) raw txs m last ∧
       (last = Rollback ∧ is_Some r ∧ (m ≤ length txs)%nat ∨
        last = Commit ∧ m = length txs)).
Proof.
  intros Hrun.
  apply AppendTransactionRecord_trace in Hrun as [_ [[Hr ->]|[(Hr & _ & Hcalls)|Hrun]]].
  - exists []. rewrite app_nil_r. split; [done|]. left. eauto.
  - exists [BeginAtomicWrite]. split; [done|]. left. eauto.
  - destruct Hrun as (record & raw & txs & Hrec & Hbytes & Htxs & Hend).
    destruct Hend as [(Hr & _ & m & Hm & Hcalls)|[(Hr & _ & Hcalls)|(-> & Hcalls & _)]].
    + eexists. split; [exact Hcalls|]. right.
      exists record, raw, txs, m, Rollback. split_and!; try done. left. done.
    + eexists. split; [exact Hcalls|]. right.
      exists record, raw, txs, (length txs), Commit. split_and!; try done. right. done.
    + eexists. split; [exact Hcalls|]. right.
      exists record, raw, txs, (length txs), Commit. split_and!; try done. right. done.
Qed.

(** X8, witness: the request of the transfer on a backend without faults. *)
Lemma AppendTransactionRecord_statement_order_witness :
  ∃ d' evs, AppendTransactionRecord sample_request 7 (sample_db []) = Some (None, d') ∧
    calls d' = [] ++ evs ∧
    (is_Some (@None error) ∧ (evs = [] ∨ evs = [BeginAtomicWrite]) ∨
     ∃ record raw txs m last,
       request_record sample_request = Some record ∧
       req_Bytes sample_request = inr raw ∧
       TransactionRecords record 7 = Some (inr txs) ∧
       evs = append_calls "T1" raw txs m last ∧
       (last = Rollback ∧ is_Some (@None error) ∧ (m ≤ length txs)%nat ∨
        last = Commit ∧ m = length txs)).
Proof.
  eexists. 
  assert (∀ d', AppendTransactionRecord sample_request 7 (sample_db []) = Some (None, d') →
            ∃ evs, calls d' = [] ++ evs ∧ _) as Hthm
    by (intros d'; apply (AppendTransactionRecord_statement_order sample_request 7
                            (sample_db []) None d')).
  edestruct Hthm as (evs & Hevs); [vm_compute; reflexivity|].
  exists evs. split; [vm_compute; reflexivity|exact Hevs].
Defined.

(** X9.  [AppendTransactionRecord] is all or nothing on the backend and
    never notifies.  When it returns an error the rows of the backend are as
    before the call, wherever it failed.  When it returns nil the backend
    holds the request under the anchor and, after the records it held, the
    records of [TransactionRecords] in their order; validation records and
    status messages are untouched. *)
Theorem AppendTransactionRecord_all_or_nothing {C : Type} `{Cache C}
    req now (d : DB C) r d' :
  AppendTransactionRecord req now d = Some (r, d') →
  support d' = support d ∧
  match r with
  | Some _ => same_rows (db d) (db d')
  | None =>
      ∃ record raw txs,
        request_record req = Some record ∧ req_Bytes req = inr raw ∧
        TransactionRecords record now = Some (inr txs) ∧
        requests (db d') = <[req_Anchor req := raw]> (requests (db d)) ∧
        transactions (db d') = transactions (db d) ++ txs ∧
        validations (db d') = validations (db d) ∧
        status_messages (db d') = status_messages (db d)
  end.
Proof.
  intros Hrun.
  apply AppendTransactionRecord_trace in Hrun as [Hsup [[Hr ->]|[(Hr & Hrows & _)|Hrun]]].
  - split; [done|]. destruct Hr as [e ->]. reflexivity.
  - split; [done|]. by destruct Hr as [e ->].
  - split; [done|].
    destruct Hrun as (record & raw & txs & Hrec & Hbytes & Htxs & Hend).
    destruct Hend as [([e ->] & Hrows & _)|[([e ->] & Hrows & _)|(-> & _ & Hrest)]];
      [done|done|].
    exists record, raw, txs. tauto.
Qed.

(** X9, witness: a run that commits, and one whose second record is refused. *)
Lemma AppendTransactionRecord_all_or_nothing_witness :
  (∃ d', AppendTransactionRecord sample_request 7 (sample_db []) = Some (None, d') ∧
     transactions (db d')
     = [mkTransactionRecord "T1" Transfer "alice" "bob" "USD" 70 7 Pending;
        mkTransactionRecord "T1" Transfer "alice" "alice" "USD" 30 7 Pending]) ∧
  (∃ e d', AppendTransactionRecord sample_request 7
             (sample_db [None; None; None; Some disk_full]) = Some (Some e, d') ∧
     same_rows (db (sample_db [None; None; None; Some disk_full])) (db d')).
Proof.
  split.
  - eexists. split; [vm_compute; reflexivity|].
    edestruct (AppendTransactionRecord_all_or_nothing sample_request 7 (sample_db []))
      as [_ Hres]; [vm_compute; reflexivity|].
    simpl in Hres. destruct Hres as (record & raw & txs & Hrec & _ & Htxs & _ & Ht & _).
    injection Hrec as <-. vm_compute in Htxs. injection Htxs as <-. exact Ht.
  - eexists _, _. split; [vm_compute; reflexivity|].
    edestruct (AppendTransactionRecord_all_or_nothing sample_request 7
                 (sample_db [None; None; None; Some disk_full]))
      as [_ Hres]; [vm_compute; reflexivity|].
    exact Hres.
Defined.

(** X10.  A request whose decomposition fails is refused before anything is
    written: when an action reached by the scan has inputs with two distinct
    enrollment ids, [AppendTransactionRecord] returns an error and the store
    is as it was, call log included: no backend call, no cache entry. *)
Theorem AppendTransactionRecord_refuses_two_senders {C : Type} `{Cache C}
    req now (d : DB C) record raw k :
  request_record req = Some record → req_Bytes req = inr raw →
  reached record k → (1 < length (action_inEIDs record k))%nat →
  ∃ e, AppendTransactionRecord req now d
       = Some (Some (Wrapf e "failed parsing transactions from audit record"), d).
Proof.
  intros Hrec Hbytes Hreach Hlen.
  assert (∃ e, TransactionRecords record now = Some (inl e)) as [e He].
  { destruct (TransactionRecords_total record now) as [[e|txs] Hrun]; [by exists e|].
    exfalso. apply TransactionRecords_loop_inr in Hrun as (n & _ & Hscan & Hend).
    rewrite Z.add_0_l in Hend.
    apply (reached_iff record n k Hscan Hend) in Hreach.
    destruct (decide (k = Z.of_nat n)) as [->|Hne].
    - rewrite (action_empty_inEIDs _ _ Hend) in Hlen. simpl in Hlen. lia.
    - destruct (Hscan k) as [_ Hle]; lia. }
  exists e. unfold AppendTransactionRecord. unfold request_record in Hrec.
  destruct (req_InputsAndOutputs req) as [err|[ins outs]]; [done|].
  injection Hrec as <-. rewrite Hbytes, He. done.
Qed.

(** X10, witness: the request with two senders. *)
Lemma AppendTransactionRecord_refuses_two_senders_witness :
  ∃ e, AppendTransactionRecord two_senders_request 7 (sample_db [])
       = Some (Some (Wrapf e "failed parsing transactions from audit record"),
               sample_db []).
Proof.
  apply (AppendTransactionRecord_refuses_two_senders two_senders_request 7 (sample_db [])
           two_senders_record [Byte.x03] 0).
  - reflexivity.
  - reflexivity.
  - split; [lia|]. rewrite seqZ_nil by lia. constructor.
  - vm_compute. lia.
Defined.

(** X11.  [AppendValidationRecord]: its calls are one of four sequences,
    with [Commit] sent only after the request and the validation record were
    accepted and [Rollback] right after the statement that failed; it never
    notifies; on an error the rows of the backend are as before; on nil the
    backend holds the request under the tx-id and the validation record
    after those it held. *)
Theorem AppendValidationRecord_all_or_nothing {C : Type} `{Cache C}
    txID tokenRequest meta ppHash (d : DB C) r d' :
  AppendValidationRecord txID tokenRequest meta ppHash d = Some (r, d') →
  support d' = support d ∧
  (∃ evs, calls d' = calls d ++ evs ∧ evs ∈ validation_calls txID tokenRequest) ∧
  match r with
  | Some _ => same_rows (db d) (db d')
  | None =>
      calls d' = calls d ++ [BeginAtomicWrite; CacheAdd txID tokenRequest;
                             AddTokenRequest txID tokenRequest;
                             AddValidationRecord txID; Commit] ∧
      requests (db d') = <[txID := tokenRequest]> (requests (db d)) ∧
      transactions (db d') = transactions (db d) ∧
      validations (db d') = validations (db d) ++ [(txID, meta)]
  end.
Proof.
  unfold AppendValidationRecord, validation_calls.
  unfold bind at 1. unfold on_backend at 1.
  pose proof (backend_BeginAtomicWrite_rows (db d)) as Hbegin.
  assert (∀ w b, backend_BeginAtomicWrite (db d) = (inr w, b) → w = mkAtomicWrite [] [] [])
    as Hfresh.
  { unfold backend_BeginAtomicWrite. destruct (fault (db d)) as [[e|] b0]; [done|].
    by intros w b [= <- <-]. }
  destruct (backend_BeginAtomicWrite (db d)) as [[err|w] b0]; simpl in Hbegin.
  { unfold ret. intros [= <- <-]. simpl. split_and!; [done| |done].
    eexists. split; [done|]. left. }
  rewrite (Hfresh w b0 eq_refl). clear Hfresh w.
  unfold bind at 1, cache_Add at 1. unfold bind at 1, on_backend at 1. simpl.
  pose proof (backend_AddTokenRequest_rows (mkAtomicWrite [] [] []) txID tokenRequest b0)
    as Hreq.
  assert (∀ w1 b1, backend_AddTokenRequest (mkAtomicWrite [] [] []) txID tokenRequest b0
                   = (None, w1, b1) →
            w1 = mkAtomicWrite [(txID, tokenRequest)] [] []) as Hhandle.
  { unfold backend_AddTokenRequest. destruct (fault b0) as [[e|] b]; [done|].
    case_decide; [done|]. by intros w1 b1 [= <- <-]. }
  destruct (backend_AddTokenRequest _ _ tokenRequest b0) as [[[err|] w1] b1]; simpl in Hreq.
  { unfold bind, on_backend, backend_Rollback, ret. simpl.
    intros [= <- <-]. simpl. split_and!; [done| |by etrans].
    eexists. split; [by rewrite <- !app_assoc|]. right. left. }
  rewrite (Hhandle w1 b1 eq_refl). clear Hhandle w1.
  unfold bind at 1, on_backend at 1. simpl.
  pose proof (backend_AddValidationRecord_rows
                (mkAtomicWrite [(txID, tokenRequest)] [] []) txID meta b1) as Hval.
  assert (∀ w2 b2, backend_AddValidationRecord
                     (mkAtomicWrite [(txID, tokenRequest)] [] []) txID meta b1
                   = (None, w2, b2) →
            w2 = mkAtomicWrite [(txID, tokenRequest)] [] [(txID, meta)]) as Hhandle.
  { unfold backend_AddValidationRecord. destruct (fault b1) as [[e|] b]; [done|].
    by intros w2 b2 [= <- <-]. }
  destruct (backend_AddValidationRecord _ txID meta b1) as [[[err|] w2] b2]; simpl in Hval.
  { unfold bind, on_backend, backend_Rollback, ret. simpl.
    intros [= <- <-]. simpl. split_and!; [done| |].
    - eexists. split; [by rewrite <- !app_assoc|]. right. right. left.
    - etrans; [exact Hbegin|]. by etrans. }
  rewrite (Hhandle w2 b2 eq_refl). clear Hhandle w2.
  unfold bind, on_backend, ret. simpl.
  pose proof (backend_Commit_rows
                (mkAtomicWrite [(txID, tokenRequest)] [] [(txID, meta)]) b2) as Hcommit.
  pose proof (backend_Commit_success
                (mkAtomicWrite [(txID, tokenRequest)] [] [(txID, meta)]) b2) as Hsuccess.
  assert (same_rows (db d) b2) as Hrows.
  { etrans; [exact Hbegin|]. by etrans. }
  destruct (backend_Commit _ b2) as [[err|] b3].
  - intros [= <- <-]. simpl. split_and!; [done| |by etrans].
    eexists. split; [by rewrite <- !app_assoc|]. do 3 right. left.
  - intros [= <- <-]. simpl. split_and!; [done| | | | |].
    + eexists. split; [by rewrite <- !app_assoc|]. do 3 right. left.
    + by rewrite <- !app_assoc.
    + destruct (Hsuccess b3 eq_refl) as (-> & _). by destruct Hrows as (-> & _).
    + destruct (Hsuccess b3 eq_refl) as (_ & -> & _). simpl. rewrite app_nil_r.
      by destruct Hrows as (_ & -> & _).
    + destruct (Hsuccess b3 eq_refl) as (_ & _ & -> & _).
      by destruct Hrows as (_ & _ & -> & _).
Qed.

(** X11, witness: a validation record stored on a backend without faults. *)
Lemma AppendValidationRecord_all_or_nothing_witness :
  ∃ d', AppendValidationRecord "T1" [Byte.x01] [("k", [Byte.x02])] [] (sample_db [])
        = Some (None, d') ∧
    validations (db d') = [("T1", [("k", [Byte.x02])])].
Proof.
  eexists. split; [vm_compute; reflexivity|].
  refine ((λ Hrun,
             proj2 (proj2 (proj2 (proj2 (proj2
               (AppendValidationRecord_all_or_nothing "T1" [Byte.x01]
                  [("k", [Byte.x02])] [] (sample_db []) None _ Hrun)))))) _).
  vm_compute. reflexivity.
Defined.

(** X12.  Events reach the listeners in the order of the calls: after two
    calls of [SetStatus] every listener holds what it held, then the event of
    the first call if that returned nil, then the event of the second if that
    returned nil. *)
Theorem SetStatus_events_in_order {C : Type} `{Cache C}
    (TxStatusMessage : TxStatus → string)
    txID1 status1 message1 txID2 status2 message2 (d : DB C) r1 d1 r2 d2 :
  SetStatus TxStatusMessage txID1 status1 message1 d = Some (r1, d1) →
  SetStatus TxStatusMessage txID2 status2 message2 d1 = Some (r2, d2) →
  listeners (support d2)
  = (λ queue, queue ++ published r1 txID1 status1 ++ published r2 txID2 status2)
      <$> listeners (support d).
Proof.
  rewrite !SetStatus_run. intros Hrun1 Hrun2.
  destruct (backend_SetStatus txID1 status1 message1 (db d)) as [[e1|] b1];
    injection Hrun1 as <- <-; simpl in Hrun2;
    destruct (backend_SetStatus txID2 status2 message2 b1) as [[e2|] b2];
    injection Hrun2 as <- <-; simpl.
  - rewrite <- (list_fmap_id (listeners (support d))) at 1.
    apply list_fmap_ext. intros i q _. simpl. by rewrite app_nil_r.
  - done.
  - done.
  - rewrite <- list_fmap_compose. apply list_fmap_ext. intros i q _. simpl.
    by rewrite <- app_assoc.
Qed.

(** X12, witness: T1 confirmed, then T2 deleted. *)
Lemma SetStatus_events_in_order_witness :
  ∃ d1 d2, SetStatus sample_names "T1" Confirmed "" (sample_db []) = Some (None, d1) ∧
    SetStatus sample_names "T2" Deleted "" d1 = Some (None, d2) ∧
    listeners (support d2)
    = [[mkStatusEvent "T1" Confirmed; mkStatusEvent "T2" Deleted];
       [mkStatusEvent "T1" Confirmed; mkStatusEvent "T2" Deleted]].
Proof.
  eexists _, _. split; [vm_compute; reflexivity|]. split; [vm_compute; reflexivity|].
  eapply (SetStatus_events_in_order sample_names "T1" Confirmed "" "T2" Deleted ""
            (sample_db []) None _ None); vm_compute; reflexivity.
Defined.

End TTXDBMore.

(** ** The reconciliation status check *)

Module ReconcileMore.

Import TTXDB Reconcile.

(** X13.  The vault check appends at most one message for a record, and
    every message names the record's tx-id.  It appends nothing exactly when
    the vault reports valid and the store holds the record as confirmed or
    unknown, or invalid and the store deleted or unknown, or busy and the
    store pending or unknown; an unknown vault status is always reported. *)
Theorem cross_check_table (TxStatusMessage : TxStatus → string) vc tr :
  (length (cross_check TxStatusMessage vc tr) ≤ 1)%nat ∧
  (∀ msg, msg ∈ cross_check TxStatusMessage vc tr →
     ∃ what, msg = "transaction record [" +:+ TxID tr +:+ "] is " +:+ what) ∧
  (cross_check TxStatusMessage vc tr = [] ↔
     vc = Valid ∧ (Status tr = Confirmed ∨ Status tr = Audit.Unknown) ∨
     vc = Invalid ∧ (Status tr = Deleted ∨ Status tr = Audit.Unknown) ∨
     vc = Busy ∧ (Status tr = Pending ∨ Status tr = Audit.Unknown)).
Proof.
  unfold cross_check, is_for.
  destruct vc, (Status tr); simpl; split_and!; try lia;
    try (intros msg Hmsg; first [by apply elem_of_nil in Hmsg
                                |apply list_elem_of_singleton in Hmsg; eauto]);
    (split; [intros Hnil; first [discriminate Hnil|tauto]|]);
    intros [[? [?|?]]|[[? [?|?]]|[? [?|?]]]]; done.
Qed.

(** X14.  The ledger check appends nothing exactly when the ledger reports
    what the vault reports, or the vault reports busy and the ledger
    unknown, or the vault reports invalid, the ledger unknown and the store
    holds the record as deleted.  A ledger probe that failed counts as
    unknown, so its error is reported only together with a mismatch: with a
    vault status unknown or busy it goes unreported. *)
Theorem ledger_check_silent (code : ValidationCode → Z) vc lVC err tr :
  (ledger_check code vc lVC err tr = [] ↔
     vc = lVC ∨ vc = Busy ∧ lVC = Unknown ∨
     vc = Invalid ∧ lVC = Unknown ∧ Status tr = Deleted) ∧
  (∀ e, vc = Unknown ∨ vc = Busy → ledger_check code vc Unknown (Some e) tr = []).
Proof.
  split.
  - unfold ledger_check, ledger_failed.
    destruct vc, lVC, (Status tr), err; simpl;
      (split; [intros Hnil; first [discriminate Hnil|tauto]|]);
      intros [?|[[? ?]|[? [? ?]]]]; done.
  - intros e [-> | ->]; reflexivity.
Qed.

(** X14, witness: the vault does not know the transaction and the ledger
    probe fails. *)
Lemma ledger_check_silent_witness :
  ledger_check sample_code Unknown Unknown (Some disk_full) pending_T1 = [].
Proof.
  apply (proj2 (ledger_check_silent sample_code Unknown Unknown (Some disk_full)
                  pending_T1)).
  left. reflexivity.
Defined.

End ReconcileMore.

(** ** The token store: the tables behind [TokenDB] *)

Module TokenTableFacts.

Import TokenStore TokenTable TokenStoreFacts.

Section Facts.

Implicit Types (db : TokenDB) (rows : list Row) (inputs ids : list ID).
Implicit Types (tokens : list (option Token)).

(** *** [GetTokens] *)

Lemma row_ID_narrow rows : row_ID <$> (narrow <$> rows) = key <$> rows.
Proof. rewrite <- list_fmap_compose. done. Qed.

Lemma primary_key_narrow rows : NoDup (key <$> rows) → primary_key (narrow <$> rows).
Proof. unfold primary_key. by rewrite row_ID_narrow. Qed.

(** Rows with the same key of a table with unique keys are the same row. *)
Lemma primary_key_inj (table : list TokenRow) r r' :
  primary_key table → r ∈ table → r' ∈ table → row_ID r = row_ID r' → r = r'.
Proof.
  unfold primary_key. induction table as [|x table IH]; intros Hpk Hr Hr' Heq.
  - by apply elem_of_nil in Hr.
  - rewrite fmap_cons in Hpk. apply NoDup_cons in Hpk as [Hx Hpk].
    apply elem_of_cons in Hr as [->|Hr], Hr' as [->|Hr'].
    + done.
    + exfalso. apply Hx. rewrite Heq. by apply list_elem_of_fmap_2.
    + exfalso. apply Hx. rewrite <- Heq. by apply list_elem_of_fmap_2.
    + by apply IH.
Qed.

(** The answer to an id does not depend on the order of the rows. *)
Lemma lookup_owned_perm (table table' : list TokenRow) id :
  primary_key table → table ≡ₚ table' →
  lookup_owned table id = lookup_owned table' id.
Proof.
  intros Hpk Hperm.
  assert (primary_key table') as Hpk'.
  { unfold primary_key. by rewrite <- Hperm. }
  destruct (lookup_owned table id) as [r|] eqn:Hl,
           (lookup_owned table' id) as [r'|] eqn:Hl'; [| | |done].
  - apply lookup_owned_Some in Hl as (Hr & Hk & _).
    apply lookup_owned_Some in Hl' as (Hr' & Hk' & _).
    f_equal. apply (primary_key_inj table'); [done|by rewrite <- Hperm|done|congruence].
  - apply lookup_owned_Some in Hl as (Hr & Hk & Hd & Ho).
    exfalso. apply (lookup_owned_None _ _ Hl' r); [by rewrite <- Hperm|done].
  - apply lookup_owned_Some in Hl' as (Hr & Hk & Hd & Ho).
    exfalso. apply (lookup_owned_None _ _ Hl r'); [by rewrite Hperm|done].
Qed.

(** Whatever the ids, slot [j] ends up with the row whose key is
    [inputs[j]] if [j] is the first slot of that id, and is left alone if
    it is not. *)
Lemma scan_rows_first_slots inputs (rows : list TokenRow) tokens counter tokens' n :
  NoDup (row_ID <$> rows) → length tokens = length inputs →
  scan_rows inputs rows tokens counter = inr (tokens', n) →
  ∀ j, tokens' !! j =
       match inputs !! j with
       | Some id =>
           if decide (fst <$> list_find (λ i, i = id) inputs = Some j) then
             match list_find (λ r, row_ID r = id) rows with
             | Some (_, r) => Some (Some (row_Token r))
             | None => tokens !! j
             end
           else tokens !! j
       | None => tokens !! j
       end.
Proof.
  revert tokens counter.
  induction rows as [|r rows IH]; intros tokens counter Hrows Hlen Hscan j.
  - simpl in *. simplify_eq. destruct (inputs !! j); [case_decide|]; done.
  - simpl in Hscan. rewrite fmap_cons in Hrows. apply NoDup_cons in Hrows as [Hr Hrows].
    destruct (list_find (λ i, i = row_ID r) inputs) as [[j0 i0]|] eqn:Hfind; [|done].
    rewrite (IH _ _ Hrows ltac:(by rewrite length_insert) Hscan j).
    pose proof Hfind as Hfind0.
    apply list_find_Some in Hfind as (Hj0 & -> & Hfirst).
    destruct (inputs !! j) as [id|] eqn:Hj.
    + cbn [list_find]. destruct (decide (row_ID r = id)) as [<-|Hne].
      * assert (list_find (λ r0, row_ID r0 = row_ID r) rows = None) as ->.
        { apply list_find_None, Forall_forall. intros r' Hr' Heq.
          apply Hr. rewrite <- Heq. by apply list_elem_of_fmap_2. }
        rewrite Hfind0. simpl. case_decide as Hfst.
        -- simplify_eq. apply list_lookup_insert_eq. rewrite Hlen.
           by eapply lookup_lt_Some.
        -- apply list_lookup_insert_ne. congruence.
      * assert (j ≠ j0) as Hjj by congruence.
        destruct (list_find (λ r0, row_ID r0 = id) rows) as [[k r']|]; simpl.
        -- case_decide; [done|by apply list_lookup_insert_ne].
        -- case_decide; by apply list_lookup_insert_ne.
    + apply list_lookup_insert_ne. intros ->. congruence.
Qed.

(** The loop gives the same slots and the same counter whatever the order
    of the rows. *)
Lemma scan_rows_perm (table table' : list TokenRow) inputs :
  primary_key table → table ≡ₚ table' →
  scan_rows inputs (Query table inputs) (replicate (length inputs) None) 0
  = scan_rows inputs (Query table' inputs) (replicate (length inputs) None) 0.
Proof.
  intros Hpk Hperm.
  assert (primary_key table') as Hpk' by (unfold primary_key; by rewrite <- Hperm).
  destruct (scan_rows_ok inputs (Query table inputs) (replicate (length inputs) None) 0)
    as (t1 & H1 & Hlen1 & _); [apply Query_in|].
  destruct (scan_rows_ok inputs (Query table' inputs) (replicate (length inputs) None) 0)
    as (t2 & H2 & Hlen2 & _); [apply Query_in|].
  rewrite H1, H2. do 2 f_equal.
  - apply list_eq. intros j.
    rewrite (scan_rows_first_slots _ _ _ _ _ _ (NoDup_Query _ _ Hpk)
               (length_replicate _ _) H1 j).
    rewrite (scan_rows_first_slots _ _ _ _ _ _ (NoDup_Query _ _ Hpk')
               (length_replicate _ _) H2 j).
    destruct (inputs !! j) as [id|] eqn:Hj; [|done].
    case_decide; [|done].
    pose proof (find_in_Query table inputs id
                  ltac:(by eapply list_elem_of_lookup_2)) as Hf.
    pose proof (find_in_Query table' inputs id
                  ltac:(by eapply list_elem_of_lookup_2)) as Hf'.
    rewrite (lookup_owned_perm table table' id Hpk Hperm) in Hf.
    destruct (list_find _ (Query table inputs)) as [[k r]|],
             (list_find _ (Query table' inputs)) as [[k' r']|];
      simpl in *; [|congruence..|done].
    rewrite <- Hf' in Hf. by simplify_eq.
  - unfold Query. by rewrite Hperm.
Qed.



(** *** [ListAuditTokens] *)











(** *** [WhoDeletedTokens] *)

Lemma find_input inputs r :
  list_find (λ inp, TxId inp = tx_id r ∧ Index inp = idx r) inputs
  = list_find (λ inp, inp = key r) inputs.
Proof.
  apply list_find_ext. intros [t i]. unfold key. simpl. split.
  - intros [-> ->]. done.
  - intros [= -> ->]. done.
Qed.

Lemma trues_insert (found : list bool) j :
  (length (filter (λ f, f = true) (<[j := true]> found))
   ≤ S (length (filter (λ f, f = true) found)))%nat.
Proof.
  revert j. induction found as [|f found IH]; intros j; [simpl; lia|].
  destruct j as [|j]; simpl.
  - rewrite !filter_cons. repeat case_decide; simpl; lia.
  - rewrite !filter_cons. specialize (IH j). case_decide; simpl; lia.
Qed.

(** The loop counts every row, keeps the lengths, and marks at most one
    slot per row. *)
Lemma who_rows_ok inputs rows spentBy isSpent found counter :
  ∃ spentBy' isSpent' found',
    who_rows inputs rows spentBy isSpent found counter
    = (spentBy', isSpent', found', (counter + length rows)%nat) ∧
    length spentBy' = length spentBy ∧ length isSpent' = length isSpent ∧
    length found' = length found ∧
    (length (filter (λ f, f = true) found')
     ≤ length (filter (λ f, f = true) found) + length rows)%nat.
Proof.
  revert spentBy isSpent found counter.
  induction rows as [|r rows IH]; intros spentBy isSpent found counter.
  - exists spentBy, isSpent, found. simpl. rewrite Nat.add_0_r. split_and!; [done..|lia].
  - cbn [who_rows].
    destruct (list_find _ inputs) as [[i inp]|].
    + destruct (IH (<[i := spent_by r]> spentBy) (<[i := is_deleted r]> isSpent)
                  (<[i := true]> found) (S counter))
        as (s' & i' & f' & -> & Hs & Hi & Hf & Hle).
      exists s', i', f'. rewrite !length_insert in *.
      pose proof (trues_insert found i).
      split_and!; [f_equal; simpl; lia|done..|simpl; lia].
    + destruct (IH spentBy isSpent found (S counter))
        as (s' & i' & f' & -> & Hs & Hi & Hf & Hle).
      exists s', i', f'. split_and!; [f_equal; simpl; lia|done..|simpl; lia].
Qed.

(** With distinct ids and distinct row keys, slot [j] ends up with the row
    whose key is [inputs[j]], if there is one. *)
Lemma who_rows_slots inputs rows spentBy isSpent found counter
    spentBy' isSpent' found' n :
  NoDup inputs → NoDup (key <$> rows) →
  length spentBy = length inputs → length isSpent = length inputs →
  length found = length inputs →
  who_rows inputs rows spentBy isSpent found counter = (spentBy', isSpent', found', n) →
  ∀ j id, inputs !! j = Some id →
    spentBy' !! j = match list_find (λ r, key r = id) rows with
                    | Some (_, r) => Some (spent_by r)
                    | None => spentBy !! j
                    end ∧
    isSpent' !! j = match list_find (λ r, key r = id) rows with
                    | Some (_, r) => Some (is_deleted r)
                    | None => isSpent !! j
                    end ∧
    found' !! j = match list_find (λ r, key r = id) rows with
                  | Some (_, r) => Some true
                  | None => found !! j
                  end.
Proof.
  intros Hnd. revert spentBy isSpent found counter.
  induction rows as [|r rows IH];
    intros spentBy isSpent found counter Hrows Hls Hli Hlf Hwho j id Hj.
  - simpl in *. by simplify_eq.
  - cbn [who_rows] in Hwho. rewrite find_input in Hwho.
    rewrite fmap_cons in Hrows. apply NoDup_cons in Hrows as [Hr Hrows].
    assert (key r = id → list_find (λ r0, key r0 = id) rows = None) as Hnone.
    { intros <-. apply list_find_None, Forall_forall. intros r' Hr' Heq.
      apply Hr. rewrite <- Heq. by apply list_elem_of_fmap_2. }
    pose proof (lookup_lt_Some _ _ _ Hj) as Hlt.
    destruct (list_find (λ inp, inp = key r) inputs) as [[j0 i0]|] eqn:Hfind.
    + apply list_find_Some in Hfind as (Hj0 & -> & _).
      destruct (IH (<[j0 := spent_by r]> spentBy) (<[j0 := is_deleted r]> isSpent)
                  (<[j0 := true]> found) (S counter) Hrows
                  ltac:(by rewrite length_insert)
                  ltac:(by rewrite length_insert) ltac:(by rewrite length_insert)
                  Hwho j id Hj) as (-> & -> & ->).
      cbn [list_find]. destruct (decide (key r = id)) as [Heq|Hne].
      * rewrite (Hnone Heq). subst id.
        assert (j = j0) as -> by (by apply (NoDup_lookup inputs j j0 (key r))).
        simpl. rewrite !list_lookup_insert_eq by lia. done.
      * assert (j ≠ j0) by congruence.
        destruct (list_find (λ r0, key r0 = id) rows) as [[k r']|]; simpl; [done|].
        rewrite !list_lookup_insert_ne by done. done.
    + destruct (IH _ _ _ _ Hrows Hls Hli Hlf Hwho j id Hj) as (-> & -> & ->).
      cbn [list_find]. destruct (decide (key r = id)) as [Heq|Hne].
      * exfalso. apply list_find_None in Hfind. rewrite Forall_forall in Hfind.
        apply (Hfind id); [by eapply list_elem_of_lookup_2|done].
      * destruct (list_find (λ r0, key r0 = id) rows) as [[k r']|]; done.
Qed.




Lemma find_row_Some db id r : find_row db id = Some r → r ∈ tokens db ∧ key r = id.
Proof.
  unfold find_row. intros ([i r'] & Hfind & ->)%fmap_Some.
  apply list_find_Some in Hfind as (Hl & HP & _). simpl.
  split; [by eapply list_elem_of_lookup_2|done].
Qed.

Lemma find_row_elem_of db r :
  NoDup (key <$> tokens db) → r ∈ tokens db → find_row db (key r) = Some r.
Proof.
  intros Hpk Hr. unfold find_row.
  destruct (list_find_elem_of (λ r0, key r0 = key r) (tokens db) r)
    as [[k r'] Hfind]; [done|done|].
  rewrite Hfind. simpl. f_equal.
  apply list_find_Some in Hfind as (Hk & Heq & _).
  apply list_elem_of_lookup_2 in Hk.
  revert Hpk Hr Hk Heq. generalize (tokens db). intros l.
  induction l as [|x l IH]; intros Hpk Hr Hr' Heq; [by apply elem_of_nil in Hr|].
  rewrite fmap_cons in Hpk. apply NoDup_cons in Hpk as [Hx Hpk].
  apply elem_of_cons in Hr as [->|Hr], Hr' as [->|Hr'].
  - done.
  - exfalso. apply Hx. rewrite <- Heq. by apply list_elem_of_fmap_2.
  - exfalso. apply Hx. rewrite Heq. by apply list_elem_of_fmap_2.
  - by apply IH.
Qed.

(** [WhoDeletedTokens] on distinct ids: who spent each token, in the order
    of the ids, or not found for the first id without a row. *)
Lemma WhoDeletedTokens_cases db inputs :
  NoDup (key <$> tokens db) → NoDup inputs → inputs ≠ [] →
  WhoDeletedTokens db inputs =
  match list_find (λ f, f = false)
          ((λ id, bool_decide (is_Some (find_row db id))) <$> inputs) with
  | Some (j, _) =>
      match inputs !! j with
      | Some i => Failed (errNotFound i)
      | None => Panicked "index out of range"
      end
  | None =>
      Done ((λ id, from_option spent_by "" (find_row db id)) <$> inputs,
            (λ id, from_option is_deleted false (find_row db id)) <$> inputs)
  end.
Proof.
  intros Hpk Hnd Hne. unfold WhoDeletedTokens.
  rewrite decide_False by (by destruct inputs).
  set (rows := filter (λ r, key r ∈ inputs) (tokens db)).
  cbv zeta.
  assert (NoDup (key <$> rows)) as Hndrows.
  { eapply sublist_NoDup; [exact Hpk|]. apply fmap_sublist, sublist_filter. }
  assert (∀ id, id ∈ inputs →
            snd <$> list_find (λ r, key r = id) rows = find_row db id) as Hrow.
  { intros id Hid. unfold rows, find_row. rewrite list_find_filter.
    f_equal. apply list_find_ext. intros r. split.
    - intros (? & _). done.
    - intros <-. done. }
  destruct (who_rows_ok inputs rows (replicate (length inputs) "")
              (replicate (length inputs) false) (replicate (length inputs) false) 0)
    as (s' & i' & f' & Hwho & Hls & Hli & Hlf & _).
  rewrite Hwho.
  rewrite length_replicate in Hls. rewrite length_replicate in Hli.
  rewrite length_replicate in Hlf.
  pose proof (who_rows_slots inputs rows _ _ _ _ _ _ _ _ Hnd Hndrows
                (length_replicate _ _) (length_replicate _ _) (length_replicate _ _)
                Hwho) as Hslots.
  assert (s' = (λ id, from_option spent_by "" (find_row db id)) <$> inputs) as ->.
  { apply list_eq. intros j. rewrite list_lookup_fmap.
    destruct (inputs !! j) as [id|] eqn:Hj; simpl.
    - destruct (Hslots j id Hj) as (-> & _ & _).
      rewrite <- (Hrow id) by (by eapply list_elem_of_lookup_2).
      destruct (list_find _ rows) as [[k r]|]; simpl; [done|].
      apply lookup_replicate_2. by eapply lookup_lt_Some.
    - apply lookup_ge_None. rewrite Hls. by apply lookup_ge_None. }
  assert (i' = (λ id, from_option is_deleted false (find_row db id)) <$> inputs) as ->.
  { apply list_eq. intros j. rewrite list_lookup_fmap.
    destruct (inputs !! j) as [id|] eqn:Hj; simpl.
    - destruct (Hslots j id Hj) as (_ & -> & _).
      rewrite <- (Hrow id) by (by eapply list_elem_of_lookup_2).
      destruct (list_find _ rows) as [[k r]|]; simpl; [done|].
      apply lookup_replicate_2. by eapply lookup_lt_Some.
    - apply lookup_ge_None. rewrite Hli. by apply lookup_ge_None. }
  assert (f' = (λ id, bool_decide (is_Some (find_row db id))) <$> inputs) as ->.
  { apply list_eq. intros j. rewrite list_lookup_fmap.
    destruct (inputs !! j) as [id|] eqn:Hj; simpl.
    - destruct (Hslots j id Hj) as (_ & _ & ->).
      rewrite <- (Hrow id) by (by eapply list_elem_of_lookup_2).
      destruct (list_find _ rows) as [[k r]|]; simpl.
      + done.
      + apply lookup_replicate_2. by eapply lookup_lt_Some.
    - apply lookup_ge_None. rewrite Hlf. by apply lookup_ge_None. }
  clear Hwho Hslots Hls Hli Hlf.
  assert (∀ x, x ∈ key <$> rows → x ∈ inputs) as Hsub.
  { intros x (r & -> & [Hr _]%list_elem_of_filter)%list_elem_of_fmap. done. }
  assert (∀ x, x ∈ inputs → is_Some (find_row db x) → x ∈ key <$> rows) as Hsup.
  { intros x Hx [r Hr]. rewrite <- (Hrow x Hx) in Hr.
    apply fmap_Some in Hr as ([k r'] & Hfind & ->).
    apply list_find_Some in Hfind as (Hk & <- & _).
    apply list_elem_of_fmap_2. by eapply list_elem_of_lookup_2. }
  simpl (0 + _)%nat.
  destruct (list_find (λ f, f = false) _) as [[j t]|] eqn:Hfind.
  - apply list_find_Some in Hfind as (Hj & -> & Hfirst).
    rewrite list_lookup_fmap in Hj.
    destruct (inputs !! j) as [id|] eqn:Hid; [|done]. simpl in Hj.
    injection Hj as Hj. apply bool_decide_eq_false in Hj.
    assert (length rows < length inputs)%nat as Hlt.
    { rewrite <- (length_fmap key rows). apply length_lt_of_NoDup; [done|done|]. left.
      intros Hall. specialize (Hall id ltac:(by eapply list_elem_of_lookup_2)).
      apply Hj. apply list_elem_of_fmap in Hall as (r & -> & Hr).
      rewrite <- (Hrow (key r)) by (by eapply list_elem_of_lookup_2).
      destruct (list_find_elem_of (λ r0, key r0 = key r) rows r) as [[k r'] ->];
        [done|done|by eexists]. }
    case_decide as Hzero.
    + assert (j = 0%nat) as ->; [|by rewrite Hid].
      destruct j as [|j]; [done|]. exfalso.
      destruct inputs as [|i0 inputs']; [done|].
      apply (Hfirst 0%nat (bool_decide (is_Some (find_row db i0)))); [done|lia|].
      apply bool_decide_eq_false. intros Hsome.
      pose proof (Hsup i0 ltac:(left) Hsome) as Hin.
      apply nil_length_inv in Hzero. rewrite Hzero in Hin.
      by apply elem_of_nil in Hin.
    + rewrite decide_True by lia. done.
  - apply list_find_None in Hfind. rewrite Forall_forall in Hfind.
    assert (length rows = length inputs) as Hlen.
    { rewrite <- (length_fmap key rows). apply Permutation_length.
      apply NoDup_Permutation; [done|done|]. intros x. split; [apply Hsub|].
      intros Hx. apply Hsup; [done|].
      destruct (decide (is_Some (find_row db x))) as [|Hno]; [done|].
      exfalso. apply (Hfind false); [|done].
      apply list_elem_of_fmap. exists x. by rewrite bool_decide_eq_false_2. }
    rewrite decide_False by (destruct inputs; simpl in *; [done|lia]).
    rewrite decide_False by lia. done.
Qed.

(** *** [DeleteTokens] *)

Lemma key_update_deleted deletedBy now (P : Row → Prop) `{∀ r, Decision (P r)} rows :
  key <$> update_deleted deletedBy now P rows = key <$> rows.
Proof.
  unfold update_deleted. rewrite <- list_fmap_compose. apply list_fmap_ext.
  intros i r _. simpl. by case_decide.
Qed.

Lemma find_row_update deletedBy now (P : Row → Prop) `{∀ r, Decision (P r)} db id :
  find_row (set_tokens (update_deleted deletedBy now P) db) id
  = (λ r, if decide (P r) then deleted deletedBy now r else r) <$> find_row db id.
Proof.
  unfold find_row, set_tokens, update_deleted. simpl.
  rewrite list_find_fmap.
  rewrite (list_find_ext _ (λ r, key r = id)) by (intros r; simpl; by case_decide).
  destruct (list_find (λ r, key r = id) (tokens db)) as [[k r]|]; done.
Qed.

Lemma lookup_owned_narrow rows id :
  lookup_owned (narrow <$> rows) id
  = narrow <$> (snd <$> list_find (λ r, key r = id ∧ is_deleted r = false
                                        ∧ owner r = true) rows).
Proof.
  unfold lookup_owned. rewrite list_find_fmap.
  rewrite (list_find_ext _ (λ r, key r = id ∧ is_deleted r = false ∧ owner r = true))
    by done.
  destruct (list_find _ rows) as [[k r]|]; done.
Qed.

Lemma IsMine_lookup_owned db txID index :
  IsMine txID index db
  = inr (bool_decide (is_Some (lookup_owned (narrow <$> tokens db) (mkID txID index)))).
Proof.
  unfold IsMine. rewrite lookup_owned_narrow.
  rewrite (list_find_ext _ (λ r, key r = mkID txID index ∧ is_deleted r = false
                                 ∧ owner r = true)).
  2:{ intros r. unfold key. split.
      - intros (-> & -> & ? & ?). done.
      - intros ([= -> ->] & ? & ?). done. }
  destruct (list_find _ (tokens db)) as [[k r]|] eqn:Hfind; simpl; [|done].
  apply list_find_Some in Hfind as (_ & ([= Ht _] & _) & _).
  by rewrite bool_decide_eq_true_2.
Qed.

Lemma GetTokens_singleton db id :
  NoDup (key <$> tokens db) →
  GetTokens db [id] =
  match lookup_owned (narrow <$> tokens db) id with
  | Some r => Ok [Some (row_Token r)]
  | None => Err (errNotFound id)
  end.
Proof.
  intros Hpk. unfold GetTokens.
  rewrite (GetTokens_spec _ [id] (primary_key_narrow _ Hpk)); [|apply NoDup_singleton|done].
  unfold answers. simpl.
  destruct (lookup_owned (narrow <$> tokens db) id) as [r|]; done.
Qed.


Lemma filter_fmap_agree {A B} (P : B → Prop) `{∀ x, Decision (P x)}
    (h h' : A → B) (l : list A) :
  (∀ x, x ∈ l → h x = h' x ∨ (¬ P (h x) ∧ ¬ P (h' x))) →
  filter P (h <$> l) = filter P (h' <$> l).
Proof.
  induction l as [|x l IH]; intros Hall; [done|].
  rewrite !fmap_cons, !filter_cons. rewrite IH by (intros y Hy; apply Hall; by right).
  destruct (Hall x ltac:(left)) as [->|[? ?]]; [done|].
  by rewrite !decide_False.
Qed.

(** The rows after [DeleteTokens] differ from the rows before only in the
    bookkeeping of deletion, which the auditor listing does not read. *)
Lemma audit_rows_update deletedBy now (P : Row → Prop) `{∀ r, Decision (P r)}
    ids rows tokens counter :
  audit_rows ids (update_deleted deletedBy now P rows) tokens counter
  = audit_rows ids rows tokens counter.
Proof.
  revert tokens counter. induction rows as [|r rows IH]; intros tokens counter; [done|].
  unfold update_deleted in *. rewrite fmap_cons. cbn [audit_rows].
  assert (key (if decide (P r) then deleted deletedBy now r else r) = key r) as ->
    by (by case_decide).
  assert (row_Token (narrow (if decide (P r) then deleted deletedBy now r else r))
          = row_Token (narrow r)) as -> by (by case_decide).
  destruct (place ids 0 (key r) (row_Token (narrow r)) (tokens, counter, false))
    as [[tokens1 counter1] [|]]; [apply IH|done].
Qed.

Lemma filter_update_deleted deletedBy now (P Q : Row → Prop)
    `{∀ r, Decision (P r)} `{∀ r, Decision (Q r)} rows :
  (∀ r, Q (deleted deletedBy now r) ↔ Q r) →
  filter Q (update_deleted deletedBy now P rows)
  = update_deleted deletedBy now P (filter Q rows).
Proof.
  intros HQ. unfold update_deleted. induction rows as [|r rows IH]; [done|].
  rewrite fmap_cons, !filter_cons, IH.
  destruct (decide (P r)) as [Hp|Hp].
  - destruct (decide (Q r)) as [Hq|Hq].
    + rewrite decide_True by (by apply HQ). rewrite fmap_cons. by rewrite decide_True.
    + rewrite decide_False by (by rewrite HQ). done.
  - destruct (decide (Q r)) as [Hq|Hq]; [|done].
    rewrite fmap_cons. by rewrite decide_False.
Qed.

(** *** [StoreToken] *)

Lemma store_ownerships_inv tr owners (t t' : TokenTransaction) :
  store_ownerships tr owners t = (None, t') →
  table (tx t') = table (tx t) ∧ tokens (tx t') = tokens (tx t) ∧
  public_params (tx t') = public_params (tx t) ∧
  ownership (tx t') = ownership (tx t) ++ ((λ eid, (tr_ID tr, eid)) <$> owners) ∧
  NoDup owners ∧
  (∀ eid, eid ∈ owners → (tr_ID tr, eid) ∉ ownership (tx t)) ∧
  (owners ≠ [] → tr_ID tr ∈ key <$> tokens (tx t)).
Proof.
  revert t. induction owners as [|eid owners IH]; intros t Hrun.
  - simpl in Hrun. injection Hrun as <-. rewrite app_nil_r.
    split_and!; [done..|constructor| |done].
    intros eid Heid. by apply elem_of_nil in Heid.
  - cbn [store_ownerships] in Hrun. unfold insert_ownership in Hrun.
    destruct (decide ((tr_ID tr, eid) ∈ ownership (tx t))) as [|Hfresh]; [done|].
    destruct (decide (tr_ID tr ∈ key <$> tokens (tx t))) as [Hfk|]; [|done].
    apply IH in Hrun as (Ht & Htok & Hpp & Hown & Hnd & Hnew & _). simpl in *.
    split_and!; [done..| | | |done].
    + rewrite Hown, <- app_assoc. done.
    + apply NoDup_cons. split; [|done]. intros Hin.
      apply (Hnew eid Hin). apply elem_of_app. right. by apply list_elem_of_singleton.
    + intros eid' [->|Hin]%elem_of_cons; [done|].
      intros Hold. apply (Hnew eid' Hin). apply elem_of_app. by left.
Qed.

(** *** [PublicParams] *)

Lemma latest_foldl (best : option (bytes * Z)) (rows : list (bytes * Z)) :
  match foldl (λ best row,
                 match best with
                 | Some b => if decide (snd b < snd row) then Some row else Some b
                 | None => Some row
                 end) best rows with
  | None => best = None ∧ rows = []
  | Some b =>
      (best = Some b ∨ b ∈ rows) ∧
      (∀ b', best = Some b' → snd b' ≤ snd b) ∧
      (∀ x, x ∈ rows → snd x ≤ snd b)
  end.
Proof.
  revert best. induction rows as [|row rows IH]; intros best.
  - simpl. destruct best as [b|]; [|done].
    split_and!; [by left|by intros ? [= <-]|].
    intros x Hx. by apply elem_of_nil in Hx.
  - cbn [foldl].
    set (best' := match best with
                  | Some b => if decide (snd b < snd row) then Some row else Some b
                  | None => Some row
                  end).
    specialize (IH best').
    destruct (foldl _ best' rows) as [b|].
    + destruct IH as (Hfrom & Hbest & Hrows).
      assert (snd row ≤ snd b ∧ (∀ b', best = Some b' → snd b' ≤ snd b) ∧
              (best = Some b ∨ b ∈ row :: rows)) as (? & ? & ?).
      { unfold best' in *. destruct best as [b0|].
        - destruct (decide (snd b0 < snd row)).
          + specialize (Hbest row eq_refl). split_and!; [done| |].
            * intros ? [= <-]. lia.
            * destruct Hfrom as [[= <-]|?]; right; [left|by right].
          + specialize (Hbest b0 eq_refl). split_and!; [lia| |].
            * by intros ? [= <-].
            * destruct Hfrom as [?|?]; [by left|right; by right].
        - specialize (Hbest row eq_refl). split_and!; [done|done|].
          destruct Hfrom as [[= <-]|?]; right; [left|by right]. }
      split_and!; [done|done|].
      intros x [->|Hx]%elem_of_cons; [done|by apply Hrows].
    + destruct IH as [Hb _]. unfold best' in Hb.
      destruct best as [b0|]; [by destruct (decide (snd b0 < snd row))|done].
Qed.

Lemma latest_spec (rows : list (bytes * Z)) :
  match latest rows with
  | None => rows = []
  | Some b => b ∈ rows ∧ ∀ x, x ∈ rows → snd x ≤ snd b
  end.
Proof.
  unfold latest. pose proof (latest_foldl None rows) as H.
  destruct (foldl _ None rows) as [b|].
  - destruct H as ([?|?] & _ & ?); done.
  - by destruct H.
Qed.

Lemma latest_snoc (rows : list (bytes * Z)) row :
  latest (rows ++ [row])
  = match latest rows with
    | Some b => if decide (snd b < snd row) then Some row else Some b
    | None => Some row
    end.
Proof. unfold latest. by rewrite foldl_app. Qed.

(** On a table with unique keys, the first row with a key and a flag is the
    row with that key, if it has the flag. *)
Lemma find_flagged db id (F : Row → Prop) `{∀ r, Decision (F r)} :
  NoDup (key <$> tokens db) →
  snd <$> list_find (λ r, key r = id ∧ F r) (tokens db)
  = find_row db id ≫= λ r, if decide (F r) then Some r else None.
Proof.
  intros Hpk.
  destruct (list_find (λ r, key r = id ∧ F r) (tokens db)) as [[k r]|] eqn:Hfind; simpl.
  - apply list_find_Some in Hfind as (Hk & (<- & HF) & _).
    rewrite (find_row_elem_of db r Hpk) by (by eapply list_elem_of_lookup_2).
    simpl. by rewrite decide_True.
  - apply list_find_None in Hfind. rewrite Forall_forall in Hfind.
    destruct (find_row db id) as [r|] eqn:Hr; [|done]. simpl.
    apply find_row_Some in Hr as [Hr <-].
    rewrite decide_False; [done|]. intros HF. by apply (Hfind r).
Qed.

Lemma find_row_snoc db r id :
  find_row (set_tokens (λ rows, rows ++ [r]) db) id
  = match find_row db id with
    | Some r' => Some r'
    | None => if decide (key r = id) then Some r else None
    end.
Proof.
  unfold find_row, set_tokens. simpl. generalize (tokens db). intros l.
  induction l as [|x l IH].
  - simpl. by case_decide.
  - cbn [app list_find]. destruct (decide (key x = id)); [done|].
    destruct (list_find _ (l ++ [r])) as [[k y]|], (list_find _ l) as [[k' y']|];
      simpl in *; done.
Qed.

Lemma on_ledger_elem_of content tokenRaw :
  on_ledger content tokenRaw = bool_decide (tokenRaw ∈ content).
Proof.
  induction content as [|c content IH]; [done|].
  cbn [on_ledger]. destruct (decide (c = tokenRaw)) as [->|Hne].
  - by rewrite bool_decide_eq_true_2 by left.
  - rewrite IH. apply bool_decide_ext. rewrite elem_of_cons. naive_solver.
Qed.

End Facts.

Section Views.

Variable String_ : ID → string.
Variable Hashable : bytes → string.

Implicit Types (db : TokenDB) (rows : list Row) (inputs ids : list ID).


(** *** [getLedgerToken] *)






(** The tokens [getLedgerToken] returns are as many as the ids, and none is
    empty. *)
Lemma collect_tokens_inr (m : gmap string bytes) ids toks :
  collect_tokens String_ m ids = inr toks →
  length toks = length ids ∧ Forall (λ tok, length tok ≠ 0%nat) toks.
Proof.
  revert toks. induction ids as [|id ids IH]; intros toks Hrun.
  - simpl in Hrun. injection Hrun as <-. done.
  - cbn [collect_tokens] in Hrun.
    destruct (m !! String_ id) as [tok|]; [|done].
    case_decide as Hlen; [done|].
    destruct (collect_tokens String_ m ids) as [|toks']; [done|].
    injection Hrun as <-. destruct (IH toks' eq_refl) as [Hl Hall].
    split; [simpl; by rewrite Hl|by constructor].
Qed.

Lemma getLedgerToken_inr db ids toks :
  getLedgerToken String_ db ids = inr toks →
  length toks = length ids ∧ Forall (λ tok, length tok ≠ 0%nat) toks.
Proof.
  unfold getLedgerToken. case_decide as Hlen.
  - intros [= <-]. by destruct ids.
  - apply collect_tokens_inr.
Qed.

(** *** The callbacks of the views *)

Lemma each_output_exists ids toks found count :
  length toks = length ids → Forall (λ tok, length tok ≠ 0%nat) toks →
  each_output (exists_callback String_) (zip ids toks) (found, count)
  = (None, (found ++ ids, (count + length ids)%nat)).
Proof.
  revert toks found count.
  induction ids as [|id ids IH]; intros toks found count Hlen Hall.
  - simpl. by rewrite app_nil_r, Nat.add_0_r.
  - destruct toks as [|tok toks]; [done|]. apply Forall_cons in Hall as [Htok Hall].
    cbn [zip zip_with each_output]. unfold exists_callback at 1.
    rewrite decide_False by done. simpl fst. simpl snd.
    rewrite (IH toks) by (simpl in Hlen; done || lia).
    rewrite <- app_assoc. simpl. do 3 f_equal. lia.
Qed.

End Views.



(** X16.  The rows of the query may come in any order: on a table with
    unique keys, [GetTokens] returns the same for every order of the rows
    of the table, whatever the ids. *)
Theorem GetTokens_any_row_order (table table' : list TokenRow) inputs :
  primary_key table → table ≡ₚ table' →
  TokenStore.GetTokens table inputs = TokenStore.GetTokens table' inputs.
Proof.
  intros Hpk Hperm. unfold TokenStore.GetTokens.
  by rewrite (scan_rows_perm table table' inputs Hpk Hperm).
Qed.

(** X16, witness: the sample table and its reverse. *)
Lemma GetTokens_any_row_order_witness :
  TokenStore.GetTokens sample_table [mkID "T2" 0; mkID "T1" 0]
  = TokenStore.GetTokens (reverse sample_table) [mkID "T2" 0; mkID "T1" 0].
Proof.
  apply GetTokens_any_row_order.
  - apply (bool_decide_unpack _). vm_compute. exact I.
  - symmetry. apply reverse_Permutation.
Defined.







(** X20.  [DeleteTokens] touches nothing else: [GetTokens] and [IsMine]
    answer as before on ids that were not deleted, and [ListAuditTokens]
    answers as before on all ids, the deleted ones too. *)
Theorem DeleteTokens_frame deletedBy now ids (db : TokenDB) err db' :
  DeleteTokens deletedBy now ids db = (err, db') →
  (∀ inputs, (∀ id, id ∈ inputs → id ∉ ids) →
     GetTokens db' inputs = GetTokens db inputs ∧
     ∀ id, id ∈ inputs → IsMine (TxId id) (Index id) db' = IsMine (TxId id) (Index id) db) ∧
  (∀ inputs, ListAuditTokens db' inputs = ListAuditTokens db inputs).
Proof.
  intros Hrun. unfold DeleteTokens in Hrun.
  case_decide as Hlen; injection Hrun as <- <-; [done|].
  split.
  - intros inputs Hdisj.
    assert (∀ id, id ∈ inputs →
              lookup_owned (narrow <$> update_deleted deletedBy now (λ r, key r ∈ ids)
                                         (tokens db)) id
              = lookup_owned (narrow <$> tokens db) id) as Hlook.
    { intros id Hid. rewrite !lookup_owned_narrow. unfold update_deleted.
      rewrite list_find_fmap. do 2 f_equal.
      rewrite (list_find_ext _ (λ r, key r = id ∧ is_deleted r = false ∧ owner r = true)).
      2:{ intros r. simpl. case_decide as Hin; [|done]. simpl. split.
          - intros (_ & ? & _). done.
          - intros (<- & _). exfalso. by apply (Hdisj (key r)). }
      destruct (list_find _ (tokens db)) as [[k r]|] eqn:Hfind; simpl; [|done].
      apply list_find_Some in Hfind as (_ & (<- & _) & _).
      rewrite decide_False; [done|]. by apply Hdisj. }
    split.
    + unfold GetTokens, TokenStore.GetTokens, Query, set_tokens, update_deleted. simpl.
      rewrite <- !list_fmap_compose.
      rewrite (filter_fmap_agree (owned inputs)
                 (narrow ∘ (λ r, if decide (key r ∈ ids) then deleted deletedBy now r else r))
                 narrow); [done|].
      intros r _. simpl. case_decide as Hin; [|by left]. right.
      unfold owned. split; intros (Hk & _); by apply (Hdisj (key r)).
    + intros id Hid. rewrite !IsMine_lookup_owned. destruct id as [t i]. simpl.
      unfold set_tokens. simpl. by rewrite (Hlook (mkID t i) Hid).
  - intros inputs. unfold ListAuditTokens, set_tokens. simpl.
    rewrite filter_update_deleted by done. by rewrite audit_rows_update.
Qed.

(** X20, witness: T1:0 deleted by T7 is still listed for the auditor. *)
Lemma DeleteTokens_frame_witness :
  ListAuditTokens (DeleteTokens "T7" 100 [mkID "T1" 0] sample_tokens).2 [mkID "T1" 0]
  = ListAuditTokens sample_tokens [mkID "T1" 0].
Proof.
  refine (proj2 (DeleteTokens_frame "T7" 100 [mkID "T1" 0] sample_tokens None
                   (DeleteTokens "T7" 100 [mkID "T1" 0] sample_tokens).2 _)
            [mkID "T1" 0]).
  reflexivity.
Defined.

(** X21.  [WhoDeletedTokens] after a [DeleteTokens] that returned nil: for
    distinct ids that all name a row, every token is reported as deleted,
    by the transaction of this call, whoever had deleted it before. *)
Theorem DeleteTokens_then_WhoDeletedTokens deletedBy now ids (db : TokenDB) db' :
  NoDup (key <$> tokens db) → NoDup ids → ids ≠ [] →
  (∀ id, id ∈ ids → is_Some (find_row db id)) →
  DeleteTokens deletedBy now ids db = (None, db') →
  WhoDeletedTokens db' ids
  = Done (replicate (length ids) deletedBy, replicate (length ids) true).
Proof.
  intros Hpk Hnd Hne Hall Hrun. unfold DeleteTokens in Hrun.
  rewrite decide_False in Hrun by (by destruct ids). injection Hrun as <-.
  assert (∀ id, id ∈ ids →
            find_row (set_tokens (update_deleted deletedBy now (λ r, key r ∈ ids)) db) id
            = deleted deletedBy now <$> find_row db id) as Hfind.
  { intros id Hid. rewrite find_row_update.
    destruct (find_row db id) as [r|] eqn:Hr; [|done]. simpl.
    apply find_row_Some in Hr as [_ <-]. by rewrite decide_True. }
  rewrite WhoDeletedTokens_cases; [| |done|done].
  2:{ unfold set_tokens. simpl. by rewrite key_update_deleted. }
  destruct (list_find _ _) as [[j f]|] eqn:Hf.
  - exfalso. apply list_find_Some in Hf as (Hj & -> & _).
    rewrite list_lookup_fmap in Hj.
    destruct (ids !! j) as [id|] eqn:Hid; [|done]. injection Hj as Hj.
    apply bool_decide_eq_false in Hj. apply Hj.
    rewrite Hfind by (by eapply list_elem_of_lookup_2).
    apply fmap_is_Some, Hall. by eapply list_elem_of_lookup_2.
  - f_equal. f_equal.
    + apply list_eq. intros j. rewrite list_lookup_fmap.
      destruct (ids !! j) as [id|] eqn:Hid; simpl.
      * rewrite Hfind by (by eapply list_elem_of_lookup_2).
        destruct (Hall id) as [r ->]; [by eapply list_elem_of_lookup_2|]. simpl.
        symmetry. apply lookup_replicate_2. by eapply lookup_lt_Some.
      * symmetry. apply lookup_ge_None. rewrite length_replicate.
        by apply lookup_ge_None.
    + apply list_eq. intros j. rewrite list_lookup_fmap.
      destruct (ids !! j) as [id|] eqn:Hid; simpl.
      * rewrite Hfind by (by eapply list_elem_of_lookup_2).
        destruct (Hall id) as [r ->]; [by eapply list_elem_of_lookup_2|]. simpl.
        symmetry. apply lookup_replicate_2. by eapply lookup_lt_Some.
      * symmetry. apply lookup_ge_None. rewrite length_replicate.
        by apply lookup_ge_None.
Qed.

(** X21, witness: T3:0, spent by T9 before, and T1:0 are deleted by T7. *)
Lemma DeleteTokens_then_WhoDeletedTokens_witness :
  WhoDeletedTokens (DeleteTokens "T7" 100 [mkID "T3" 0; mkID "T1" 0] sample_tokens).2
                   [mkID "T3" 0; mkID "T1" 0]
  = Done (["T7"; "T7"], [true; true]).
Proof.
  apply (DeleteTokens_then_WhoDeletedTokens "T7" 100 [mkID "T3" 0; mkID "T1" 0]
           sample_tokens).
  - apply (bool_decide_unpack _). vm_compute. exact I.
  - apply (bool_decide_unpack _). vm_compute. exact I.
  - discriminate.
  - intros id Hid. apply (bool_decide_unpack _).
    repeat (apply elem_of_cons in Hid as [->|Hid]; [vm_compute; exact I|]).
    by apply elem_of_nil in Hid.
  - reflexivity.
Defined.

(** X22.  [IsMine] and [GetTokens] agree: on a table with unique keys,
    [IsMine] answers true for a token exactly when [GetTokens] returns it. *)
Theorem IsMine_agrees_with_GetTokens (db : TokenDB) txID index mine :
  NoDup (key <$> tokens db) →
  IsMine txID index db = inr mine →
  (mine = true ↔ ∃ tok, GetTokens db [mkID txID index] = Ok [Some tok]).
Proof.
  intros Hpk. rewrite IsMine_lookup_owned, (GetTokens_singleton _ _ Hpk).
  intros [= <-].
  destruct (lookup_owned _ _) as [r|].
  - rewrite bool_decide_eq_true_2 by (by eexists). split; [eauto|done].
  - rewrite bool_decide_eq_false_2 by (by intros []). split; [done|].
    intros [tok ?]. done.
Qed.

(** X22, witness: the spent token T3:0. *)
Lemma IsMine_agrees_with_GetTokens_witness :
  false = true ↔ ∃ tok, GetTokens sample_tokens [mkID "T3" 0] = Ok [Some tok].
Proof.
  apply (IsMine_agrees_with_GetTokens sample_tokens "T3" 0 false).
  - apply (bool_decide_unpack _). vm_compute. exact I.
  - reflexivity.
Defined.

(** X23.  [StoreToken] that succeeds: the constraints of the schema still
    hold, the token's row is the record with the time of the call, not
    deleted and unspent, every other row is as before, the token is owned
    in the OWNERSHIP table by exactly the wallets passed, and the reads see
    it: [TransactionExists] answers true, [IsMine] answers the owner flag of
    the record, and for a record with that flag [GetTokens] returns its
    token. *)
Theorem StoreToken_round_trip Stack tr owners now (db db' : TokenDB) :
  constraints db →
  StoreToken Stack tr owners now db = (None, db') →
  constraints db' ∧
  find_row db' (tr_ID tr) = Some (record_row tr now) ∧
  (∀ id, id ≠ tr_ID tr → find_row db' id = find_row db id) ∧
  (∀ eid, (tr_ID tr, eid) ∈ ownership db' ↔ eid ∈ owners) ∧
  TransactionExists (tr_TxID tr) db' = inr true ∧
  IsMine (tr_TxID tr) (tr_Index tr) db' = inr (tr_Owner tr) ∧
  (tr_Owner tr = true →
   GetTokens db' [tr_ID tr]
   = Ok [Some (mkToken (tr_OwnerRaw tr) (tr_Type tr) (tr_Quantity tr))]).
Proof.
  intros (Hpk & Hown & Hfk & Hpp) Hrun.
  unfold StoreToken, TokenTransaction_StoreToken, NewTokenDBTransaction in Hrun.
  simpl in Hrun. case_decide as Hno; [done|].
  unfold insert_token in Hrun.
  destruct (decide (key (record_row tr now) ∈ key <$> tokens db)) as [|Hfresh]; [done|].
  destruct (store_ownerships tr owners _) as [[err|] t'] eqn:Hstore; [done|].
  injection Hrun as <-. unfold Commit.
  apply store_ownerships_inv in Hstore as (Htab & Htok & Hpar & Hnew & Hnd & Hnot & _).
  simpl in Htab, Htok, Hpar, Hnew, Hnot.
  change (key (record_row tr now)) with (tr_ID tr) in Hfresh.
  assert (NoDup (key <$> tokens (tx t'))) as Hpk'.
  { rewrite Htok, fmap_app. apply NoDup_app. split_and!; [done| |apply NoDup_singleton].
    intros x Hx ->%list_elem_of_singleton. done. }
  assert (find_row (tx t') (tr_ID tr) = Some (record_row tr now)) as Hrow.
  { apply (find_row_elem_of (tx t') (record_row tr now) Hpk').
    rewrite Htok. apply elem_of_app. right. by apply list_elem_of_singleton. }
  assert (lookup_owned (narrow <$> tokens (tx t')) (tr_ID tr)
          = if tr_Owner tr then Some (narrow (record_row tr now)) else None) as Hlook.
  { rewrite lookup_owned_narrow.
    rewrite (find_flagged (tx t') (tr_ID tr)
               (λ r, is_deleted r = false ∧ owner r = true) Hpk').
    rewrite Hrow. simpl. destruct (tr_Owner tr).
    - by rewrite decide_True.
    - rewrite decide_False; [done|]. by intros [_ ?]. }
  split_and!.
  - split_and!; [done| | |by rewrite Hpar].
    + rewrite Hnew. apply NoDup_app. split_and!; [done| |].
      * intros [id eid] Hold (eid' & [= -> ->] & Hin)%list_elem_of_fmap.
        by apply (Hnot eid').
      * apply NoDup_fmap_2; [|done]. by intros ?? [=].
    + intros id eid. rewrite Hnew, Htok, fmap_app, !elem_of_app.
      intros [Hold|(eid' & [= -> ->] & _)%list_elem_of_fmap].
      * left. by eapply Hfk.
      * right. by apply list_elem_of_singleton.
  - done.
  - intros id Hid. unfold find_row. rewrite Htok.
    pose proof (find_row_snoc db (record_row tr now) id) as Hsnoc.
    unfold find_row, set_tokens in Hsnoc. simpl in Hsnoc. rewrite Hsnoc.
    destruct (snd <$> list_find _ (tokens db)); [done|].
    rewrite decide_False; [done|]. by intros <-.
  - intros eid. rewrite Hnew, elem_of_app. split.
    + intros [Hold|(eid' & [= ->] & Hin)%list_elem_of_fmap]; [|done].
      exfalso. apply Hfresh. by eapply Hfk.
    + intros Hin. right. apply list_elem_of_fmap. by exists eid.
  - unfold TransactionExists.
    destruct (list_find_elem_of (λ r, tx_id r = tr_TxID tr) (tokens (tx t'))
                (record_row tr now)) as [[k r] ->]; [|done|done].
    rewrite Htok. apply elem_of_app. right. by apply list_elem_of_singleton.
  - rewrite IsMine_lookup_owned.
    change (mkID (tr_TxID tr) (tr_Index tr)) with (tr_ID tr). rewrite Hlook.
    destruct (tr_Owner tr).
    + by rewrite bool_decide_eq_true_2 by (by eexists).
    + by rewrite bool_decide_eq_false_2 by (by intros []).
  - intros Howner. rewrite (GetTokens_singleton _ _ Hpk'), Hlook, Howner. done.
Qed.

(** X23, witness: T4:0 stored for the wallets carol and dave. *)
Lemma StoreToken_round_trip_witness :
  GetTokens (StoreToken "" new_record ["carol"; "dave"] 30 sample_tokens).2
            [mkID "T4" 0]
  = Ok [Some (mkToken [Byte.x0f] "USD" "0x06")].
Proof.
  refine (proj2 (proj2 (proj2 (proj2 (proj2 (proj2
            (StoreToken_round_trip "" new_record ["carol"; "dave"] 30 sample_tokens
               (StoreToken "" new_record ["carol"; "dave"] 30 sample_tokens).2 _ _))))))
            _).
  - split_and!.
    + apply (bool_decide_unpack _). vm_compute. exact I.
    + apply (bool_decide_unpack _). vm_compute. exact I.
    + intros id eid Hin. apply (bool_decide_unpack _).
      repeat (apply elem_of_cons in Hin as [[= -> ->]|Hin]; [vm_compute; exact I|]).
      by apply elem_of_nil in Hin.
    + apply (bool_decide_unpack _). vm_compute. exact I.
  - reflexivity.
  - reflexivity.
Defined.

(** X24.  [StoreToken] is all or nothing, and refuses three kinds of call:
    whenever it returns an error the database is as before, also when the
    row of the token had been written and an ownership could not be; and it
    returns an error for an owned token with neither a wallet nor owners,
    for a token whose key is in the table, and for a list of owners that
    repeats a wallet. *)
Theorem StoreToken_all_or_nothing Stack tr owners now (db : TokenDB) :
  (∀ err db', StoreToken Stack tr owners now db = (Some err, db') → db' = db) ∧
  ((tr_Owner tr = true ∧ tr_OwnerWalletID tr = "" ∧ owners = []) ∨
   tr_ID tr ∈ key <$> tokens db ∨ ¬ NoDup owners →
   ∃ err, StoreToken Stack tr owners now db = (Some err, db)).
Proof.
  assert (∀ err db', StoreToken Stack tr owners now db = (Some err, db') → db' = db)
    as Hsame.
  { intros err db' Hrun. unfold StoreToken in Hrun.
    destruct (TokenTransaction_StoreToken _ _ _ _ _) as [[e|] t]; [|done].
    by injection Hrun as _ <-. }
  split; [done|]. intros Hcond.
  destruct (StoreToken Stack tr owners now db) as [[err|] db'] eqn:Hrun.
  { rewrite (Hsame err db' eq_refl). by eexists. }
  exfalso. unfold StoreToken, TokenTransaction_StoreToken, NewTokenDBTransaction in Hrun.
  simpl in Hrun. case_decide as Hno; [done|].
  unfold insert_token in Hrun.
  destruct (decide (key (record_row tr now) ∈ key <$> tokens db)) as [|Hfresh]; [done|].
  destruct (store_ownerships tr owners _) as [[err|] t'] eqn:Hstore; [done|].
  apply store_ownerships_inv in Hstore as (_ & _ & _ & _ & Hnd & _).
  destruct Hcond as [(Ho & Hw & ->)|[Hkey|Hdup]]; [|done..].
  apply Hno. rewrite Hw. done.
Qed.

(** X24, witness: the wallet carol passed twice. *)
Lemma StoreToken_all_or_nothing_witness :
  ∃ err, StoreToken "" new_record ["carol"; "carol"] 30 sample_tokens
         = (Some err, sample_tokens).
Proof.
  apply (proj2 (StoreToken_all_or_nothing "" new_record ["carol"; "carol"] 30
                  sample_tokens)).
  right. right. intros Hnd. apply (bool_decide_pack _) in Hnd.
  vm_compute in Hnd. exact Hnd.
Defined.



(** X26.  [StorePublicParams] then [PublicParams]: a time that is already
    stored is refused, and a store that is refused changes nothing; after a
    store that succeeded [PublicParams] returns the new parameters when
    their time is later than every stored time, and what it returned before
    when some stored time is later. *)
Theorem StorePublicParams_then_PublicParams raw now (db : TokenDB) err db' :
  StorePublicParams raw now db = (err, db') →
  (now ∈ snd <$> public_params db → err ≠ None) ∧
  (err ≠ None → db' = db) ∧
  (err = None →
   ((∀ t, t ∈ snd <$> public_params db → t < now) →
    PublicParams db' = inr (Some raw)) ∧
   ((∃ t, t ∈ snd <$> public_params db ∧ now < t) →
    PublicParams db' = PublicParams db)).
Proof.
  unfold StorePublicParams. intros Hrun.
  case_decide as Hin; injection Hrun as <- <-; [done|].
  split_and!; [done|done|]. intros _.
  unfold PublicParams, set_public_params. simpl. rewrite latest_snoc.
  pose proof (latest_spec (public_params db)) as Hspec.
  split.
  - intros Hold. destruct (latest (public_params db)) as [b|]; [|done].
    destruct Hspec as [Hb _]. simpl.
    rewrite decide_True; [done|]. apply Hold. by apply list_elem_of_fmap_2.
  - intros (t & (x & -> & Hx)%list_elem_of_fmap & Hlt).
    destruct (latest (public_params db)) as [b|].
    + destruct Hspec as [_ Hmax]. specialize (Hmax x Hx). simpl.
      rewrite decide_False by lia. done.
    + rewrite Hspec in Hx. by apply elem_of_nil in Hx.
Qed.

(** X26, witness: parameters stored at time 15, between the times 10 and 20. *)
Lemma StorePublicParams_then_PublicParams_witness :
  PublicParams (StorePublicParams [Byte.x03] 15 sample_tokens).2
  = PublicParams sample_tokens.
Proof.
  refine (proj2 (proj2 (proj2 (StorePublicParams_then_PublicParams [Byte.x03] 15
                                 sample_tokens None
                                 (StorePublicParams [Byte.x03] 15 sample_tokens).2 _))
                   _) _).
  - reflexivity.
  - reflexivity.
  - exists 20. split; [|lia]. apply (bool_decide_unpack _). vm_compute. exact I.
Defined.



(** X28.  [CheckIfExistsInVaultView.Call] on the SQL token store: the
    assertion on the count cannot fail, and the callback never sees an
    empty token.  When the tokens of all ids are found the view returns the
    ids it was given, in their order; otherwise it fails in the assertion
    on [GetTokenOutputs]. *)
Theorem CheckIfExistsInVault_count_holds String_ (db : TokenDB) (IDs : list ID) :
  match getLedgerToken String_ db IDs with
  | inr _ => CheckIfExistsInVault String_ db IDs = inr IDs
  | inl _ => CheckIfExistsInVault String_ db IDs = inl "failed to match tokens"
  end.
Proof.
  unfold CheckIfExistsInVault, GetTokenOutputs.
  destruct (getLedgerToken String_ db IDs) as [err|toks] eqn:Hget; [done|].
  apply getLedgerToken_inr in Hget as [Hlen Hall].
  pose proof (each_output_exists String_ IDs toks [] 0 Hlen Hall) as Hrun.
  unfold bytes in *. rewrite Hrun. simpl.
  by rewrite decide_True.
Qed.

(** X29.  The match of the unspent tokens with the ledger in
    [CheckTTXDBView.Call]: the callback never fails, and it adds one
    message for each token whose bytes are not among the contents read from
    the ledger, whatever the position of the token; the number in the
    message counts the mismatches so far, from where the index stood, not
    the tokens. *)
Theorem match_callback_messages String_ Hashable content
    (outputs : list (ID * bytes)) msgs index :
  each_output (match_callback String_ Hashable content) outputs (msgs, index)
  = (None,
     (msgs ++ imap (λ k o, mismatch String_ Hashable (fst o) (index + k) (snd o))
                   (filter (λ o, snd o ∉ content) outputs),
      (index + length (filter (λ o, snd o ∉ content) outputs))%nat)).
Proof.
  revert msgs index. induction outputs as [|[id tok] outputs IH]; intros msgs index.
  - simpl. by rewrite app_nil_r, Nat.add_0_r.
  - cbn [each_output]. unfold match_callback at 1. rewrite on_ledger_elem_of.
    rewrite filter_cons. simpl fst. simpl snd.
    destruct (decide (tok ∈ content)) as [Hin|Hout].
    + rewrite bool_decide_eq_true_2 by done. rewrite decide_False by (by intros ?).
      apply IH.
    + rewrite bool_decide_eq_false_2 by done. rewrite decide_True by done.
      rewrite IH. rewrite <- app_assoc. simpl.
      rewrite Nat.add_0_r. f_equal. f_equal; [|lia]. do 2 f_equal.
      apply imap_ext. intros k o _. simpl. f_equal. lia.
Qed.


End TokenTableFacts.
